(** * Mailvelope: key import reconciliation and the encryption editor

    A shallow embedding of [src/controller/import.controller.js]
    (class [ImportController], function [lookupKey]) and of the editor
    controller that follows it in the same file (class
    [EditorController]), together with the properties of the
    specification that concern them.

    Conventions of the embedding.
    - A controller method is a computation in a small monad: it threads
      the controller's fields and the outside world, records the effects
      it has on its collaborators as a list of events, and ends in a value
      or in a thrown error.  Fields keep their assignments when a method
      throws, as [this.x = ...] does in Javascript.
    - A method runs to completion except where it waits for the user: a
      promise that only a later dialog event settles is a field of the
      controller ([popupPromise], [encryptPromise]) whose state is
      [Pending] until then.
    - Code that lives outside the two controllers (openpgp, the keyring,
      the mime builder, the password dialog, ...) is a parameter,
      collected in a class of collaborators. *)

From Stdlib Require Import String Ascii List ZArith Bool Lia.
From Stdlib Require Import Sorted Permutation.
Import ListNotations.
Local Open Scope string_scope.
Local Open Scope list_scope.

(** ** Javascript values used by both controllers *)

(** An [Error], an [MvError] or an object literal with the same two
    properties; [code] is [None] where the source gives none. *)
Record jsError : Type := mkError {
  message : string;
  code : option string
}.

(** [new Error(msg)] *)
Definition Error (msg : string) : jsError := mkError msg None.

(** [new MvError(msg, code)] *)
Definition MvError (msg : string) (c : option string) : jsError := mkError msg c.

(** The error of reading a property of [null] or [undefined]. *)
Definition typeError : jsError := mkError "TypeError" None.

(** The state of the promise behind a stored [{resolve, reject}] pair.
    Settling a promise that is already settled changes nothing. *)
Inductive promise (A : Type) : Type :=
| Pending
| Resolved (v : A)
| Rejected (e : jsError).
Arguments Pending {A}.
Arguments Resolved {A} v.
Arguments Rejected {A} e.

Definition resolve {A} (v : A) (p : promise A) : promise A :=
  match p with Pending => Resolved v | _ => p end.

Definition reject {A} (e : jsError) (p : promise A) : promise A :=
  match p with Pending => Rejected e | _ => p end.

(** Truthiness of a string that may be [undefined]. *)
Definition truthy (s : option string) : bool :=
  match s with
  | Some s => negb (s =? "")
  | None => false
  end.

(** ** The monad of controller methods *)

Section Monad.
Context {S Ev : Type}.

Record out (A : Type) : Type := mkOut {
  st : S;
  evs : list Ev;
  res : jsError + A
}.
Arguments mkOut {A}.
Arguments st {A}.
Arguments evs {A}.
Arguments res {A}.

Definition M (A : Type) : Type := S -> out A.

Definition ret {A} (a : A) : M A := fun s => mkOut s [] (inr a).

Definition throw {A} (e : jsError) : M A := fun s => mkOut s [] (inl e).

Definition bind {A B} (m : M A) (k : A -> M B) : M B :=
  fun s =>
    match m s with
    | mkOut s1 evs1 (inl e) => mkOut s1 evs1 (inl e)
    | mkOut s1 evs1 (inr a) =>
        match k a s1 with
        | mkOut s2 evs2 r => mkOut s2 (evs1 ++ evs2) r
        end
    end.

(** [try { m } catch (e) { h e }] *)
Definition try_catch {A} (m : M A) (h : jsError -> M A) : M A :=
  fun s =>
    match m s with
    | mkOut s1 evs1 (inl e) =>
        match h e s1 with
        | mkOut s2 evs2 r => mkOut s2 (evs1 ++ evs2) r
        end
    | mkOut s1 evs1 (inr a) => mkOut s1 evs1 (inr a)
    end.

Definition get : M S := fun s => mkOut s [] (inr s).
Definition modify (f : S -> S) : M unit := fun s => mkOut (f s) [] (inr tt).
Definition log (e : Ev) : M unit := fun s => mkOut s [e] (inr tt).

Definition when (b : bool) (m : M unit) : M unit := if b then m else ret tt.
End Monad.

Arguments out : clear implicits.
Arguments M : clear implicits.
Arguments mkOut {S Ev A}.
Arguments st {S Ev A}.
Arguments evs {S Ev A}.
Arguments res {S Ev A}.

Declare Scope js_scope.
Delimit Scope js_scope with js.
Notation "x <- m ;; k" := (bind m (fun x => k))
  (at level 61, m at next level, right associativity) : js_scope.
Notation "m ;; k" := (bind m (fun _ => k))
  (at level 61, right associativity) : js_scope.
Local Open Scope js_scope.

(** * The import controller ([ImportController], [lookupKey]) *)

Module ImportController.

(** [openpgp.enums.keyStatus] *)
Inductive keyStatus : Type :=
| invalid | expired | revoked | valid | no_self_cert.

Definition keyStatus_eqb (a b : keyStatus) : bool :=
  match a, b with
  | invalid, invalid | expired, expired | revoked, revoked
  | valid, valid | no_self_cert, no_self_cert => true
  | _, _ => false
  end.

(** The user ID packet of an openpgp user; a user attribute has none. *)
Record userIdPacket : Type := {
  userid : string;
  uname : string;
  uemail : string
}.

(** An entry of the [users] list shown in the import dialog. *)
Record uiUser : Type := {
  uid : nat;
  uuserId : string;
  uiname : string;
  uiemail : string;
  ustatus : keyStatus
}.

(** One entry of what [keyring.importKeys] returns. *)
Record importResult : Type := {
  rtype : string;
  rmessage : string
}.

(** What an awaited call hands back: a value, or the promise of
    [openPopup], which stays pending until a dialog event settles
    [popupPromise]. *)
Inductive flow : Type :=
| Value (v : string)
| AwaitPopup.

(** The code outside the controller. *)
Class Collaborators : Type := {
  (** an openpgp key object *)
  Key : Type;
  (** a keyring of [modules/keyring] *)
  Keyring : Type;
  (** the window of the import dialog *)
  Popup : Type;
  (** what [mapKeys] collects about a key besides its type *)
  KeyInfo : Type;
  (** the contents of all keyrings *)
  World : Type;
  (** [getById] of [modules/keyring]; throws for an unknown id *)
  getKeyringById : World -> string -> jsError + Keyring;
  (** [openpgp.key.readArmored]: the keys and the [err] list, if any *)
  readArmored_keys : string -> list Key;
  readArmored_err : string -> option (list jsError);
  (** [sanitizeKey] of [modules/key], called with [keys[0]] *)
  sanitizeKey : option Key -> option Key;
  verifyPrimaryKey : Key -> keyStatus;
  armor : Key -> string;
  (** [mapKeys] of [modules/key]: type and further details per key *)
  mapKeys : list Key -> list (string * KeyInfo);
  users : Key -> list (option userIdPacket);
  (** [user.verify(key.primaryKey)] for the user at an index *)
  userVerify : Key -> nat -> keyStatus;
  parseUserId : uiUser -> uiUser;
  getFingerprint : Key -> string;
  (** [keyring.keystore.getKeysForId] *)
  getKeysForId : World -> Keyring -> string -> option (list Key);
  cloneKey : Key -> Key;
  (** [key.update(newKey)]: the key after the merge *)
  update : Key -> Key -> Key;
  (** [getLastModifiedDate(key).valueOf()], in milliseconds *)
  getLastModifiedDate : Key -> Z;
  (** [keyring.importKeys([{type: 'public', armored}])]: the first entry
      of the result and the keyrings afterwards *)
  importKeys : World -> Keyring -> string -> importResult * World;
  (** [keyRegistry.lookup(email, keyringId)]: the armored key found *)
  keyRegistry_lookup : World -> string -> string -> option string
}.

Section Controller.
Context {C : Collaborators}.

(** What [mapKeys] returns for a key, with the [users] that [importKey]
    puts in their place. *)
Record mappedKey : Type := {
  type : string;
  info : KeyInfo;
  kusers : option (list uiUser)
}.

(** The fields of an [ImportController]. *)
Record controller : Type := mkController {
  id : string;
  armored : string;
  popupPromise : option (promise string);
  importPopup : option Popup;
  keyringId : string;
  keyring : option Keyring;
  keys : list Key;
  key : option Key;
  keyDetails : option mappedKey;
  importError : bool;
  invalidated : bool;
  rotation : option bool
}.

(** The controller the constructor creates; [i] is the [getHash()] id. *)
Definition new (i : string) : controller :=
  mkController i "" None None "" None [] None None false false None.

Record state : Type := mkState {
  ctrl : controller;
  world : World
}.

Inductive payload : Type :=
| ImportErrorMessage (msg : string)
| KeyDetails (k : option mappedKey) (inv : bool) (rot : option bool).

Inductive event : Type :=
| Emit (name : string) (p : payload)
| WindowsOpenPopup (url : string) (width height : Z)
| PopupClose (p : Popup)
| ImportKeys (kr : Keyring) (a : string)
| ConsoleLog (msg : string).

Definition is_open_popup (e : event) : bool :=
  match e with WindowsOpenPopup _ _ _ => true | _ => false end.

Definition is_import_keys (e : event) : bool :=
  match e with ImportKeys _ _ => true | _ => false end.

Definition is_popup_close (e : event) : bool :=
  match e with PopupClose _ => true | _ => false end.

Abbreviation Method := (M state event).

(** Assignments to the fields. *)
Definition upd (f : controller -> controller) : Method unit :=
  modify (fun s => mkState (f (ctrl s)) (world s)).

Definition set_armored v c := mkController (id c) v (popupPromise c) (importPopup c)
  (keyringId c) (keyring c) (keys c) (key c) (keyDetails c) (importError c) (invalidated c) (rotation c).
Definition set_popupPromise v c := mkController (id c) (armored c) v (importPopup c)
  (keyringId c) (keyring c) (keys c) (key c) (keyDetails c) (importError c) (invalidated c) (rotation c).
Definition set_importPopup v c := mkController (id c) (armored c) (popupPromise c) v
  (keyringId c) (keyring c) (keys c) (key c) (keyDetails c) (importError c) (invalidated c) (rotation c).
Definition set_keyringId v c := mkController (id c) (armored c) (popupPromise c) (importPopup c)
  v (keyring c) (keys c) (key c) (keyDetails c) (importError c) (invalidated c) (rotation c).
Definition set_keyring v c := mkController (id c) (armored c) (popupPromise c) (importPopup c)
  (keyringId c) v (keys c) (key c) (keyDetails c) (importError c) (invalidated c) (rotation c).
Definition set_keys v c := mkController (id c) (armored c) (popupPromise c) (importPopup c)
  (keyringId c) (keyring c) v (key c) (keyDetails c) (importError c) (invalidated c) (rotation c).
Definition set_key v c := mkController (id c) (armored c) (popupPromise c) (importPopup c)
  (keyringId c) (keyring c) (keys c) v (keyDetails c) (importError c) (invalidated c) (rotation c).
Definition set_keyDetails v c := mkController (id c) (armored c) (popupPromise c) (importPopup c)
  (keyringId c) (keyring c) (keys c) (key c) v (importError c) (invalidated c) (rotation c).
Definition set_importError v c := mkController (id c) (armored c) (popupPromise c) (importPopup c)
  (keyringId c) (keyring c) (keys c) (key c) (keyDetails c) v (invalidated c) (rotation c).
Definition set_invalidated v c := mkController (id c) (armored c) (popupPromise c) (importPopup c)
  (keyringId c) (keyring c) (keys c) (key c) (keyDetails c) (importError c) v (rotation c).
Definition set_rotation v c := mkController (id c) (armored c) (popupPromise c) (importPopup c)
  (keyringId c) (keyring c) (keys c) (key c) (keyDetails c) (importError c) (invalidated c) v.

(** [this.popupPromise.resolve(v)] and [this.popupPromise.reject(e)] *)
Definition popupPromise_resolve (v : string) : Method unit :=
  s <- get ;;
  match popupPromise (ctrl s) with
  | None => throw typeError
  | Some p => upd (set_popupPromise (Some (resolve v p)))
  end.

Definition popupPromise_reject (e : jsError) : Method unit :=
  s <- get ;;
  match popupPromise (ctrl s) with
  | None => throw typeError
  | Some p => upd (set_popupPromise (Some (reject e p)))
  end.

(** [this.keyring.importKeys([{type: 'public', armored: this.armored}])],
    destructured to its first entry *)
Definition keyring_importKeys : Method importResult :=
  s <- get ;;
  match keyring (ctrl s) with
  | None => throw typeError
  | Some kr =>
      log (ImportKeys kr (armored (ctrl s))) ;;
      let (r, w) := importKeys (world s) kr (armored (ctrl s)) in
      modify (fun s => mkState (ctrl s) w) ;;
      ret r
  end.

Definition closePopup : Method unit :=
  s <- get ;;
  match importPopup (ctrl s) with
  | Some p => log (PopupClose p) ;; upd (set_importPopup None)
  | None => ret tt
  end.

Definition onImportOk : Method unit :=
  importResult <- keyring_importKeys ;;
  if rtype importResult =? "error" then
    log (Emit "import-error" (ImportErrorMessage (rmessage importResult))) ;;
    upd (set_importError true)
  else
    closePopup ;;
    popupPromise_resolve "IMPORTED".

Definition handleCancel : Method unit :=
  closePopup ;;
  s <- get ;;
  if invalidated (ctrl s) then
    popupPromise_resolve "INVALIDATED"
  else if importError (ctrl s) then
    popupPromise_reject
      (mkError "An error occured during key import" (Some "IMPORT_ERROR"))
  else
    popupPromise_resolve "REJECTED".

(** [openPopup]: the promise it returns is the one stored in
    [popupPromise]; the window arrives later, see [popupOpened]. *)
Definition openPopup : Method flow :=
  upd (set_popupPromise (Some Pending)) ;;
  s <- get ;;
  log (WindowsOpenPopup
         ("components/import-key/importKey.html?id=" ++ id (ctrl s)) 910 554) ;;
  ret AwaitPopup.

(** The [then] callback of [openPopup], run when the window exists. *)
Definition popupOpened (popup : Popup) : Method unit :=
  upd (set_importPopup (Some popup)).

(** The remove listener that callback registers on the window. *)
Definition popupRemoved : Method unit :=
  upd (set_importPopup None) ;;
  handleCancel.

Definition updateKey (fingerprint : string) (stockKey newKey : Key) : Method flow :=
  let statusBefore := verifyPrimaryKey stockKey in
  let stockKeyClone := update (cloneKey stockKey) newKey in
  let statusAfter := verifyPrimaryKey stockKeyClone in
  if negb (keyStatus_eqb statusBefore statusAfter) then
    when (negb (keyStatus_eqb statusAfter valid)) (upd (set_invalidated true)) ;;
    openPopup
  else
    let beforeLastModified := getLastModifiedDate stockKey in
    let afterLastModified := getLastModifiedDate stockKeyClone in
    when (negb (beforeLastModified =? afterLastModified)%Z)
      (importResult <- keyring_importKeys ;;
       if rtype importResult =? "error" then throw (Error (rmessage importResult))
       else ret tt) ;;
    ret (Value "UPDATED").
(** The loop of [importKey] over [this.key.users.entries()]; user
    attribute packets, which have no [userId], are left out. *)
Fixpoint collectUsers (k : Key) (index : nat) (us : list (option userIdPacket))
  : list uiUser :=
  match us with
  | [] => []
  | None :: rest => collectUsers k (S index) rest
  | Some u :: rest =>
      parseUserId {| uid := index; uuserId := userid u; uiname := uname u;
                     uiemail := uemail u; ustatus := userVerify k index |}
      :: collectUsers k (S index) rest
  end.

(** Where the [try] block of [importKey] ends: in a call of [updateKey]
    with [stockKey[0]], or in a call of [openPopup]. *)
Inductive importPath : Type :=
| Update (fingerprint : string) (stockKey : option Key) (newKey : Key)
| Confirm.

(** The statements of the [try] block of [importKey] before its two
    [return]s. *)
Definition importKey_try (keyringId' armored' : string) (rotation' : option bool)
  : Method importPath :=
  upd (set_keyringId keyringId') ;;
  s <- get ;;
  match getKeyringById (world s) keyringId' with
  | inl e => throw e
  | inr kr =>
    upd (set_keyring (Some kr)) ;;
    upd (set_armored armored') ;;
    upd (set_rotation rotation') ;;
    let ks := readArmored_keys armored' in
    upd (set_keys ks) ;;
    match readArmored_err armored' with
    | Some (e :: _) => throw (Error (message e))
    | Some [] => throw typeError
    | None =>
      upd (set_key (hd_error ks)) ;;
      when (1 <? length ks)%nat
        (log (ConsoleLog
           "Multiple keys detected during key import, only first key is imported.")) ;;
      upd (set_key (sanitizeKey (hd_error ks))) ;;
      match sanitizeKey (hd_error ks) with
      | None => throw (Error "Key is invalid.")
      | Some k =>
        if keyStatus_eqb (verifyPrimaryKey k) invalid then
          throw (Error "Key is invalid.")
        else
          upd (set_armored (armor k)) ;;
          match mapKeys ks with
          | [] => upd (set_keyDetails None) ;; throw typeError
          | (ty, inf) :: _ =>
            upd (set_keyDetails (Some {| type := ty; info := inf; kusers := None |})) ;;
            if ty =? "private" then
              throw (Error "Import of private keys not allowed.")
            else
              upd (set_keyDetails (Some {| type := ty; info := inf;
                     kusers := Some (collectUsers k 0 (users k)) |})) ;;
              let fingerprint := getFingerprint k in
              s <- get ;;
              match getKeysForId (world s) kr fingerprint with
              | Some stockKey => ret (Update fingerprint (hd_error stockKey) k)
              | None => ret Confirm
              end
          end
      end
    end
  end.

(** [importKey].  The promises of [updateKey] and [openPopup] are returned
    without [await], so what they reject with passes the [catch] as it
    is; an undefined [stockKey[0]] makes [updateKey] reject at its first
    statement. *)
Definition importKey (keyringId' armored' : string) (rotation' : option bool)
  : Method flow :=
  path <- try_catch (importKey_try keyringId' armored' rotation')
            (fun err => throw (MvError (message err) (Some "IMPORT_ERROR"))) ;;
  match path with
  | Update fingerprint (Some stockKey) newKey => updateKey fingerprint stockKey newKey
  | Update _ None _ => throw typeError
  | Confirm => openPopup
  end.

(** The events the controller registers handlers for, and the two
    callbacks of the popup window. *)
Inductive dialogEvent : Type :=
| DialogInit
| DialogOk
| DialogCancel
| PopupOpened (p : Popup)
| PopupRemoved.

Definition handle (e : dialogEvent) : Method unit :=
  match e with
  | DialogInit =>
      s <- get ;;
      log (Emit "key-details"
             (KeyDetails (keyDetails (ctrl s)) (invalidated (ctrl s)) (rotation (ctrl s))))
  | DialogOk => onImportOk
  | DialogCancel => handleCancel
  | PopupOpened p => popupOpened p
  | PopupRemoved => popupRemoved
  end.

(** Waiting for the promise of [openPopup] while the dialog events of
    [script] arrive; [None] when they end before the promise is settled.
    An error thrown by an event handler does not reach the waiting code. *)
Fixpoint await_popup (script : list dialogEvent) : Method (option string) :=
  fun s =>
    match popupPromise (ctrl s) with
    | Some (Resolved v) => ret (Some v) s
    | Some (Rejected e) => throw e s
    | _ =>
      match script with
      | [] => ret None s
      | e :: rest =>
          (try_catch (handle e) (fun _ => ret tt) ;; await_popup rest) s
      end
    end.

(** [lookupKey], for the fresh controller [sub.factory.get] creates with
    id [i] and the dialog events [script] that follow.  The result is
    [false] when the import is still waiting for the user at their end. *)
Definition lookupKey (keyringId' email : string) (rotation' : option bool)
    (i : string) (script : list dialogEvent) (w : World)
  : out state event bool :=
  match keyRegistry_lookup w email keyringId' with
  | Some armored' =>
      try_catch
        (r <- importKey keyringId' armored' rotation' ;;
         match r with
         | Value _ => ret true
         | AwaitPopup =>
             v <- await_popup script ;;
             ret (match v with Some _ => true | None => false end)
         end)
        (fun e =>
           log (ConsoleLog ("Key import after auto locate failed " ++ message e)) ;;
           ret true)
        (mkState (new i) w)
  | None => mkOut (mkState (new i) w) [] (inr true)
  end.
(** The four quantities [updateKey] compares: the status of the primary
    key and the date of the last modification, of the stored key and of
    its clone after the update with the new key. *)
Definition merged (stockKey newKey : Key) : Key := update (cloneKey stockKey) newKey.

Definition validity_before (stockKey : Key) : keyStatus := verifyPrimaryKey stockKey.

Definition validity_after (stockKey newKey : Key) : keyStatus :=
  verifyPrimaryKey (merged stockKey newKey).

Definition modified_before (stockKey : Key) : Z := getLastModifiedDate stockKey.

Definition modified_after (stockKey newKey : Key) : Z :=
  getLastModifiedDate (merged stockKey newKey).

(** The ways the user declines the import dialog: its cancel button, or
    closing its window. *)
Definition declines (e : dialogEvent) : bool :=
  match e with
  | DialogCancel | PopupRemoved => true
  | _ => false
  end.

(** The reading of the error policy under which a failed import step
    ends the confirmation flow by itself: once [onImportOk] has met an
    error result, the popup is closed and the continuation is rejected
    with the code IMPORT_ERROR. *)
Definition import_failure_aborts (s : state) : Prop :=
  forall kr,
    keyring (ctrl s) = Some kr ->
    rtype (fst (importKeys (world s) kr (armored (ctrl s)))) = "error" ->
    let o := onImportOk s in
    importPopup (ctrl (st o)) = None
    /\ exists msg,
         popupPromise (ctrl (st o)) = Some (Rejected (mkError msg (Some "IMPORT_ERROR"))).
(** The handlers of the dialog events of [script], one after the other,
    as the event emitter calls them: an error thrown by a handler ends
    that handler only. *)
Fixpoint dispatch (script : list dialogEvent) : Method unit :=
  match script with
  | [] => ret tt
  | e :: rest => try_catch (handle e) (fun _ => ret tt) ;; dispatch rest
  end.

(** A promise that has been resolved or rejected. *)
Definition settled {A} (p : promise A) : bool :=
  match p with
  | Pending => false
  | _ => true
  end.

(** The [id]s of the users [importKey] lists. *)
Definition user_ids (l : list uiUser) : list nat := map uid l.

(** The positions of the user ID packets in [key.users], counted from
    [index]. *)
Fixpoint userId_positions (index : nat) (us : list (option userIdPacket)) : list nat :=
  match us with
  | [] => []
  | None :: rest => userId_positions (S index) rest
  | Some _ :: rest => index :: userId_positions (S index) rest
  end.

End Controller.

(** Unfolding the methods down to the states they return. *)
Ltac unfold_methods :=
  unfold updateKey, openPopup, onImportOk, handleCancel, popupRemoved, popupOpened,
    closePopup, keyring_importKeys, popupPromise_resolve, popupPromise_reject,
    upd, when, bind, try_catch, get, modify, log, ret, throw.

End ImportController.

(** * Helpers of [lib/util] and of Javascript used by the editor *)

(** The line feed. *)
Definition LF : string := String (ascii_of_nat 10) EmptyString.

(** What [\s] matches among the characters of a [string]. *)
Definition is_whitespace (c : ascii) : bool :=
  let n := nat_of_ascii c in
  ((9 <=? n) && (n <=? 13) || (n =? 32) || (n =? 160))%nat.

(** The regular expressions of [decryptArmored] are words separated by
    [\s]: a pattern is a string whose blanks stand for [\s]. *)
Fixpoint matches_here (pattern s : string) : bool :=
  match pattern, s with
  | EmptyString, _ => true
  | String _ _, EmptyString => false
  | String p pattern', String c s' =>
      (if Ascii.eqb p " " then is_whitespace c else Ascii.eqb p c)
      && matches_here pattern' s'
  end.

(** [/pattern/.test(s)] *)
Fixpoint test (pattern s : string) : bool :=
  matches_here pattern s
  || match s with
     | EmptyString => false
     | String _ s' => test pattern s'
     end.

(** The line terminators of Javascript besides the line feed: the
    carriage return and the separators U+2028 and U+2029.  The
    characters of a [string] are bytes, and a separator is the three
    bytes of its UTF-8 encoding, as in a string literal of Rocq. *)
Definition CR : string := String (ascii_of_nat 13) EmptyString.

Definition LS : string :=
  String (ascii_of_nat 226) (String (ascii_of_nat 128)
    (String (ascii_of_nat 168) EmptyString)).

Definition PS : string :=
  String (ascii_of_nat 226) (String (ascii_of_nat 128)
    (String (ascii_of_nat 169) EmptyString)).

(** U+2028 or U+2029 begins the string. *)
Definition separator_here (s : string) : bool :=
  match s with
  | String a s1 =>
      (nat_of_ascii a =? 226)%nat
      && match s1 with
         | String b s2 =>
             (nat_of_ascii b =? 128)%nat
             && match s2 with
                | String c _ => ((nat_of_ascii c =? 168) || (nat_of_ascii c =? 169))%nat
                | EmptyString => false
                end
         | EmptyString => false
         end
  | EmptyString => false
  end.

(** [msg.replace(/^(.|\n)/gm, '> $&')]: at the start of a line the
    expression matches one character, and the prefix is put before it.
    [.] matches anything but a line terminator and the second branch
    matches the line feed, so that only a carriage return and a
    separator are not matched; a line begins at the start of the text
    and after each of the four line terminators.  [inside] counts the
    bytes of a separator that are still to be copied. *)
Fixpoint indent_from (line_start : bool) (inside : nat) (msg : string) : string :=
  match msg with
  | EmptyString => EmptyString
  | String c rest =>
      match inside with
      | S n => String c (indent_from (n =? 0)%nat n rest)
      | O =>
          let cr := Ascii.eqb c (ascii_of_nat 13) in
          let lf := Ascii.eqb c (ascii_of_nat 10) in
          if separator_here msg then String c (indent_from false 2 rest)
          else if line_start && negb cr
          then "> " ++ String c (indent_from (cr || lf) 0 rest)
          else String c (indent_from (cr || lf) 0 rest)
      end
  end.

Definition indent (line_start : bool) (msg : string) : string :=
  indent_from line_start 0 msg.

(** Sorting strings in the order of their characters, as
    [Array.prototype.sort] does without a comparator. *)
Fixpoint insert_sorted (x : string) (l : list string) : list string :=
  match l with
  | [] => [x]
  | y :: l' => if String.leb x y then x :: l else y :: insert_sorted x l'
  end.

Fixpoint sort (l : list string) : list string :=
  match l with
  | [] => []
  | x :: l' => insert_sorted x (sort l')
  end.

(** Of a run of equal neighbours one is kept. *)
Fixpoint deDupSorted (l : list string) : list string :=
  match l with
  | [] => []
  | x :: l' =>
      match l' with
      | y :: _ => if x =? y then deDupSorted l' else x :: deDupSorted l'
      | [] => [x]
      end
  end.

(** Modelled from the spec: [sortAndDeDup] of [lib/util], which is not
    part of the sources at hand; "the final list is deduplicated and
    stably ordered". *)
Definition sortAndDeDup (unordered : list string) : list string :=
  deDupSorted (sort unordered).

(** The order of the sort and its strict part. *)
Definition fpr_le (a b : string) : Prop := String.leb a b = true.
Definition fpr_lt (a b : string) : Prop := String.ltb a b = true.

(** A Javascript object used as a map from strings, in the order of
    insertion of its keys. *)
Fixpoint obj_get {V} (o : list (string * V)) (k : string) : option V :=
  match o with
  | [] => None
  | (k', v) :: o' => if k' =? k then Some v else obj_get o' k
  end.

Fixpoint obj_set {V} (o : list (string * V)) (k : string) (v : V) : list (string * V) :=
  match o with
  | [] => [(k, v)]
  | (k', v') :: o' => if k' =? k then (k, v) :: o' else (k', v') :: obj_set o' k v
  end.

(** * The editor controller ([EditorController]) *)

Module EditorController.

(** A key data object of the editor (user id, fingerprint, email, name). *)
Record keyData : Type := {
  fingerprint : string;
  name : string;
  email : string
}.

(** A file attachment of the plaintext message. *)
Record file : Type := {
  fname : string;
  fcontent : string
}.

(** An encrypted attachment as [encryptFiles] returns it. *)
Record encFile : Type := {
  content : string;
  size : Z;
  ename : string
}.

(** One entry of the [signatures] a decryption or verification yields. *)
Record signature : Type := {
  sig_valid : bool
}.

(** The [options] of the 'editor-plaintext' event. *)
Record plaintext : Type := {
  action : string;
  pmessage : string;
  keysTo : list keyData;
  keysCc : list keyData;
  keysEx : list keyData;
  attachments : option (list file);
  signMsg : bool;
  psignKeyFpr : option string;
  noCache : option bool;
  subject : string
}.

(** The fields of [this.options] the modelled methods read or write. *)
Record editorOptions : Type := {
  armoredDraft : option string;
  quotedMailIndent : bool;
  quotedMailHeader : option string;
  predefinedText : option string;
  keepAttachments : bool;
  reason : option string
}.

(** The value of the variable [data] of [signAndEncrypt]. *)
Inductive mailData : Type :=
| Undefined
| Null
| Mail (text : string).

(** What [signAndEncrypt] returns and what [encrypt] resolves with. *)
Record encrypted : Type := {
  earmored : string;
  encFiles : option (list encFile)
}.

Record encryptResult : Type := {
  rarmored : string;
  rencFiles : option (list encFile);
  rsubject : string;
  rto : list (string * string);
  rcc : list (string * string)
}.

Section Engine.
Context {Key : Type}.

(** The options object the [unlockKey] callback is called with. *)
Record unlockOptions : Type := {
  ukey : Key;
  unoCache : option bool;
  ureason : option string;
  usync : option bool
}.

(** A call into [modules/pgpModel] that is handed an [unlockKey]
    callback: it ends in an error or a result, possibly after calling
    the callback and going on with what that returned or threw. *)
Inductive engine (R : Type) : Type :=
| Done (r : jsError + R)
| Unlock (o : unlockOptions) (k : jsError + Key -> engine R).

(** The request of [pwdControl.unlockKey] without its callback. *)
Record pwdRequest : Type := {
  pkey : Key;
  preason : string;
  popenPopup : bool;
  pnoCache : option bool
}.

(** How [pwdControl.unlockKey] went: the id [beforePasswordRequest] was
    called with when the password had to be asked for, and the unlocked
    key with its password, or the error. *)
Record pwdAnswer : Type := {
  asked : option string;
  unlocked : jsError + (Key * string)
}.
End Engine.
Arguments unlockOptions : clear implicits.
Arguments engine : clear implicits.
Arguments Done {Key R} r.
Arguments Unlock {Key R} o k.
Arguments pwdRequest : clear implicits.
Arguments pwdAnswer : clear implicits.

(** What [model.encryptMessage] and [model.encryptFile] are called with
    besides the data or the file; [withUnlockKey] tells whether a
    callback was passed. *)
Record encryptRequest : Type := {
  ekeyringId : option string;
  encryptionKeyFprs : list string;
  signingKeyFpr : option string;
  withUnlockKey : bool;
  enoCache : option bool
}.

Record decryptRequest : Type := {
  darmored : string;
  dkeyringId : option string;
  selfSigned : bool
}.

(** The code outside the controller. *)
Class Collaborators : Type := {
  (** a private key as the password dialog unlocks it *)
  Key : Type;
  (** a public key of the keyring *)
  PublicKey : Type;
  (** the editor window *)
  Popup : Type;
  (** an attachment found by the mime parser *)
  Part : Type;
  (** keyrings, preferences, caches and whatever else the collaborators
      depend on *)
  World : Type;
  (** [prefs.general.auto_add_primary] *)
  auto_add_primary : World -> bool;
  (** [prefs.security.password_cache] *)
  password_cache : World -> bool;
  (** [getKeyringById(keyringId).getDefaultKeyFpr()] *)
  keyring_getDefaultKeyFpr : World -> option string -> jsError + option string;
  (** [getDefaultKeyFpr(keyringId)] of [modules/keyring] *)
  getDefaultKeyFpr : World -> option string -> option string;
  (** the entry [getKeyByAddress] of [modules/keyring] has for one
      address: the usable keys, or [false] *)
  keysByAddress : World -> option string -> string -> option (list PublicKey);
  keyFingerprint : PublicKey -> string;
  (** [lookupKey] of the import controller, awaited: the world once the
      lookup and the import dialog it may open are over, or [None]
      while that dialog is still waiting for the user *)
  lookupKey : World -> option string -> string -> option World;
  (** [buildMail] of [modules/mime] for the options, [pgpMIME] and the
      attachments left in the options: the mail, [null] or an exception *)
  buildMail : plaintext -> bool -> option (list file) -> jsError + option string;
  mapError : jsError -> jsError;
  (** [normalizeArmored] of [lib/util] with the PGP MESSAGE expression *)
  normalizeArmored : string -> string;
  (** [mvelo.util.sanitizeHTML] *)
  sanitizeHTML : string -> string;
  (** [decodeURIComponent(escape(data))], which throws on malformed input *)
  decodeUtf8 : string -> jsError + string;
  (** [parseMessage(data, handlers, 'text')]: the parts the handlers are
      called with, a message text or an attachment, and the exception
      that ends the parsing, if any *)
  parseMessage : string -> list (string + Part) * option jsError;
  encryptMessage_model : World -> mailData -> encryptRequest -> engine Key string;
  encryptFile_model : World -> file -> bool -> encryptRequest -> engine Key string;
  signMessage_model : World -> string -> option string -> option string -> engine Key string;
  decryptMessage_model :
    World -> decryptRequest -> engine Key (string * option (list signature));
  verifyMessage_model :
    World -> string -> option string -> jsError + (string * option (list signature));
  (** [pwdControl.unlockKey] of the password dialog controller *)
  pwd_unlockKey : World -> pwdRequest Key -> pwdAnswer Key * World;
  extractFileExtension : string -> string;
  btoa : string -> string;
  byteCount : string -> Z
}.

Section Controller.
Context {C : Collaborators}.

(** The fields of an [EditorController]; [editorCont] tells whether
    [this.ports.editorCont] exists. *)
Record controller : Type := mkController {
  encryptPromise : option (promise encryptResult);
  keyringId : option string;
  popup : option Popup;
  pgpMIME : bool;
  options : editorOptions;
  integration : bool;
  keyFprBuffer : option (list string);
  signKeyFpr : option string;
  editorCont : bool
}.

Record state : Type := mkState {
  ctrl : controller;
  world : World
}.

(** Whom an event is emitted to: [this.emit], [this.ports.editor.emit]
    or [this.ports.editorCont.emit]. *)
Inductive port : Type :=
| Self
| Editor
| EditorCont.

Inductive payload : Type :=
| NoData
| ErrorData (error : jsError)
| GetPlaintext (action' : string) (draft : bool)
| Text (text : string)
| Attachment (part : Part)
| PwdDialog (id : string)
| EncryptedMessage (armored : string).

Inductive event : Type :=
| Emit (to : port) (name' : string) (p : payload)
| SyncPublicKeys (keyringId' : option string) (keyIds : list string)
| TriggerSync (keyringId' : option string) (k : Key) (password : string)
| EncryptMessage (data : mailData) (r : encryptRequest)
| EncryptFile (f : file) (armor : bool) (r : encryptRequest)
| SignMessage (data' : string) (keyringId' : option string) (signingKeyFpr' : option string)
| DecryptMessage (r : decryptRequest)
| VerifyMessage (armored : string) (keyringId' : option string)
| PopupClose (p : Popup)
| ConsoleLog (e : jsError).

Abbreviation Method := (M state event).

Definition upd (f : controller -> controller) : Method unit :=
  modify (fun s => mkState (f (ctrl s)) (world s)).

Definition set_world (w : World) : Method unit :=
  modify (fun s => mkState (ctrl s) w).

Definition set_encryptPromise v c := mkController v (keyringId c) (popup c) (pgpMIME c)
  (options c) (integration c) (keyFprBuffer c) (signKeyFpr c) (editorCont c).
Definition set_keyringId v c := mkController (encryptPromise c) v (popup c) (pgpMIME c)
  (options c) (integration c) (keyFprBuffer c) (signKeyFpr c) (editorCont c).
Definition set_popup v c := mkController (encryptPromise c) (keyringId c) v (pgpMIME c)
  (options c) (integration c) (keyFprBuffer c) (signKeyFpr c) (editorCont c).
Definition set_pgpMIME v c := mkController (encryptPromise c) (keyringId c) (popup c) v
  (options c) (integration c) (keyFprBuffer c) (signKeyFpr c) (editorCont c).
Definition set_options v c := mkController (encryptPromise c) (keyringId c) (popup c) (pgpMIME c)
  v (integration c) (keyFprBuffer c) (signKeyFpr c) (editorCont c).
Definition set_keyFprBuffer v c := mkController (encryptPromise c) (keyringId c) (popup c)
  (pgpMIME c) (options c) (integration c) v (signKeyFpr c) (editorCont c).
Definition set_signKeyFpr v c := mkController (encryptPromise c) (keyringId c) (popup c)
  (pgpMIME c) (options c) (integration c) (keyFprBuffer c) v (editorCont c).

Definition set_reason v o := Build_editorOptions (armoredDraft o) (quotedMailIndent o)
  (quotedMailHeader o) (predefinedText o) (keepAttachments o) v.

Definition has_popup (c : controller) : bool :=
  match popup c with Some _ => true | None => false end.

(** [this.ports.editorCont.emit(name, data)], where the port may be
    missing. *)
Definition editorCont_emit (name' : string) (p : payload) : Method unit :=
  s <- get ;;
  if editorCont (ctrl s) then log (Emit EditorCont name' p) else throw typeError.

Definition is_engine_encrypt (e : event) : bool :=
  match e with
  | EncryptMessage _ _ | EncryptFile _ _ _ => true
  | _ => false
  end.

Definition is_emit (name' : string) (e : event) : bool :=
  match e with
  | Emit _ n _ => n =? name'
  | _ => false
  end.

Definition onEditorClose (cancel : bool) : Method unit :=
  s <- get ;;
  match popup (ctrl s) with
  | Some p =>
      log (PopupClose p) ;;
      upd (set_popup None) ;;
      if cancel then
        match encryptPromise (ctrl s) with
        | None => throw typeError
        | Some pr =>
            upd (set_encryptPromise (Some
              (reject (MvError "Editor dialog canceled." (Some "EDITOR_DIALOG_CANCEL")) pr)))
        end
      else ret tt
  | None => ret tt
  end.

(** Modelled from the spec: [getKeyByAddress] of [modules/keyring] for a
    list of addresses, which is not part of the sources at hand; the
    object it returns has "exactly one entry per distinct requested
    address", in the order of the requests. *)
Definition getKeyByAddress (w : World) (keyringId' : option string)
    (emails : list string) : list (string * option (list PublicKey)) :=
  fold_left (fun o e => obj_set o e (keysByAddress w keyringId' e)) emails [].

(** Modelled from the spec: [mapAddressKeyMapToFpr] of [modules/key],
    which is not part of the sources at hand; an entry becomes the list
    of "usable key fingerprints" of its keys and stays [false] where
    the address has no key. *)
Definition mapAddressKeyMapToFpr (keyMap : list (string * option (list PublicKey)))
  : list (string * option (list string)) :=
  map (fun e => (fst e, option_map (map keyFingerprint) (snd e))) keyMap.

(** The loop of [lookupMissingKeys] over [Object.entries(keyMap)];
    [None] when an awaited [lookupKey] is still waiting for the user.
    The object [getKeyByAddress] returns for an address always has the
    entry that is read from it. *)
Fixpoint lookupMissingKeys_entries
    (entries keyMap : list (string * option (list PublicKey)))
  : Method (option (list (string * option (list PublicKey)))) :=
  match entries with
  | [] => ret (Some keyMap)
  | (email', keys) :: rest =>
      match keys with
      | None =>
          s <- get ;;
          match lookupKey (world s) (keyringId (ctrl s)) email' with
          | None => ret None
          | Some w =>
              set_world w ;;
              match obj_get (getKeyByAddress w (keyringId (ctrl s)) [email']) email' with
              | Some keys' => lookupMissingKeys_entries rest (obj_set keyMap email' keys')
              | None => lookupMissingKeys_entries rest keyMap
              end
          end
      | Some _ => lookupMissingKeys_entries rest keyMap
      end
  end.

Definition lookupMissingKeys (keyMap : list (string * option (list PublicKey)))
  : Method (option (list (string * option (list PublicKey)))) :=
  lookupMissingKeys_entries keyMap keyMap.

(** [Object.values(keyFprMap).some(keys => keys === false)] *)
Definition some_false (keyFprMap : list (string * option (list string))) : bool :=
  existsb (fun e => match snd e with None => true | Some _ => false end) keyFprMap.

(** The [forEach] of [onEditorContainerEncrypt] over [msg.recipients].
    Every recipient has an entry, and after the check none is [false]. *)
Definition concatFprs (keyFprMap : list (string * option (list string)))
    (recipients : list string) : list string :=
  fold_left
    (fun keyFprs recipient =>
       match obj_get keyFprMap recipient with
       | Some (Some fprs) => keyFprs ++ fprs
       | _ => keyFprs
       end)
    recipients [].

(** [onEditorContainerEncrypt]; the result is [false] when the handler
    is still waiting in [lookupMissingKeys]. *)
Definition onEditorContainerEncrypt (keyringId' : string) (recipients : list string)
  : Method bool :=
  upd (set_pgpMIME true) ;;
  upd (set_keyringId (Some keyringId')) ;;
  s <- get ;;
  let keyMap := getKeyByAddress (world s) (Some keyringId') recipients in
  looked <- lookupMissingKeys keyMap ;;
  match looked with
  | None => ret false
  | Some keyMap =>
      let keyFprMap := mapAddressKeyMapToFpr keyMap in
      if some_false keyFprMap then
        editorCont_emit "error-message"
          (ErrorData (mkError "No valid encryption key for recipient address"
                        (Some "NO_KEY_FOR_RECIPIENT"))) ;;
        ret true
      else
        let keyFprs := concatFprs keyFprMap recipients in
        upd (set_keyFprBuffer (Some (sortAndDeDup keyFprs))) ;;
        log (SyncPublicKeys (Some keyringId') (sortAndDeDup keyFprs)) ;;
        log (Emit Editor "get-plaintext" (GetPlaintext "encrypt" false)) ;;
        ret true
  end.

Definition onEditorContainerCreateDraft (keyringId' : string) : Method unit :=
  upd (set_pgpMIME true) ;;
  upd (set_keyringId (Some keyringId')) ;;
  upd (fun c => set_options (set_reason (Some "PWD_DIALOG_REASON_CREATE_DRAFT") (options c)) c) ;;
  s <- get ;;
  match keyring_getDefaultKeyFpr (world s) (Some keyringId') with
  | inl e => throw e
  | inr defaultKeyFpr =>
      if truthy defaultKeyFpr then
        upd (set_keyFprBuffer (Some (match defaultKeyFpr with Some d => [d] | None => [] end))) ;;
        log (Emit Editor "get-plaintext" (GetPlaintext "encrypt" true))
      else
        editorCont_emit "error-message"
          (ErrorData (mkError "No private key found for creating draft."
                        (Some "NO_KEY_FOR_ENCRYPTION")))
  end.

Definition onSignOnly (signKeyFpr' : option string) : Method unit :=
  upd (set_signKeyFpr signKeyFpr') ;;
  log (Emit Self "get-plaintext" (GetPlaintext "sign" false)).

(** [this.unlockKey]: [reason] and [sync] have defaults, the password
    dialog calls [beforePasswordRequest] before it asks the user. *)
Definition unlockKey (o : unlockOptions Key) : Method Key :=
  s <- get ;;
  let reason' := match ureason o with Some r => r | None => "PWD_DIALOG_REASON_DECRYPT" end in
  let sync := match usync o with Some b => b | None => true end in
  let openPopup := negb (has_popup (ctrl s)) in
  let (answer, w) :=
    pwd_unlockKey (world s)
      {| pkey := ukey o; preason := reason'; popenPopup := openPopup; pnoCache := unoCache o |} in
  set_world w ;;
  match asked answer with
  | Some id => when (has_popup (ctrl s)) (log (Emit Editor "show-pwd-dialog" (PwdDialog id)))
  | None => ret tt
  end ;;
  match unlocked answer with
  | inl e => throw e
  | inr (k, password) =>
      log (Emit Editor "encrypt-in-progress" NoData) ;;
      when sync (log (TriggerSync (keyringId (ctrl s)) k password)) ;;
      ret k
  end.

(** Running a call into [modules/pgpModel] with the callback it was
    given; calling a callback that is [undefined] is a type error. *)
Fixpoint run_engine {R} (callback : option (unlockOptions Key -> Method Key))
    (e : engine Key R) : Method R :=
  match e with
  | Done (inl err) => throw err
  | Done (inr r) => ret r
  | Unlock o k =>
      match callback with
      | None => run_engine callback (k (inl typeError))
      | Some f =>
          fun s =>
            match f o s with
            | mkOut s1 evs1 r1 =>
                match run_engine callback (k r1) s1 with
                | mkOut s2 evs2 r2 => mkOut s2 (evs1 ++ evs2) r2
                end
            end
      end
  end.

Definition is_some {A} (o : option A) : bool :=
  match o with Some _ => true | None => false end.

Definition encryptMessage (data' : mailData) (keyFprs : list string)
    (signKeyFpr' : option string)
    (unlockKey' : option (unlockOptions Key -> Method Key)) (noCache' : option bool)
  : Method string :=
  log (Emit Editor "encrypt-in-progress" NoData) ;;
  s <- get ;;
  let r := {| ekeyringId := keyringId (ctrl s);
              encryptionKeyFprs := keyFprs; signingKeyFpr := signKeyFpr';
              withUnlockKey := is_some unlockKey'; enoCache := noCache' |} in
  log (EncryptMessage data' r) ;;
  run_engine unlockKey' (encryptMessage_model (world s) data' r).

(** The body of the function [encryptFiles] maps over [files]. *)
Definition encryptFile (f : file) (keyFprs : list string) (signKeyFpr' : option string)
    (unlockKey' : option (unlockOptions Key -> Method Key)) (noCache' : option bool)
  : Method encFile :=
  let fileExt := extractFileExtension (fname f) in
  s <- get ;;
  let r := {| ekeyringId := keyringId (ctrl s);
              encryptionKeyFprs := keyFprs; signingKeyFpr := signKeyFpr';
              withUnlockKey := is_some unlockKey'; enoCache := noCache' |} in
  log (EncryptFile f (fileExt =? "txt") r) ;;
  encrypted' <- run_engine unlockKey'
                  (encryptFile_model (world s) f (fileExt =? "txt") r) ;;
  let base64encoded := btoa encrypted' in
  ret {| content := "data:application/octet-stream;base64," ++ base64encoded;
         size := byteCount base64encoded;
         ename := if fileExt =? "txt" then fname f ++ ".asc" else fname f ++ ".gpg" |}.

(** [Promise.all] over the files.  The operations are independent of each
    other; they are run here one after the other, each to its end, and
    the first error in the order of the files is the one reported. *)
Fixpoint all_files (ops : list (Method encFile)) : Method (list (jsError + encFile)) :=
  match ops with
  | [] => ret []
  | op :: rest =>
      r <- try_catch (x <- op ;; ret (inr x)) (fun e => ret (inl e)) ;;
      rs <- all_files rest ;;
      ret (r :: rs)
  end.

Fixpoint first_error {A} (rs : list (jsError + A)) : jsError + list A :=
  match rs with
  | [] => inr []
  | inl e :: _ => inl e
  | inr x :: rest =>
      match first_error rest with
      | inl e => inl e
      | inr xs => inr (x :: xs)
      end
  end.

Definition encryptFiles (files : list file) (keyFprs : list string)
    (signKeyFpr' : option string)
    (unlockKey' : option (unlockOptions Key -> Method Key)) (noCache' : option bool)
  : Method (list encFile) :=
  log (Emit Editor "encrypt-in-progress" NoData) ;;
  rs <- all_files (map (fun f => encryptFile f keyFprs signKeyFpr' unlockKey' noCache') files) ;;
  match first_error rs with
  | inl e => throw e
  | inr encFiles' => ret encFiles'
  end.

Definition signMessage (data' : string) (signKeyFpr' : option string) : Method string :=
  let unlockKey' := fun o : unlockOptions Key =>
    unlockKey {| ukey := ukey o; unoCache := unoCache o;
                 ureason := Some "PWD_DIALOG_REASON_SIGN"; usync := usync o |} in
  s <- get ;;
  log (SignMessage data' (keyringId (ctrl s)) signKeyFpr') ;;
  run_engine (Some unlockKey')
    (signMessage_model (world s) data' (keyringId (ctrl s)) signKeyFpr').

Definition transferEncrypted (e : encrypted) (subject' : string)
    (to cc : list keyData) : Method unit :=
  s <- get ;;
  if editorCont (ctrl s) then
    log (Emit EditorCont "encrypted-message" (EncryptedMessage (earmored e)))
  else
    let to' := map (fun k => (name k, email k)) to in
    let cc' := map (fun k => (name k, email k)) cc in
    match encryptPromise (ctrl s) with
    | None => throw typeError
    | Some pr =>
        upd (set_encryptPromise (Some
          (resolve {| rarmored := earmored e; rencFiles := encFiles e;
                      rsubject := subject'; rto := to'; rcc := cc' |} pr)))
    end.

(** [getPublicKeyFprs].  With a [keyFprBuffer] the variable [keyFprs] is
    that very array, so [push] adds the sender's fingerprint to the
    buffer as well. *)
Definition getPublicKeyFprs (keys : list keyData) : Method (list string) :=
  s <- get ;;
  pushed <-
    (if auto_add_primary (world s) then
       match keyring_getDefaultKeyFpr (world s) (keyringId (ctrl s)) with
       | inl e => throw e
       | inr defaultKeyFpr =>
           ret (match defaultKeyFpr with
                | Some d => if truthy defaultKeyFpr then [d] else []
                | None => []
                end)
       end
     else ret []) ;;
  match keyFprBuffer (ctrl s) with
  | Some buffer =>
      upd (set_keyFprBuffer (Some (buffer ++ pushed))) ;;
      ret (sortAndDeDup (buffer ++ pushed))
  | None =>
      ret (sortAndDeDup (map fingerprint keys ++ pushed))
  end.

(** The [unlockKey] callback [signAndEncrypt] builds when the message is
    to be signed. *)
Definition sign_unlockKey (noCache' : option bool) (o : unlockOptions Key) : Method Key :=
  s <- get ;;
  unlockKey {| ukey := ukey o; unoCache := noCache';
               ureason := Some (match reason (options (ctrl s)) with
                                | Some r => if r =? "" then "PWD_DIALOG_REASON_SIGN" else r
                                | None => "PWD_DIALOG_REASON_SIGN"
                                end);
               usync := Some (negb (password_cache (world s))) |}.

(** [signAndEncrypt] for the options of 'editor-plaintext', whose [keys]
    are [keysTo], [keysCc] and [keysEx]; [None] is the [undefined] an
    action that is neither 'encrypt' nor 'sign' ends in. *)
Definition signAndEncrypt (o : plaintext) : Method (option encrypted) :=
  if action o =? "encrypt" then
    let noCache' := noCache o in
    keyFprs <- getPublicKeyFprs (keysTo o ++ keysCc o ++ keysEx o) ;;
    signing <-
      (if signMsg o then
         s <- get ;;
         let signKeyFpr' :=
           if truthy (psignKeyFpr o) then psignKeyFpr o
           else getDefaultKeyFpr (world s) (keyringId (ctrl s)) in
         if negb (truthy signKeyFpr') then
           throw (MvError "No private key found to sign this message."
                    (Some "NO_DEFAULT_KEY_FOUND"))
         else ret (signKeyFpr', Some (sign_unlockKey noCache'))
       else ret (None, None)) ;;
    let (signKeyFpr', unlockKey') := signing in
    s <- get ;;
    let pgpMIME' := pgpMIME (ctrl s) in
    let split := integration (ctrl s) && negb pgpMIME' in
    let files := if split then attachments o else Some [] in
    let attachments' := if split then None else attachments o in
    data' <-
      match buildMail o pgpMIME' attachments' with
      | inr (Some mail) => ret (Mail mail)
      | inr None => ret Null
      | inl error =>
          when (editorCont (ctrl s))
            (log (Emit EditorCont "error-message" (ErrorData (mapError error)))) ;;
          ret Undefined
      end ;;
    match data' with
    | Null => throw (MvError "MIME building failed." None)
    | _ =>
        armored <- encryptMessage data' keyFprs signKeyFpr' unlockKey' noCache' ;;
        s <- get ;;
        if pgpMIME (ctrl s) then
          ret (Some {| earmored := armored; encFiles := Some [] |})
        else
          match files with
          | None => throw typeError
          | Some [] => ret (Some {| earmored := armored; encFiles := Some [] |})
          | Some files' =>
              encFiles' <- encryptFiles files' keyFprs signKeyFpr' unlockKey' noCache' ;;
              ret (Some {| earmored := armored; encFiles := Some encFiles' |})
          end
    end
  else if action o =? "sign" then
    s <- get ;;
    armored <- signMessage (pmessage o) (signKeyFpr (ctrl s)) ;;
    ret (Some {| earmored := armored; encFiles := None |})
  else ret None.

Definition onEditorPlaintext (o : plaintext) : Method unit :=
  try_catch
    (r <- signAndEncrypt o ;;
     match r with
     | None => throw typeError
     | Some e =>
         log (Emit Editor "encrypt-end" NoData) ;;
         s <- get ;;
         when (negb (integration (ctrl s))) (onEditorClose false) ;;
         transferEncrypted e (subject o) (keysTo o) (keysCc o)
     end)
    (fun err =>
       s <- get ;;
       if has_popup (ctrl s) && match code err with
                                | Some c => c =? "PWD_DIALOG_CANCEL"
                                | None => false
                                end
       then log (Emit Self "hide-pwd-dialog" NoData)
       else
         log (ConsoleLog err) ;;
         let error := mapError err in
         log (Emit Editor "error-message" (ErrorData error)) ;;
         when (editorCont (ctrl s))
           (log (Emit EditorCont "error-message" (ErrorData error))) ;;
         log (Emit Editor "encrypt-failed" NoData)).

(** The handlers [decryptArmored] gives to [parseMessage]. *)
Definition onMessage (o : editorOptions) (msg : string) : string :=
  let header := truthy (quotedMailHeader o) in
  let msg := if quotedMailIndent o then indent true msg else msg in
  let msg := match quotedMailHeader o with
             | Some h => if header then (h ++ LF ++ msg)%string else msg
             | None => msg
             end in
  let msg := if quotedMailIndent o || header then (LF ++ LF ++ msg)%string else msg in
  match predefinedText o with
  | Some t => if truthy (predefinedText o) then (msg ++ LF ++ LF ++ t)%string else msg
  | None => msg
  end.

Definition handlers (o : editorOptions) (part : string + Part) : Method unit :=
  match part with
  | inl msg => log (Emit Editor "set-text" (Text (onMessage o msg)))
  | inr p => when (keepAttachments o) (log (Emit Editor "set-attachment" (Attachment p)))
  end.

Fixpoint call_handlers (o : editorOptions) (parts : list (string + Part)) : Method unit :=
  match parts with
  | [] => ret tt
  | p :: rest => handlers o p ;; call_handlers o rest
  end.

(** The [unlockKey] callback of [decryptArmored]. *)
Definition decrypt_unlockKey (o : unlockOptions Key) : Method Key :=
  result <- unlockKey o ;;
  s <- get ;;
  when (has_popup (ctrl s)) (log (Emit Editor "hide-pwd-dialog" NoData)) ;;
  ret result.

(** [signatures && signatures.length === 1 && signatures[0].valid] *)
Definition one_valid_signature (signatures : option (list signature)) : bool :=
  match signatures with
  | Some [sg] => sig_valid sg
  | _ => false
  end.

(** The three ways [decryptArmored] gets at [data] and [signatures]: a
    PGP message is decrypted, a signed message verified, anything else
    is clear text without signatures. *)
Definition decrypt_content (armored : string)
  : Method (string * option (list signature)) :=
  s <- get ;;
  if test "BEGIN PGP MESSAGE" armored then
    let r := {| darmored := normalizeArmored armored;
                dkeyringId := keyringId (ctrl s);
                selfSigned := truthy (armoredDraft (options (ctrl s))) |} in
    log (DecryptMessage r) ;;
    run_engine (Some decrypt_unlockKey) (decryptMessage_model (world s) r)
  else if test "BEGIN PGP SIGNED MESSAGE" armored then
    log (VerifyMessage armored (keyringId (ctrl s))) ;;
    match verifyMessage_model (world s) armored (keyringId (ctrl s)) with
    | inl e => throw e
    | inr (data', signatures) =>
        match decodeUtf8 data' with
        | inl e => throw e
        | inr data'' => ret (data'', signatures)
        end
    end
  else ret (sanitizeHTML armored, Some []).

Definition decryptArmored (armored : string) : Method unit :=
  try_catch
    (decrypted <- decrypt_content armored ;;
     let (data', signatures) := decrypted in
     s <- get ;;
     let options' := options (ctrl s) in
     (if truthy (armoredDraft options') && negb (one_valid_signature signatures) then
        throw (mkError "Restoring of the draft failed due to invalid signature." None)
      else ret tt) ;;
     call_handlers options' (fst (parseMessage data')) ;;
     match snd (parseMessage data') with
     | Some e => throw e
     | None => log (Emit Editor "decrypt-end" NoData)
     end)
    (fun error => log (Emit Editor "decrypt-failed" (ErrorData (mapError error)))).

(** The controller [onEditorContainerEncrypt] looks the missing keys up
    with: the one it is called on, after its first two assignments. *)
Definition container_request (keyringId' : string) (s : state) : state :=
  mkState (set_keyringId (Some keyringId') (set_pgpMIME true (ctrl s))) (world s).

(** The error [onEditorContainerEncrypt] reports for a recipient without
    key. *)
Definition NO_KEY_FOR_RECIPIENT : jsError :=
  mkError "No valid encryption key for recipient address" (Some "NO_KEY_FOR_RECIPIENT").

(** The number of valid signatures among the ones a decryption yields. *)
Definition count_valid (signatures : option (list signature)) : nat :=
  match signatures with
  | Some l => length (filter sig_valid l)
  | None => 0
  end.

(** The fingerprints [getPublicKeyFprs] starts from: the buffer when
    there is one, the fingerprints of the keys of the message
    otherwise. *)
Definition recipient_fprs (s : state) (keys : list keyData) : list string :=
  match keyFprBuffer (ctrl s) with
  | Some buffer => buffer
  | None => map fingerprint keys
  end.

(** The reading of the cancellation rule under which a dismissed
    password dialog is never shown as an error: whenever [signAndEncrypt]
    fails with the code PWD_DIALOG_CANCEL, [onEditorPlaintext] emits no
    'error-message'. *)
Definition cancel_is_silent (o : plaintext) (s : state) : Prop :=
  forall e,
    res (signAndEncrypt o s) = inl e ->
    code e = Some "PWD_DIALOG_CANCEL" ->
    existsb (is_emit "error-message") (evs (onEditorPlaintext o s)) = false.

(** A method is [quiet] for a class [P] of events when it leaves the
    fields of the controller alone and emits events of that class only. *)
Definition quiet {A} (P : event -> bool) (m : M state event A) : Prop :=
  forall s, ctrl (st (m s)) = ctrl s /\ forallb P (evs (m s)) = true.

(** A method [keeps] the windows when the popup and the container of
    the controller are the same after it. *)
Definition keeps {A} (m : M state event A) : Prop :=
  forall s,
    popup (ctrl (st (m s))) = popup (ctrl s)
    /\ editorCont (ctrl (st (m s))) = editorCont (ctrl s).

(** The events of a password request. *)
Definition unlock_event (e : event) : bool :=
  match e with
  | Emit Editor n _ =>
      (n =? "show-pwd-dialog") || (n =? "encrypt-in-progress") || (n =? "hide-pwd-dialog")
  | TriggerSync _ _ _ => true
  | _ => false
  end.

(** Neither the text nor the end of a decryption is announced. *)
Definition not_shown (e : event) : bool :=
  negb (is_emit "set-text" e) && negb (is_emit "decrypt-end" e).

(** The callbacks [signAndEncrypt] passes on: none, or the one that
    asks for the signing key. *)
Definition signing_callback (noCache' : option bool)
    (callback : option (unlockOptions Key -> M state event Key)) : Prop :=
  callback = None \/ callback = Some (sign_unlockKey noCache').
(** A method [preserves] a relation [I] between the state before and the
    state after, and emits events of the class [P] only. *)
Definition preserves {A} (I : state -> state -> Prop) (P : event -> bool)
    (m : M state event A) : Prop :=
  forall s, I s (st (m s)) /\ forallb P (evs (m s)) = true.

(** The fields of the controller are the same, but for the buffer of
    fingerprints. *)
Definition same_but_buffer (s s' : state) : Prop :=
  ctrl s' = set_keyFprBuffer (keyFprBuffer (ctrl s')) (ctrl s).

(** The world is the same. *)
Definition same_world (s s' : state) : Prop := world s' = world s.

(** What shows that the password dialog was involved: the request to
    show it in the editor, and the synchronisation of an unlocked key. *)
Definition is_password_event (e : event) : bool :=
  match e with
  | Emit _ n _ => n =? "show-pwd-dialog"
  | TriggerSync _ _ _ => true
  | _ => false
  end.

(** The two events a decryption ends with. *)
Definition is_terminal (e : event) : bool :=
  is_emit "decrypt-end" e || is_emit "decrypt-failed" e.


(** The events the handlers of [decryptArmored] emit for the parts of a
    message. *)
Definition shown_parts (o : editorOptions) (parts : list (string + Part)) : list event :=
  flat_map
    (fun part =>
       match part with
       | inl msg => [Emit Editor "set-text" (Text (onMessage o msg))]
       | inr p => if keepAttachments o then [Emit Editor "set-attachment" (Attachment p)]
                  else []
       end)
    parts.

(** [n] calls of [getPublicKeyFprs] in a row. *)
Fixpoint getPublicKeyFprs_times (n : nat) (keys : list keyData) : Method unit :=
  match n with
  | O => ret tt
  | S n' => getPublicKeyFprs keys ;; getPublicKeyFprs_times n' keys
  end.

(** The key [signAndEncrypt] signs with: the one of the options, or the
    default key of the keyring. *)
Definition signing_key (o : plaintext) (s : state) : option string :=
  if truthy (psignKeyFpr o) then psignKeyFpr o
  else getDefaultKeyFpr (world s) (keyringId (ctrl s)).

(** The error [onEditorClose] rejects with. *)
Definition EDITOR_DIALOG_CANCEL : jsError :=
  MvError "Editor dialog canceled." (Some "EDITOR_DIALOG_CANCEL").

(** A request to the engine that has no signing key and no callback to
    unlock one. *)
Definition unsigned_request (e : event) : bool :=
  match e with
  | EncryptMessage _ r | EncryptFile _ _ r =>
      negb (is_some (signingKeyFpr r)) && negb (withUnlockKey r)
  | _ => true
  end.

Definition is_encrypt_file (e : event) : bool :=
  match e with
  | EncryptFile _ _ _ => true
  | _ => false
  end.

Definition is_popup_close (e : event) : bool :=
  match e with
  | PopupClose _ => true
  | _ => false
  end.

(** The events of [signAndEncrypt]: the calls of the engine, the events
    of a password request, and the error of the mime builder that goes to
    the container. *)
Definition engine_event (e : event) : bool :=
  match e with
  | EncryptMessage _ _ | EncryptFile _ _ _ | SignMessage _ _ _ => true
  | Emit EditorCont n (ErrorData _) => n =? "error-message"
  | _ => unlock_event e
  end.

(** The events of an encryption without signature: none of a password
    request, and requests to the engine without signing key only. *)
Definition unsigned_event (e : event) : bool :=
  negb (is_password_event e) && unsigned_request e.

(** A result of [signAndEncrypt] for which no file was encrypted: the
    engine was not called for a file, and the list of encrypted files is
    empty. *)
Definition no_file_result (r : out state event (option encrypted)) : Prop :=
  existsb is_encrypt_file (evs r) = false
  /\ forall e, res r = inr (Some e) -> encFiles e = Some [].

End Controller.

(** Unfolding the steps of the monad. *)
Ltac unfold_monad :=
  unfold upd, set_world, editorCont_emit, when, bind, try_catch, get, modify, log,
    ret, throw.

End EditorController.


(** * The attachments the editor is opened with ([setAttachments]) *)

Module EditorAttachments.

(** An attachment of the options: its name, its content as a data URL
    and its type. *)
Record attachment : Type := {
  filename : string;
  data : string;
  mimeType : string
}.

(** What [setAttachments] does to the outside: 'set-attachment' for the
    editor, with the decoded content added to the attachment,
    'decrypt-in-progress' for the editor, and the call of
    [decryptFiles]. *)
Inductive event : Type :=
| SetAttachment (content : string) (a : attachment)
| DecryptInProgress
| DecryptFiles (encFiles : list attachment).

(** [/.*\.(gpg|pgp|asc)/.test(filename)]: the expression is not anchored,
    it finds the extension anywhere in the name. *)
Definition encrypted_extension (filename' : string) : bool :=
  test ".gpg" filename' || test ".pgp" filename' || test ".asc" filename'.

Section SetAttachments.
(** [dataURL2str] of [lib/util] *)
Variable dataURL2str : string -> string.

(** The test of the loop: an encrypted file by its name that is no
    public key. *)
Definition is_encrypted (a : attachment) : bool :=
  encrypted_extension (filename a)
  && negb (test "-----BEGIN PGP PUBLIC KEY BLOCK" (dataURL2str (data a))).

(** The loop over the attachments, with the array [encrypted] it fills. *)
Fixpoint setAttachments_loop (attachments : list attachment) (encrypted : list attachment)
  : list event * list attachment :=
  match attachments with
  | [] => ([], encrypted)
  | a :: rest =>
      let content := dataURL2str (data a) in
      if is_encrypted a then setAttachments_loop rest (encrypted ++ [a])
      else
        let (emitted, encrypted') := setAttachments_loop rest encrypted in
        (SetAttachment content a :: emitted, encrypted')
  end.

Definition setAttachments (attachments : list attachment) : list event :=
  let (emitted, encrypted) := setAttachments_loop attachments [] in
  emitted ++
  (if (length encrypted =? 0)%nat then []
   else [DecryptInProgress; DecryptFiles encrypted]).

(** The attachments that are shown as they are. *)
Definition shown (evs : list event) : list attachment :=
  flat_map (fun e => match e with SetAttachment _ a => [a] | _ => [] end) evs.

(** The attachments that are handed to [decryptFiles]. *)
Definition to_decrypt (evs : list event) : list attachment :=
  flat_map (fun e => match e with DecryptFiles l => l | _ => [] end) evs.

End SetAttachments.

End EditorAttachments.


(** * Lines of a quoted mail *)

(** One of the four line terminators. *)
Definition is_terminator (t : string) : bool :=
  (t =? LF) || (t =? CR) || (t =? LS) || (t =? PS).

(** A line has no line terminator in it. *)
Fixpoint is_line (l : string) : bool :=
  match l with
  | EmptyString => true
  | String c l' =>
      negb (Ascii.eqb c (ascii_of_nat 10)) && negb (Ascii.eqb c (ascii_of_nat 13))
      && negb (separator_here l) && is_line l'
  end.

(** A text from its lines, each with the terminator that ends it, and
    from what follows the last terminator. *)
Fixpoint text_of (lines : list (string * string)) (last : string) : string :=
  match lines with
  | [] => last
  | (l, t) :: rest => (l ++ t ++ text_of rest last)%string
  end.

(** A line quoted: the prefix is put before it, but for an empty line
    that is not ended by a line feed. *)
Definition quote_line (p : string * string) : string * string :=
  let (l, t) := p in
  (if (l =? "") && negb (t =? LF) then EmptyString else ("> " ++ l)%string, t).

(** What follows the last terminator, quoted: nothing when it is empty. *)
Definition quote_last (last : string) : string :=
  if last =? "" then EmptyString else ("> " ++ last)%string.

(** * A small keyring to run the controllers on *)

Module Scenario.
Import ImportController.

(** A key of the scenario: what the collaborators report about it. *)
Record toyKey : Type := {
  text : string;
  fpr : string;
  status : keyStatus;
  modified : Z;
  secret : bool;
  importable : bool
}.

Definition alice : toyKey :=
  {| text := "alice"; fpr := "A1"; status := valid; modified := 100;
     secret := false; importable := true |}.

(** Alice's key with one more certification. *)
Definition alice_certified : toyKey :=
  {| text := "alice-certified"; fpr := "A1"; status := valid; modified := 200;
     secret := false; importable := true |}.

(** Alice's key with a revocation signature. *)
Definition alice_revoked : toyKey :=
  {| text := "alice-revoked"; fpr := "A1"; status := revoked; modified := 300;
     secret := false; importable := true |}.

(** Alice's key after its expiry, in a form the keyring cannot store. *)
Definition alice_expired : toyKey :=
  {| text := "alice-expired"; fpr := "A1"; status := expired; modified := 400;
     secret := false; importable := false |}.

(** Alice's key with one more certification, in a form the keyring
    cannot store. *)
Definition alice_damaged : toyKey :=
  {| text := "alice-damaged"; fpr := "A1"; status := valid; modified := 250;
     secret := false; importable := false |}.

Definition bob : toyKey :=
  {| text := "bob"; fpr := "B0"; status := valid; modified := 50;
     secret := false; importable := true |}.

(** A key the keyring refuses to import. *)
Definition carol : toyKey :=
  {| text := "carol"; fpr := "C7"; status := valid; modified := 70;
     secret := false; importable := false |}.

(** A private key. *)
Definition dave_private : toyKey :=
  {| text := "dave-private"; fpr := "D4"; status := valid; modified := 40;
     secret := true; importable := true |}.

Definition known : list toyKey :=
  [alice; alice_certified; alice_revoked; alice_expired; alice_damaged; bob; carol;
   dave_private].

Definition parse (armored : string) : list toyKey :=
  filter (fun k => text k =? armored) known.

Definition with_fpr (f : string) (w : list toyKey) : list toyKey :=
  filter (fun k => fpr k =? f) w.

Definition toy_import (w : list toyKey) (armored : string) : importResult * list toyKey :=
  match parse armored with
  | k :: _ =>
      if importable k then
        ({| rtype := "success"; rmessage := "Key imported" |},
         k :: filter (fun k' => negb (fpr k' =? fpr k)) w)
      else ({| rtype := "error"; rmessage := "Key could not be stored" |}, w)
  | [] => ({| rtype := "error"; rmessage := "No key" |}, w)
  end.

#[export] Instance import_collaborators : ImportController.Collaborators := {|
  ImportController.Key := toyKey;
  ImportController.Keyring := unit;
  ImportController.Popup := nat;
  ImportController.KeyInfo := unit;
  ImportController.World := list toyKey;
  getKeyringById := fun _ i =>
    if i =? "main" then inr tt
    else inl (mkError "No keyring found for this identifier." (Some "NO_KEYRING_FOR_ID"));
  readArmored_keys := parse;
  readArmored_err := fun a =>
    match parse a with
    | [] => Some [Error "Misformed armored text"]
    | _ => None
    end;
  sanitizeKey := fun k => k;
  verifyPrimaryKey := status;
  armor := text;
  mapKeys := map (fun k => (if secret k then "private" else "public", tt));
  users := fun _ => [];
  userVerify := fun _ _ => valid;
  parseUserId := fun u => u;
  getFingerprint := fpr;
  getKeysForId := fun w _ f =>
    match with_fpr f w with
    | [] => None
    | l => Some l
    end;
  cloneKey := fun k => k;
  update := fun _ new => new;
  getLastModifiedDate := modified;
  importKeys := fun w _ a => toy_import w a;
  keyRegistry_lookup := fun _ email _ =>
    if email =? "bob@example.com" then Some "bob" else None
|}.

(** A new controller and a keyring that holds Alice's key. *)
Definition idle : ImportController.state :=
  @ImportController.mkState import_collaborators (new "c1") [alice].

(** A controller that has gone through the first lines of [importKey]
    for the armored text [a], in a keyring that holds Alice's key. *)
Definition importing (a : string) : ImportController.state :=
  ImportController.mkState
    (set_armored a (set_keyring (Some tt) (set_keyringId "main" (new "c1"))))
    [alice].

(** The controller after [importKey] for Carol's key, which the keyring
    does not know yet, once the window of the dialog exists. *)
Definition confirming_carol : state :=
  st ((importKey "main" "carol" None ;; popupOpened 7) idle).

(** The controller that waits for the user to confirm Bob's key, which
    the keyring does not know yet. *)
Definition confirming_bob : state :=
  st ((importKey "main" "bob" None ;; popupOpened 7) idle).

(** The controller once the user has confirmed the import of Bob's key. *)
Definition imported_bob : state :=
  st ((importKey "main" "bob" None ;; popupOpened 7 ;; onImportOk) idle).

(** Collaborators that differ in two respects: every key carries a
    photo before its two user IDs, and the primary key of Carol's key
    does not verify. *)
Definition collaborators_with_photo : ImportController.Collaborators := {|
  ImportController.Key := toyKey;
  ImportController.Keyring := unit;
  ImportController.Popup := nat;
  ImportController.KeyInfo := unit;
  ImportController.World := list toyKey;
  getKeyringById := @getKeyringById import_collaborators;
  readArmored_keys := parse;
  readArmored_err := @readArmored_err import_collaborators;
  sanitizeKey := fun k => k;
  verifyPrimaryKey := fun k => if fpr k =? "C7" then invalid else status k;
  armor := text;
  mapKeys := @mapKeys import_collaborators;
  users := fun _ =>
    [None;
     Some {| userid := "Alice <alice@example.com>"; uname := "Alice";
             uemail := "alice@example.com" |};
     Some {| userid := "Alice <alice@work.example>"; uname := "Alice";
             uemail := "alice@work.example" |}];
  userVerify := fun _ _ => valid;
  parseUserId := fun u => u;
  getFingerprint := fpr;
  getKeysForId := @getKeysForId import_collaborators;
  cloneKey := fun k => k;
  update := fun _ new => new;
  getLastModifiedDate := modified;
  importKeys := fun w _ a => toy_import w a;
  keyRegistry_lookup := @keyRegistry_lookup import_collaborators
|}.

End Scenario.

(** * A small address book to run the editor on *)

Module EditorScenario.
Import EditorController.

(** The world of the scenario: the fingerprints the keyring has for an
    address, the ones the key registry would find, the preferences, the
    default key of the keyring, and whether the user dismisses the
    password dialog. *)
Record toyWorld : Type := {
  book : list (string * list string);
  registry : list (string * string);
  add_primary : bool;
  cache : bool;
  default_fpr : option string;
  dismisses : bool
}.

Definition with_book (b : list (string * list string)) (w : toyWorld) : toyWorld :=
  {| book := b; registry := registry w; add_primary := add_primary w;
     cache := cache w; default_fpr := default_fpr w; dismisses := dismisses w |}.

Definition toy_keys (w : toyWorld) (address : string) : option (list string) :=
  match obj_get (book w) address with
  | Some (f :: l) => Some (f :: l)
  | _ => None
  end.

(** A found key is imported without further questions. *)
Definition toy_lookup (w : toyWorld) (address : string) : option toyWorld :=
  match obj_get (registry w) address with
  | Some f => Some (with_book (obj_set (book w) address [f]) w)
  | None => Some w
  end.

Definition toy_buildMail (o : plaintext) : jsError + option string :=
  if pmessage o =? "" then inr None
  else if pmessage o =? "too large" then
    inl (mkError "Mail content exceeds quota limit." (Some "ENCRYPT_QUOTA_SIZE"))
  else inr (Some ("Content-Type: text/plain " ++ pmessage o)%string).

Definition toy_mapError (e : jsError) : jsError :=
  mkError (message e)
    (Some (match code e with Some c => c | None => "INTERNAL_ERROR" end)).

(** The engine asks for the signing key when there is one to unlock. *)
Definition toy_encrypt (d : mailData) (r : encryptRequest) : engine string string :=
  let armored := match d with
                 | Mail m => ("-----BEGIN PGP MESSAGE----- " ++ m)%string
                 | Null => "-----BEGIN PGP MESSAGE----- null"
                 | Undefined => "-----BEGIN PGP MESSAGE----- undefined"
                 end in
  match signingKeyFpr r with
  | Some f =>
      Unlock {| ukey := f; unoCache := None; ureason := None; usync := None |}
        (fun unlocked' =>
           match unlocked' with
           | inl e => Done (inl e)
           | inr _ => Done (inr armored)
           end)
  | None => Done (inr armored)
  end.

(** A draft decrypts to its text; it carries a valid signature when it
    says so. *)
Definition toy_decrypt (r : decryptRequest)
  : engine string (string * option (list signature)) :=
  Done (inr (darmored r,
             Some (if test "signed by me" (darmored r)
                   then [{| sig_valid := true |}] else []))).

Definition toy_pwd (w : toyWorld) (r : pwdRequest string)
  : pwdAnswer string * toyWorld :=
  if dismisses w then
    ({| asked := Some "pwd1";
        unlocked := inl (mkError "Password dialog canceled." (Some "PWD_DIALOG_CANCEL")) |},
     w)
  else ({| asked := None; unlocked := inr (pkey r, "passphrase") |}, w).

#[export] Instance editor_collaborators : EditorController.Collaborators := {|
  EditorController.Key := string;
  EditorController.PublicKey := string;
  EditorController.Popup := nat;
  EditorController.Part := string;
  EditorController.World := toyWorld;
  auto_add_primary := add_primary;
  password_cache := cache;
  keyring_getDefaultKeyFpr := fun w _ => inr (default_fpr w);
  getDefaultKeyFpr := fun w _ => default_fpr w;
  keysByAddress := fun w _ a => toy_keys w a;
  keyFingerprint := fun f => f;
  lookupKey := fun w _ a => toy_lookup w a;
  buildMail := fun o _ _ => toy_buildMail o;
  mapError := toy_mapError;
  normalizeArmored := fun a => a;
  sanitizeHTML := fun a => a;
  decodeUtf8 := fun d => inr d;
  parseMessage := fun d => ([inl d], None);
  encryptMessage_model := fun _ d r => toy_encrypt d r;
  encryptFile_model := fun _ f _ r => toy_encrypt (Mail (fcontent f)) r;
  signMessage_model := fun _ d _ _ =>
    Done (inr ("-----BEGIN PGP SIGNED MESSAGE----- " ++ d)%string);
  decryptMessage_model := fun _ r => toy_decrypt r;
  verifyMessage_model := fun _ a _ => inr (a, Some []);
  pwd_unlockKey := toy_pwd;
  extractFileExtension := fun n => if test ".txt" n then "txt" else "";
  btoa := fun x => x;
  byteCount := fun x => Z.of_nat (String.length x)
|}.

(** The keyring knows a key of a@x.com only; nobody else is found. *)
Definition office : toyWorld :=
  {| book := [("a@x.com", ["AAAA"])]; registry := []; add_primary := true;
     cache := true; default_fpr := Some "FFFF"; dismisses := false |}.

(** The same, with a user who dismisses the password dialog. *)
Definition office_dismissing : toyWorld :=
  {| book := [("a@x.com", ["AAAA"])]; registry := []; add_primary := true;
     cache := true; default_fpr := Some "FFFF"; dismisses := true |}.

Definition no_options : editorOptions :=
  {| armoredDraft := None; quotedMailIndent := false; quotedMailHeader := None;
     predefinedText := None; keepAttachments := false; reason := None |}.

(** An editor embedded in a page: it has a container and no popup. *)
Definition embedded (w : toyWorld) : EditorController.state :=
  @EditorController.mkState editor_collaborators
    {| encryptPromise := None; keyringId := Some "main"; popup := None;
       pgpMIME := true; options := no_options; integration := false;
       keyFprBuffer := Some ["AAAA"]; signKeyFpr := None; editorCont := true |}
    w.

(** An editor in its own popup window, opened by [encrypt]. *)
Definition in_popup (w : toyWorld) : EditorController.state :=
  @EditorController.mkState editor_collaborators
    {| encryptPromise := Some Pending; keyringId := Some "main"; popup := Some 5;
       pgpMIME := false; options := no_options; integration := false;
       keyFprBuffer := None; signKeyFpr := None; editorCont := false |}
    w.

(** An editor that restores a draft. *)
Definition restoring (draft : string) : EditorController.state :=
  @EditorController.mkState editor_collaborators
    {| encryptPromise := None; keyringId := Some "main"; popup := None;
       pgpMIME := true;
       options := {| armoredDraft := Some draft; quotedMailIndent := false;
                     quotedMailHeader := None; predefinedText := None;
                     keepAttachments := true; reason := None |};
       integration := false; keyFprBuffer := None; signKeyFpr := None;
       editorCont := true |}
    office.

(** A signed message to a@x.com. *)
Definition letter (body : string) : plaintext :=
  {| action := "encrypt"; pmessage := body;
     keysTo := [{| fingerprint := "AAAA"; name := "A"; email := "a@x.com" |}];
     keysCc := []; keysEx := []; attachments := None; signMsg := true;
     psignKeyFpr := None; noCache := None; subject := "Hello" |}.

(** The keyring without a default key; the sender's key is not added. *)
Definition no_default_key : toyWorld :=
  {| book := [("a@x.com", ["AAAA"])]; registry := []; add_primary := false;
     cache := true; default_fpr := None; dismisses := false |}.

(** The key registry has a key of b@x.com. *)
Definition office_with_registry : toyWorld :=
  {| book := [("a@x.com", ["AAAA"])]; registry := [("b@x.com", "BBBB")];
     add_primary := true; cache := true; default_fpr := Some "FFFF";
     dismisses := false |}.

(** An unsigned message to a@x.com. *)
Definition note (body : string) : plaintext :=
  {| action := "encrypt"; pmessage := body;
     keysTo := [{| fingerprint := "AAAA"; name := "A"; email := "a@x.com" |}];
     keysCc := []; keysEx := []; attachments := None; signMsg := false;
     psignKeyFpr := None; noCache := None; subject := "Hello" |}.

(** A text to be signed only. *)
Definition statement (body : string) : plaintext :=
  {| action := "sign"; pmessage := body; keysTo := []; keysCc := []; keysEx := [];
     attachments := None; signMsg := false; psignKeyFpr := None; noCache := None;
     subject := "" |}.

(** A request with an action the controller does not know. *)
Definition unknown_request : plaintext :=
  {| action := "decrypt"; pmessage := "hi"; keysTo := []; keysCc := []; keysEx := [];
     attachments := None; signMsg := false; psignKeyFpr := None; noCache := None;
     subject := "" |}.


(** An editor that quotes a mail. *)
Definition quoting : EditorController.state :=
  @EditorController.mkState editor_collaborators
    {| encryptPromise := None; keyringId := Some "main"; popup := None;
       pgpMIME := true;
       options := {| armoredDraft := None; quotedMailIndent := true;
                     quotedMailHeader := Some "A wrote:"; predefinedText := None;
                     keepAttachments := false; reason := None |};
       integration := false; keyFprBuffer := None; signKeyFpr := None;
       editorCont := true |}
    office.

End EditorScenario.

(** * Properties of the import controller *)

Module ImportProperties.
Import ImportController.

Lemma keyStatus_eqb_spec a b : reflect (a = b) (keyStatus_eqb a b).
Proof. destruct a, b; constructor; congruence. Qed.

Lemma keyStatus_eqb_refl a : keyStatus_eqb a a = true.
Proof. now destruct a. Qed.

Section Reconciliation.
Context {C : Collaborators}.

Variable s : state.
Variable fingerprint : string.
Variables stockKey newKey : Key.

(** [updateKey] when the validity of the primary key changes. *)
Lemma updateKey_confirm :
  validity_before stockKey <> validity_after stockKey newKey ->
  let o := updateKey fingerprint stockKey newKey s in
  res o = inr AwaitPopup
  /\ evs o = [WindowsOpenPopup
                ("components/import-key/importKey.html?id=" ++ id (ctrl s)) 910 554]
  /\ world (st o) = world s
  /\ popupPromise (ctrl (st o)) = Some Pending
  /\ importPopup (ctrl (st o)) = importPopup (ctrl s)
  /\ importError (ctrl (st o)) = importError (ctrl s)
  /\ invalidated (ctrl (st o)) =
       (if keyStatus_eqb (validity_after stockKey newKey) valid
        then invalidated (ctrl s) else true).
Proof.
  unfold validity_before, validity_after, merged. intros Hne.
  unfold updateKey.
  destruct (keyStatus_eqb_spec (verifyPrimaryKey stockKey)
              (verifyPrimaryKey (update (cloneKey stockKey) newKey))) as [E | _];
    [contradiction |].
  destruct (keyStatus_eqb (verifyPrimaryKey (update (cloneKey stockKey) newKey)) valid);
    cbn; repeat split; reflexivity.
Qed.

(** [updateKey] when neither the validity nor the date changes. *)
Lemma updateKey_untouched :
  validity_before stockKey = validity_after stockKey newKey ->
  modified_before stockKey = modified_after stockKey newKey ->
  let o := updateKey fingerprint stockKey newKey s in
  res o = inr (Value "UPDATED") /\ evs o = [] /\ st o = s.
Proof.
  unfold validity_before, validity_after, modified_before, modified_after, merged.
  intros Hv Hm. unfold updateKey.
  rewrite <- Hv, keyStatus_eqb_refl, <- Hm, Z.eqb_refl. cbn.
  destruct s as [c w]. repeat split; reflexivity.
Qed.

(** [updateKey] when only the date changes. *)
Lemma updateKey_silent (kr : Keyring) :
  keyring (ctrl s) = Some kr ->
  validity_before stockKey = validity_after stockKey newKey ->
  modified_before stockKey <> modified_after stockKey newKey ->
  let o := updateKey fingerprint stockKey newKey s in
  let imported := importKeys (world s) kr (armored (ctrl s)) in
  evs o = [ImportKeys kr (armored (ctrl s))]
  /\ world (st o) = snd imported
  /\ ctrl (st o) = ctrl s
  /\ res o = (if rtype (fst imported) =? "error"
              then inl (Error (rmessage (fst imported)))
              else inr (Value "UPDATED")).
Proof.
  unfold validity_before, validity_after, modified_before, modified_after, merged.
  intros Hk Hv Hm. unfold updateKey.
  rewrite <- Hv, keyStatus_eqb_refl.
  destruct (Z.eqb_spec (getLastModifiedDate stockKey)
              (getLastModifiedDate (update (cloneKey stockKey) newKey))) as [E | _];
    [contradiction |].
  unfold_methods. cbn. rewrite Hk. cbn.
  destruct (importKeys (world s) kr (armored (ctrl s))) as [r w] eqn:Ei. cbn.
  destruct (rtype r =? "error"); cbn; repeat split; reflexivity.
Qed.

(** C1.  [updateKey] asks for a confirmation if and only if the status
    of the primary key before the merge differs from the status after
    it: it then opens the popup and waits on a pending promise, and the
    keyrings are the ones from before.  It commits without asking if
    and only if the status is the same and the date of the last
    modification differs: it then hands the armored text the controller
    holds to [importKeys] of its keyring, once, the keyrings afterwards
    are the ones [importKeys] returns, and the outcome is 'UPDATED',
    or the error of the import result.  And it returns 'UPDATED' with
    no event and the state as it was if and only if neither differs.
    The controller holds the keyring [importKey] has put there. *)
Theorem updateKey_decision (kr : Keyring) :
  keyring (ctrl s) = Some kr ->
  let o := updateKey fingerprint stockKey newKey s in
  let imported := importKeys (world s) kr (armored (ctrl s)) in
  ((res o = inr AwaitPopup
    /\ evs o = [WindowsOpenPopup
                  ("components/import-key/importKey.html?id=" ++ id (ctrl s)) 910 554]
    /\ world (st o) = world s
    /\ popupPromise (ctrl (st o)) = Some Pending)
   <-> validity_before stockKey <> validity_after stockKey newKey)
  /\ (existsb is_open_popup (evs o) = true
     <-> validity_before stockKey <> validity_after stockKey newKey)
  /\ (res o = inr AwaitPopup
     <-> validity_before stockKey <> validity_after stockKey newKey)
  /\ ((evs o = [ImportKeys kr (armored (ctrl s))]
      /\ world (st o) = snd imported
      /\ ctrl (st o) = ctrl s
      /\ res o = (if rtype (fst imported) =? "error"
                  then inl (Error (rmessage (fst imported)))
                  else inr (Value "UPDATED")))
     <-> validity_before stockKey = validity_after stockKey newKey
         /\ modified_before stockKey <> modified_after stockKey newKey)
  /\ (existsb is_import_keys (evs o) = true
     <-> validity_before stockKey = validity_after stockKey newKey
         /\ modified_before stockKey <> modified_after stockKey newKey)
  /\ ((res o = inr (Value "UPDATED") /\ evs o = [] /\ st o = s)
     <-> validity_before stockKey = validity_after stockKey newKey
         /\ modified_before stockKey = modified_after stockKey newKey).
Proof.
  intros Hk o imported.
  destruct (keyStatus_eqb_spec (validity_before stockKey)
              (validity_after stockKey newKey)) as [Hv | Hv].
  - destruct (Z.eq_dec (modified_before stockKey) (modified_after stockKey newKey))
      as [Hm | Hm].
    + destruct (updateKey_untouched Hv Hm) as (Hr & He & Hs). fold o in Hr, He, Hs.
      rewrite He, Hr, Hs. cbn [existsb].
      repeat split; intros; intuition (discriminate || congruence).
    + destruct (updateKey_silent kr Hk Hv Hm) as (He & Hw & Hc & Hr).
      fold o imported in He, Hw, Hc, Hr.
      rewrite He, Hw, Hc, Hr. cbn [existsb is_open_popup is_import_keys orb].
      assert (Hno : (if rtype (fst imported) =? "error"
                     then @inl jsError flow (Error (rmessage (fst imported)))
                     else inr (Value "UPDATED")) <> inr AwaitPopup)
        by (destruct (rtype (fst imported) =? "error"); discriminate).
      repeat split; intros; intuition (discriminate || congruence).
  - destruct (updateKey_confirm Hv) as (Hr & He & Hw & Hp & _).
    fold o in Hr, He, Hw, Hp.
    rewrite He, Hr, Hw, Hp. cbn [existsb is_open_popup is_import_keys orb].
    repeat split; intros; intuition (discriminate || congruence).
Qed.

(** C9.  When the merge changes neither the status of the primary key
    nor the date of the last modification, [updateKey] does not call
    [importKeys], leaves the keyrings as they are, and still returns
    'UPDATED'. *)
Theorem updateKey_unchanged_reports_updated :
  validity_before stockKey = validity_after stockKey newKey ->
  modified_before stockKey = modified_after stockKey newKey ->
  let o := updateKey fingerprint stockKey newKey s in
  res o = inr (Value "UPDATED")
  /\ existsb is_import_keys (evs o) = false
  /\ world (st o) = world s.
Proof.
  intros Hv Hm o.
  destruct (updateKey_untouched Hv Hm) as (Hr & He & Hs). fold o in Hr, He, Hs.
  rewrite Hr, He, Hs. repeat split; reflexivity.
Qed.

(** C3.  When the status changes and the status after the merge is not
    'valid', [updateKey] flags the controller as invalidated and waits
    for the dialog; when the user then declines, by the cancel button or
    by closing the window, the flow resolves with 'INVALIDATED',
    [importKeys] has not been called and the keyrings are the ones from
    before, so a lookup of the fingerprint finds the stored key. *)
Theorem invalidating_update_declined (popup : Popup) (decline : dialogEvent) :
  validity_before stockKey <> validity_after stockKey newKey ->
  validity_after stockKey newKey <> valid ->
  declines decline = true ->
  let o := updateKey fingerprint stockKey newKey s in
  let o' := await_popup [PopupOpened popup; decline] (st o) in
  res o = inr AwaitPopup
  /\ invalidated (ctrl (st o)) = true
  /\ res o' = inr (Some "INVALIDATED")
  /\ popupPromise (ctrl (st o')) = Some (Resolved "INVALIDATED")
  /\ existsb is_import_keys (evs o ++ evs o') = false
  /\ world (st o') = world s
  /\ (forall k, getKeysForId (world (st o')) k fingerprint
                = getKeysForId (world s) k fingerprint).
Proof.
  intros Hv Hnv Hd o o'.
  destruct (updateKey_confirm Hv) as (Hr & He & Hw & Hp & _ & _ & Hi).
  fold o in Hr, He, Hw, Hp, Hi.
  destruct (keyStatus_eqb_spec (validity_after stockKey newKey) valid) as [E | _];
    [contradiction |].
  assert (Hrun : res o' = inr (Some "INVALIDATED")
                 /\ popupPromise (ctrl (st o')) = Some (Resolved "INVALIDATED")
                 /\ existsb is_import_keys (evs o') = false
                 /\ world (st o') = world (st o)).
  { subst o'. destruct (st o) as [c w]. cbn in Hp, Hi |- *.
    destruct decline; try discriminate Hd;
      cbn; rewrite Hp; unfold_methods; cbn; rewrite ?Hi; cbn; rewrite ?Hp; cbn;
      repeat split; reflexivity. }
  destruct Hrun as (Hr' & Hp' & He' & Hw').
  rewrite existsb_app, He, He', Hw', Hw. repeat split; auto.
Qed.

End Reconciliation.

Section Failures.
Context {C : Collaborators}.

(** C7, as the code has it.  While a confirmation is pending, an error
    result of [importKeys] in [onImportOk] is shown in the dialog (an
    'import-error' event with the message) and flags the controller;
    the popup stays open and the continuation pending.  When the user
    then declines, the popup is closed and the continuation is rejected
    with the code IMPORT_ERROR, unless the controller is flagged as
    invalidated, in which case it is resolved with 'INVALIDATED'. *)
Theorem import_failure_shown_then_rejected (s : state) (kr : Keyring)
    (decline : dialogEvent) :
  keyring (ctrl s) = Some kr ->
  popupPromise (ctrl s) = Some Pending ->
  rtype (fst (importKeys (world s) kr (armored (ctrl s)))) = "error" ->
  declines decline = true ->
  let imported := importKeys (world s) kr (armored (ctrl s)) in
  let o := onImportOk s in
  let o' := handle decline (st o) in
  evs o = [ImportKeys kr (armored (ctrl s));
           Emit "import-error" (ImportErrorMessage (rmessage (fst imported)))]
  /\ res o = inr tt
  /\ importError (ctrl (st o)) = true
  /\ importPopup (ctrl (st o)) = importPopup (ctrl s)
  /\ popupPromise (ctrl (st o)) = Some Pending
  /\ existsb is_popup_close (evs o) = false
  /\ importPopup (ctrl (st o')) = None
  /\ (decline = DialogCancel ->
      evs o' = match importPopup (ctrl s) with
               | Some p => [PopupClose p]
               | None => []
               end)
  /\ popupPromise (ctrl (st o')) =
       Some (if invalidated (ctrl s) then Resolved "INVALIDATED"
             else Rejected (mkError "An error occured during key import"
                              (Some "IMPORT_ERROR"))).
Proof.
  intros Hk Hp Herr Hd imported o o'. subst imported o' o.
  destruct s as [c w]. destruct c as [i a pp ip ki k ks ky d ie inv rot].
  cbn in Hk, Hp, Herr |- *. subst k pp.
  unfold handle, onImportOk, keyring_importKeys. unfold_methods. cbn.
  destruct (importKeys w kr a) as [r w'] eqn:Ei. cbn in Herr |- *.
  rewrite Herr. cbn.
  destruct decline; try discriminate Hd; cbn;
    destruct ip as [p |]; cbn; destruct inv; cbn;
    repeat split; try reflexivity; try discriminate.
Qed.

(** C10.  When the first entry of what [mapKeys] reports has the type
    'private', [importKey] throws an error with the code IMPORT_ERROR;
    it neither calls [importKeys] nor opens the dialog, and the keyrings
    are the ones from before.  For a key that passes the checks made
    before the type is looked at, the message is the one about private
    keys. *)
Theorem importKey_private_rejected (s : state) (keyringId' armored' : string)
    (rotation' : option bool) :
  option_map fst (hd_error (mapKeys (readArmored_keys armored'))) = Some "private" ->
  let o := importKey keyringId' armored' rotation' s in
  (exists msg, res o = inl (MvError msg (Some "IMPORT_ERROR")))
  /\ existsb is_import_keys (evs o) = false
  /\ existsb is_open_popup (evs o) = false
  /\ world (st o) = world s
  /\ popupPromise (ctrl (st o)) = popupPromise (ctrl s)
  /\ (forall kr k,
        getKeyringById (world s) keyringId' = inr kr ->
        readArmored_err armored' = None ->
        sanitizeKey (hd_error (readArmored_keys armored')) = Some k ->
        verifyPrimaryKey k <> invalid ->
        res o = inl (MvError "Import of private keys not allowed."
                       (Some "IMPORT_ERROR"))).
Proof.
  intros Hpriv o. subst o.
  destruct s as [c w]. unfold importKey, importKey_try.
  generalize (1 <? length (readArmored_keys armored'))%nat as several.
  intros several. unfold_methods. cbn.
  destruct (mapKeys (readArmored_keys armored')) as [| [ty inf] rest] eqn:Em;
    [discriminate Hpriv |].
  cbn in Hpriv. injection Hpriv as ->.
  destruct (getKeyringById w keyringId') as [e | kr] eqn:Eg; cbn.
  { repeat split; eauto. intros; discriminate. }
  destruct (readArmored_err armored') as [[| e errs] |] eqn:Ee; cbn;
    try (repeat split; eauto; intros; discriminate).
  destruct several; cbn;
    (destruct (sanitizeKey (hd_error (readArmored_keys armored'))) as [k |] eqn:Es; cbn;
     [| repeat split; eauto; intros; discriminate]);
    (destruct (keyStatus_eqb_spec (verifyPrimaryKey k) invalid) as [Ei | Ei]; cbn;
     [repeat split; eauto; intros ? ? _ _ [= <-] H; contradiction |]);
    repeat split; eauto.
Qed.

(** How [importKey] gets to [updateKey]: for a public key that passes
    the checks and whose fingerprint the keyring knows, it goes on as
    [updateKey] does, on a controller that holds the keyring and the
    armored text of the sanitized key; up to there the keyrings are
    untouched and nothing but the console has been written to. *)
Lemma importKey_reaches_updateKey (s : state) (keyringId' armored' : string)
    (rotation' : option bool) (kr : Keyring) (k stockKey : Key)
    (ty : string) (inf : KeyInfo) rest more :
  getKeyringById (world s) keyringId' = inr kr ->
  readArmored_err armored' = None ->
  sanitizeKey (hd_error (readArmored_keys armored')) = Some k ->
  verifyPrimaryKey k <> invalid ->
  mapKeys (readArmored_keys armored') = (ty, inf) :: rest ->
  ty <> "private" ->
  getKeysForId (world s) kr (getFingerprint k) = Some (stockKey :: more) ->
  let o := importKey keyringId' armored' rotation' s in
  exists s1 evs1,
    let u := updateKey (getFingerprint k) stockKey k s1 in
    keyring (ctrl s1) = Some kr
    /\ armored (ctrl s1) = armor k
    /\ invalidated (ctrl s1) = invalidated (ctrl s)
    /\ world s1 = world s
    /\ existsb is_import_keys evs1 = false
    /\ existsb is_open_popup evs1 = false
    /\ st o = st u /\ res o = res u /\ evs o = evs1 ++ evs u.
Proof.
  intros Hg He Hs Hv Hm Hty Hk o. subst o.
  destruct s as [c w]. cbn in Hg, Hk. unfold importKey, importKey_try.
  generalize (1 <? length (readArmored_keys armored'))%nat as several.
  intros several.
  unfold try_catch, bind, upd, modify, get, when, log, ret, throw. cbn.
  rewrite Hg, He. cbn. destruct several; cbn; rewrite Hs; cbn;
    (destruct (keyStatus_eqb_spec (verifyPrimaryKey k) invalid) as [E | _];
     [contradiction |]); cbn; rewrite Hm; cbn;
    (destruct (String.eqb_spec ty "private") as [E | _]; [contradiction |]); cbn;
    rewrite Hk; cbn;
    match goal with
    | |- context [updateKey ?f ?a ?b ?s1] =>
        exists s1; destruct (updateKey f a b s1) as [s2 evs2 r2]
    end; cbn;
    first [ now (exists []; repeat split) | now (eexists [_]; repeat split) ].
Qed.

End Failures.

Section OnTheScenario.
Import Scenario.

(** C7, as the claim has it, fails: the keyring refuses Carol's key when
    the user confirms, and the popup is still open afterwards. *)
Lemma import_failure_leaves_popup_open : ~ import_failure_aborts confirming_carol.
Proof.
  intros H. specialize (H tt eq_refl eq_refl). cbn in H.
  destruct H as [H _]. discriminate H.
Qed.

(** When the controller is flagged as invalidated, a failed import step
    followed by a cancellation ends in 'INVALIDATED', not in a
    rejection. *)
Example import_failure_after_invalidation :
  let s := st ((importKey "main" "alice-expired" None ;; popupOpened 7 ;; onImportOk) idle) in
  importError (ctrl s) = true
  /\ invalidated (ctrl s) = true
  /\ popupPromise (ctrl (st (handleCancel s))) = Some (Resolved "INVALIDATED").
Proof. repeat split; reflexivity. Qed.

(** An update that needs no confirmation and that the keyring cannot
    store: the error of [updateKey] passes the [catch] of [importKey]
    and has no code. *)
Example silent_update_failure_has_no_code :
  res (importKey "main" "alice-damaged" None idle) = inl (Error "Key could not be stored").
Proof. reflexivity. Qed.

(** A certification more on Alice's key changes its date only: the
    update is stored without a question. *)
Lemma updateKey_decision_witness :
  keyring (ctrl (importing "alice-certified")) = Some tt
  /\ evs (updateKey "A1" alice alice_certified (importing "alice-certified"))
     = [ImportKeys tt (armored (ctrl (importing "alice-certified")))]
  /\ world (st (updateKey "A1" alice alice_certified (importing "alice-certified")))
     = snd (importKeys (world (importing "alice-certified")) tt
              (armored (ctrl (importing "alice-certified"))))
  /\ res (updateKey "A1" alice alice_certified (importing "alice-certified"))
     = inr (Value "UPDATED").
Proof.
  split; [reflexivity |].
  destruct (updateKey_decision (importing "alice-certified") "A1" alice alice_certified
              tt eq_refl) as (_ & _ & _ & H & _).
  destruct (proj2 H) as (He & Hw & _ & Hr).
  - split; [reflexivity | discriminate].
  - split; [exact He | split; [exact Hw | exact Hr]].
Defined.

(** The key Alice already has in the keyring changes nothing. *)
Lemma updateKey_unchanged_witness :
  validity_before alice = validity_after alice alice
  /\ modified_before alice = modified_after alice alice
  /\ res (updateKey "A1" alice alice (importing "alice")) = inr (Value "UPDATED").
Proof.
  split; [reflexivity | split; [reflexivity |]].
  apply (updateKey_unchanged_reports_updated (importing "alice") "A1" alice alice
           eq_refl eq_refl).
Defined.

(** A revocation of Alice's key, which the user refuses. *)
Lemma invalidating_update_witness :
  validity_before alice <> validity_after alice alice_revoked
  /\ validity_after alice alice_revoked <> valid
  /\ world (st (await_popup [PopupOpened 7; DialogCancel]
                  (st (updateKey "A1" alice alice_revoked (importing "alice-revoked")))))
     = [alice].
Proof.
  split; [discriminate | split; [discriminate |]].
  apply (invalidating_update_declined (importing "alice-revoked") "A1" alice
           alice_revoked 7 DialogCancel); [discriminate | discriminate | reflexivity].
Defined.

(** Carol's key is refused by the keyring; the user then cancels. *)
Lemma import_failure_witness :
  keyring (ctrl confirming_carol) = Some tt
  /\ popupPromise (ctrl confirming_carol) = Some Pending
  /\ rtype (fst (importKeys (world confirming_carol) tt (armored (ctrl confirming_carol))))
     = "error"
  /\ popupPromise (ctrl (st (handle DialogCancel (st (onImportOk confirming_carol)))))
     = Some (Rejected (mkError "An error occured during key import" (Some "IMPORT_ERROR"))).
Proof.
  split; [reflexivity | split; [reflexivity | split; [reflexivity |]]].
  apply (import_failure_shown_then_rejected confirming_carol tt DialogCancel
           eq_refl eq_refl eq_refl eq_refl).
Defined.

(** Dave's private key is not let in. *)
Lemma importKey_private_witness :
  option_map fst (hd_error (mapKeys (readArmored_keys "dave-private"))) = Some "private"
  /\ world (st (importKey "main" "dave-private" None idle)) = [alice].
Proof.
  split; [reflexivity |].
  apply (importKey_private_rejected idle "main" "dave-private" None eq_refl).
Defined.

End OnTheScenario.

End ImportProperties.

(** * Properties of [sortAndDeDup] *)

Module SortFacts.

Lemma ascii_compare_refl (a : ascii) : Ascii.compare a a = Eq.
Proof. unfold Ascii.compare. apply N.compare_refl. Qed.

Lemma compare_refl (a : string) : String.compare a a = Eq.
Proof. induction a as [| c a IH]; cbn; [reflexivity |]. now rewrite ascii_compare_refl. Qed.

Lemma compare_lt_trans (a b c : string) :
  String.compare a b = Lt -> String.compare b c = Lt -> String.compare a c = Lt.
Proof.
  revert b c. induction a as [| x a IH]; intros [| y b] [| z c]; cbn;
    try discriminate; try reflexivity.
  destruct (Ascii.compare x y) eqn:Exy; try discriminate;
    destruct (Ascii.compare y z) eqn:Eyz; try discriminate; intros Hab Hbc.
  - apply Ascii.compare_eq_iff in Exy, Eyz. subst.
    rewrite ascii_compare_refl. eauto.
  - apply Ascii.compare_eq_iff in Exy. subst. now rewrite Eyz.
  - apply Ascii.compare_eq_iff in Eyz. subst. now rewrite Exy.
  - unfold Ascii.compare in *. rewrite N.compare_lt_iff in *.
    assert (H : (N_of_ascii x < N_of_ascii z)%N) by lia.
    apply N.compare_lt_iff in H. now rewrite H.
Qed.

Lemma fpr_lt_trans (a b c : string) : fpr_lt a b -> fpr_lt b c -> fpr_lt a c.
Proof.
  unfold fpr_lt, String.ltb. intros Hab Hbc.
  destruct (String.compare a b) eqn:Eab; try discriminate.
  destruct (String.compare b c) eqn:Ebc; try discriminate.
  now rewrite (compare_lt_trans _ _ _ Eab Ebc).
Qed.

Lemma fpr_lt_irrefl (a : string) : ~ fpr_lt a a.
Proof. unfold fpr_lt, String.ltb. now rewrite compare_refl. Qed.

Lemma fpr_le_neq_lt (a b : string) : fpr_le a b -> a <> b -> fpr_lt a b.
Proof.
  unfold fpr_le, fpr_lt, String.leb, String.ltb. intros Hle Hne.
  destruct (String.compare a b) eqn:E; try discriminate; [| reflexivity].
  apply String.compare_eq_iff in E. contradiction.
Qed.

Lemma not_leb_fpr_le (a b : string) : String.leb a b = false -> fpr_le b a.
Proof. intros H. destruct (String.leb_total a b) as [E | E]; [congruence | exact E]. Qed.

Lemma insert_sorted_In (x y : string) (l : list string) :
  In y (insert_sorted x l) <-> y = x \/ In y l.
Proof.
  induction l as [| z l IH]; cbn; [intuition |].
  destruct (String.leb x z); cbn; rewrite ?IH; intuition.
Qed.

Lemma insert_sorted_Sorted (x : string) (l : list string) :
  Sorted fpr_le l -> Sorted fpr_le (insert_sorted x l).
Proof.
  induction 1 as [| z l Hs IH Hz]; cbn; [repeat constructor |].
  destruct (String.leb x z) eqn:E.
  - constructor; [now constructor | now constructor].
  - constructor; [exact IH |].
    destruct l as [| z' l]; cbn.
    + constructor. now apply not_leb_fpr_le.
    + destruct (String.leb x z'); constructor;
        [now apply not_leb_fpr_le | now inversion Hz].
Qed.

Lemma sort_In (x : string) (l : list string) : In x (sort l) <-> In x l.
Proof.
  induction l as [| y l IH]; cbn; [reflexivity |].
  rewrite insert_sorted_In, IH. intuition.
Qed.

Lemma sort_Sorted (l : list string) : Sorted fpr_le (sort l).
Proof.
  induction l as [| y l IH]; cbn; [constructor | now apply insert_sorted_Sorted].
Qed.

Lemma deDupSorted_In (x : string) (l : list string) :
  In x (deDupSorted l) <-> In x l.
Proof.
  induction l as [| y l IH]; [reflexivity |].
  cbn [deDupSorted]. destruct l as [| z l]; [reflexivity |].
  destruct (String.eqb_spec y z) as [-> | Hne].
  - rewrite IH. cbn. intuition.
  - cbn [In] in *. rewrite IH. intuition.
Qed.

Lemma deDupSorted_HdRel (a : string) (l : list string) :
  HdRel fpr_le a l -> Sorted fpr_le l -> (forall y, In y l -> a <> y) ->
  HdRel fpr_lt a (deDupSorted l).
Proof.
  induction l as [| y l IH]; intros Hh Hs Hne; [constructor |].
  cbn [deDupSorted]. destruct l as [| z l].
  - constructor. apply fpr_le_neq_lt; [now inversion Hh | apply Hne; now left].
  - destruct (String.eqb_spec y z) as [-> | Hyz].
    + apply IH.
      * inversion Hh; subst. now constructor.
      * now inversion Hs.
      * intros y Hy. apply Hne. now right.
    + constructor. apply fpr_le_neq_lt; [now inversion Hh | apply Hne; now left].
Qed.

Lemma Sorted_le_head (a : string) (l : list string) :
  Sorted fpr_le (a :: l) -> forall y, In y l -> fpr_le a y.
Proof.
  revert a. induction l as [| b l IH]; intros a Hs y Hy; [contradiction |].
  inversion Hs as [| ? ? Hs' Hh]; subst. inversion Hh; subst.
  destruct Hy as [<- | Hy]; [assumption |].
  apply IH; [| exact Hy].
  inversion Hs' as [| ? ? Hs'' Hh']; subst.
  constructor; [exact Hs'' |].
  destruct l as [| c l]; constructor.
  inversion Hh'; subst.
  unfold fpr_le in *. unfold String.leb in *.
  destruct (String.compare a b) eqn:Eab; try discriminate.
  - apply String.compare_eq_iff in Eab. now subst.
  - destruct (String.compare b c) eqn:Ebc; try discriminate.
    + apply String.compare_eq_iff in Ebc. subst. now rewrite Eab.
    + now rewrite (compare_lt_trans _ _ _ Eab Ebc).
Qed.

Lemma deDupSorted_Sorted (l : list string) :
  Sorted fpr_le l -> Sorted fpr_lt (deDupSorted l).
Proof.
  induction l as [| x l IH]; intros Hs; [constructor |].
  cbn [deDupSorted]. destruct l as [| y l]; [repeat constructor |].
  assert (Hs' : Sorted fpr_le (y :: l)) by now inversion Hs.
  destruct (String.eqb_spec x y) as [-> | Hxy]; [now apply IH |].
  constructor; [now apply IH |].
  cbn [deDupSorted] in *. destruct l as [| z l].
  - constructor. apply fpr_le_neq_lt; [| exact Hxy].
    inversion Hs as [| ? ? _ Hh]; subst. now inversion Hh.
  - assert (Hxy' : fpr_le x y).
    { inversion Hs as [| ? ? _ Hh]; subst. now inversion Hh. }
    destruct (String.eqb_spec y z) as [-> | Hyz].
    + change (HdRel fpr_lt x (deDupSorted (z :: l))).
      apply deDupSorted_HdRel; [now constructor | now inversion Hs' |].
      intros w Hw E. subst w. apply Hxy.
      apply String.leb_antisym; [exact Hxy' |].
      destruct Hw as [<- | Hw]; [unfold fpr_le, String.leb; now rewrite compare_refl |].
      apply (Sorted_le_head z l); [now inversion Hs' | exact Hw].
    + constructor. now apply fpr_le_neq_lt.
Qed.

Lemma sortAndDeDup_In (x : string) (l : list string) :
  In x (sortAndDeDup l) <-> In x l.
Proof. unfold sortAndDeDup. now rewrite deDupSorted_In, sort_In. Qed.

Lemma sortAndDeDup_StronglySorted (l : list string) :
  StronglySorted fpr_lt (sortAndDeDup l).
Proof.
  apply Sorted_StronglySorted.
  - intros a b c. apply fpr_lt_trans.
  - apply deDupSorted_Sorted, sort_Sorted.
Qed.

Lemma StronglySorted_NoDup (l : list string) : StronglySorted fpr_lt l -> NoDup l.
Proof.
  induction 1 as [| a l _ IH Hall]; constructor; [| exact IH].
  intros Hin. rewrite Forall_forall in Hall.
  exact (fpr_lt_irrefl a (Hall a Hin)).
Qed.

Lemma sortAndDeDup_NoDup (l : list string) : NoDup (sortAndDeDup l).
Proof. apply StronglySorted_NoDup, sortAndDeDup_StronglySorted. Qed.

(** A set of strings has one strictly increasing enumeration. *)
Lemma StronglySorted_unique (l1 l2 : list string) :
  StronglySorted fpr_lt l1 -> StronglySorted fpr_lt l2 ->
  (forall x, In x l1 <-> In x l2) -> l1 = l2.
Proof.
  intros H1. revert l2.
  induction H1 as [| a l1 Hs1 IH Ha]; intros l2 H2 Hin.
  - destruct l2 as [| b l2]; [reflexivity |].
    destruct (proj2 (Hin b) (or_introl eq_refl)).
  - destruct H2 as [| b l2 Hs2 Hb].
    + destruct (proj1 (Hin a) (or_introl eq_refl)).
    + rewrite Forall_forall in Ha, Hb.
      assert (Hab : a = b).
      { destruct (proj1 (Hin a) (or_introl eq_refl)) as [E | Ha2]; [now symmetry |].
        destruct (proj2 (Hin b) (or_introl eq_refl)) as [E | Hb1]; [exact E |].
        exfalso. apply (fpr_lt_irrefl a).
        apply (fpr_lt_trans a b a); [now apply Ha | now apply Hb]. }
      subst b. f_equal. apply IH; [exact Hs2 |].
      intros x. split; intros Hx.
      * destruct (proj1 (Hin x) (or_intror Hx)) as [E | Hx2]; [| exact Hx2].
        subst x. exfalso. exact (fpr_lt_irrefl a (Ha a Hx)).
      * destruct (proj2 (Hin x) (or_intror Hx)) as [E | Hx1]; [| exact Hx1].
        subst x. exfalso. exact (fpr_lt_irrefl a (Hb a Hx)).
Qed.

(** [sortAndDeDup] depends on the elements of its argument only. *)
Lemma sortAndDeDup_ext (l1 l2 : list string) :
  (forall x, In x l1 <-> In x l2) -> sortAndDeDup l1 = sortAndDeDup l2.
Proof.
  intros H. apply StronglySorted_unique; try apply sortAndDeDup_StronglySorted.
  intros x. rewrite !sortAndDeDup_In. apply H.
Qed.

End SortFacts.

(** * Properties of the editor controller *)

Module EditorProperties.
Import EditorController.

Section Recipients.
Context {C : Collaborators}.

(** [lookupMissingKeys] emits nothing, throws nothing and leaves the
    fields of the controller alone. *)
Lemma lookupMissingKeys_entries_frame entries :
  forall keyMap s,
    let o := lookupMissingKeys_entries entries keyMap s in
    evs o = [] /\ ctrl (st o) = ctrl s /\ exists r, res o = inr r.
Proof.
  induction entries as [| [email' keys] rest IH]; intros keyMap s; cbn.
  - unfold ret; cbn. eauto.
  - destruct keys as [l |]; [apply IH |].
    unfold_monad. cbn.
    destruct (lookupKey (world s) (keyringId (ctrl s)) email') as [w |]; cbn; [| eauto].
    rewrite String.eqb_refl.
    match goal with
    | |- context [lookupMissingKeys_entries rest ?m ?s'] =>
        destruct (IH m s') as (He & Hc & r & Hr);
        destruct (lookupMissingKeys_entries rest m s') as [s2 evs2 r2]
    end.
    cbn in *. subst. eauto.
Qed.

Lemma obj_get_false_some_false (keyMap : list (string * option (list PublicKey)))
    (address : string) :
  obj_get keyMap address = Some None ->
  some_false (mapAddressKeyMapToFpr keyMap) = true.
Proof.
  unfold some_false, mapAddressKeyMapToFpr.
  induction keyMap as [| [k v] keyMap IH]; cbn; [discriminate |].
  destruct (k =? address).
  - intros [= ->]. reflexivity.
  - intros H. rewrite (IH H). apply orb_true_r.
Qed.

(** What [onEditorContainerEncrypt] does when the key map has a [false]
    after the lookup of the missing keys. *)
Lemma onEditorContainerEncrypt_some_false (s : state) (keyringId' : string)
    (recipients : list string)
    (keyMap : list (string * option (list PublicKey))) :
  editorCont (ctrl s) = true ->
  res (lookupMissingKeys (getKeyByAddress (world s) (Some keyringId') recipients)
         (container_request keyringId' s)) = inr (Some keyMap) ->
  some_false (mapAddressKeyMapToFpr keyMap) = true ->
  let o := onEditorContainerEncrypt keyringId' recipients s in
  res o = inr true
  /\ evs o = [Emit EditorCont "error-message" (ErrorData NO_KEY_FOR_RECIPIENT)]
  /\ keyFprBuffer (ctrl (st o)) = keyFprBuffer (ctrl s).
Proof.
  intros Hcont Hlook Hfalse o. subst o.
  unfold onEditorContainerEncrypt, lookupMissingKeys, container_request in *.
  unfold_monad. cbn.
  match type of Hlook with
  | res (lookupMissingKeys_entries ?e ?m ?s') = _ =>
      destruct (lookupMissingKeys_entries_frame e m s') as (He & Hc & _);
      destruct (lookupMissingKeys_entries e m s') as [s2 evs2 r2]
  end.
  cbn in Hlook, He, Hc |- *. subst r2 evs2.
  rewrite Hfalse. cbn.
  rewrite Hc. cbn. rewrite Hcont. cbn.
  repeat split; try reflexivity. now rewrite Hc.
Qed.

Lemma obj_get_set_same {V} (o : list (string * V)) (k : string) (v : V) :
  obj_get (obj_set o k v) k = Some v.
Proof.
  induction o as [| [k' v'] o IH]; cbn.
  - now rewrite String.eqb_refl.
  - destruct (k' =? k) eqn:E; cbn; [now rewrite String.eqb_refl | now rewrite E].
Qed.

Lemma obj_get_set_other {V} (o : list (string * V)) (k k' : string) (v : V) :
  k <> k' -> obj_get (obj_set o k v) k' = obj_get o k'.
Proof.
  intros Hne. induction o as [| [k0 v0] o IH]; cbn.
  - destruct (String.eqb_spec k k'); [contradiction | reflexivity].
  - destruct (String.eqb_spec k0 k) as [-> | Hk]; cbn.
    + destruct (String.eqb_spec k k'); [contradiction | reflexivity].
    + destruct (k0 =? k'); [reflexivity | exact IH].
Qed.

(** The object [getKeyByAddress] returns has an entry for every address
    it was asked for. *)
Lemma getKeyByAddress_get (w : World) (keyringId' : option string)
    (emails : list string) (address : string) :
  In address emails ->
  obj_get (getKeyByAddress w keyringId' emails) address
  = Some (keysByAddress w keyringId' address).
Proof.
  unfold getKeyByAddress.
  assert (H : forall acc,
             In address emails
             \/ obj_get acc address = Some (keysByAddress w keyringId' address) ->
             obj_get (fold_left
                        (fun o e => obj_set o e (keysByAddress w keyringId' e)) emails acc)
                     address
             = Some (keysByAddress w keyringId' address)).
  { induction emails as [| e emails IH]; intros acc [Hin | Hacc]; cbn;
      try contradiction; try assumption.
    - apply IH. destruct (String.eqb_spec e address) as [-> | Hne].
      + right. apply obj_get_set_same.
      + destruct Hin as [-> | Hin]; [contradiction | now left].
    - apply IH. right. destruct (String.eqb_spec e address) as [-> | Hne].
      + apply obj_get_set_same.
      + now rewrite obj_get_set_other. }
  intros Hin. apply H. now left.
Qed.

(** An address that has no key whatever the lookups bring keeps its
    [false] through [lookupMissingKeys], which comes to its end when
    every lookup does. *)
Lemma lookupMissingKeys_entries_keeps_false (k : option string) (address : string)
    entries :
  (forall w, keysByAddress w k address = None) ->
  (forall w e, lookupKey w k e <> None) ->
  forall keyMap s,
    keyringId (ctrl s) = k ->
    obj_get keyMap address = Some None ->
    exists keyMap',
      res (lookupMissingKeys_entries entries keyMap s) = inr (Some keyMap')
      /\ obj_get keyMap' address = Some None.
Proof.
  intros Hnone Hsettle.
  induction entries as [| [email' keys] rest IH]; intros keyMap s Hk Hget; cbn.
  - unfold ret; cbn. eauto.
  - destruct keys as [l |]; [now apply IH |].
    unfold_monad. cbn. rewrite Hk.
    destruct (lookupKey (world s) k email') as [w |] eqn:El;
      [| now destruct (Hsettle _ _ El)].
    cbn. rewrite String.eqb_refl.
    match goal with
    | |- context [lookupMissingKeys_entries rest ?m ?s'] =>
        destruct (IH m s') as (keyMap' & Hr & Hg);
        [exact Hk | | destruct (lookupMissingKeys_entries rest m s') as [s2 evs2 r2]]
    end.
    + destruct (String.eqb_spec email' address) as [-> | Hne].
      * rewrite obj_get_set_same. now rewrite Hnone.
      * now rewrite obj_get_set_other.
    + cbn in *. eauto.
Qed.

(** C2.  When, after the lookup of the missing keys, the key map has
    [false] for one of the addresses, [onEditorContainerEncrypt] reports
    NO_KEY_FOR_RECIPIENT to the container and does nothing else: it does
    not ask the editor for the plaintext, which is what starts the
    encryption, calls no operation of the engine, and leaves the buffer
    of fingerprints as it was. *)
Theorem unresolved_recipient_blocks_encryption (s : state) (keyringId' : string)
    (recipients : list string)
    (keyMap : list (string * option (list PublicKey))) (address : string) :
  editorCont (ctrl s) = true ->
  res (lookupMissingKeys (getKeyByAddress (world s) (Some keyringId') recipients)
         (container_request keyringId' s)) = inr (Some keyMap) ->
  obj_get keyMap address = Some None ->
  let o := onEditorContainerEncrypt keyringId' recipients s in
  res o = inr true
  /\ evs o = [Emit EditorCont "error-message" (ErrorData NO_KEY_FOR_RECIPIENT)]
  /\ existsb (is_emit "get-plaintext") (evs o) = false
  /\ existsb is_engine_encrypt (evs o) = false
  /\ keyFprBuffer (ctrl (st o)) = keyFprBuffer (ctrl s).
Proof.
  intros Hcont Hlook Hfalse o.
  destruct (onEditorContainerEncrypt_some_false s keyringId' recipients keyMap Hcont
              Hlook (obj_get_false_some_false _ _ Hfalse)) as (Hr & He & Hb).
  fold o in Hr, He, Hb. rewrite He. repeat split; assumption || reflexivity.
Qed.

(** The same in terms of the collaborators: a requested address for
    which the keyring has no key, before and after the lookups, while
    every lookup comes to its end. *)
Lemma recipient_without_key_blocks_encryption (s : state) (keyringId' : string)
    (recipients : list string) (address : string) :
  editorCont (ctrl s) = true ->
  In address recipients ->
  (forall w, keysByAddress w (Some keyringId') address = None) ->
  (forall w e, lookupKey w (Some keyringId') e <> None) ->
  let o := onEditorContainerEncrypt keyringId' recipients s in
  res o = inr true
  /\ evs o = [Emit EditorCont "error-message" (ErrorData NO_KEY_FOR_RECIPIENT)]
  /\ keyFprBuffer (ctrl (st o)) = keyFprBuffer (ctrl s).
Proof.
  intros Hcont Hin Hnone Hsettle.
  destruct (lookupMissingKeys_entries_keeps_false (Some keyringId') address
              (getKeyByAddress (world s) (Some keyringId') recipients) Hnone Hsettle
              (getKeyByAddress (world s) (Some keyringId') recipients)
              (container_request keyringId' s) eq_refl)
    as (keyMap & Hr & Hg).
  { rewrite getKeyByAddress_get by assumption. now rewrite Hnone. }
  apply (onEditorContainerEncrypt_some_false s keyringId' recipients keyMap Hcont Hr).
  now apply obj_get_false_some_false with (address := address).
Qed.

End Recipients.

Section Fingerprints.
Context {C : Collaborators}.

(** [getPublicKeyFprs] for the fingerprints [pushed] it adds. *)
Lemma getPublicKeyFprs_pushed (s : state) (keys : list keyData) (pushed : list string) :
  (if auto_add_primary (world s) then
     exists d, keyring_getDefaultKeyFpr (world s) (keyringId (ctrl s)) = inr d
               /\ pushed = match d with
                           | Some f => if truthy d then [f] else []
                           | None => []
                           end
   else pushed = []) ->
  let o := getPublicKeyFprs keys s in
  res o = inr (sortAndDeDup (recipient_fprs s keys ++ pushed))
  /\ world (st o) = world s
  /\ keyringId (ctrl (st o)) = keyringId (ctrl s)
  /\ keyFprBuffer (ctrl (st o))
     = option_map (fun buffer => buffer ++ pushed) (keyFprBuffer (ctrl s)).
Proof.
  intros H o. subst o. unfold getPublicKeyFprs, recipient_fprs. unfold_monad.
  destruct s as [c w]. destruct c as [ep ki po mi op ig kb sk ec]. cbn in H |- *.
  destruct (auto_add_primary w).
  - destruct H as (d & -> & ->). cbn.
    destruct kb; cbn; repeat split; reflexivity.
  - subst pushed. cbn.
    destruct kb; cbn; repeat split; reflexivity.
Qed.

(** C4.  [getPublicKeyFprs] either fails because the default key of the
    keyring cannot be asked for, or returns a list that has the
    fingerprints of the recipients (the buffer when there is one) and,
    exactly when [auto_add_primary] is set and the keyring has a default
    key, the fingerprint of that key; the list has no duplicates and is
    strictly increasing; and a second run, on the controller as the
    first one left it, returns the same list. *)
Theorem getPublicKeyFprs_deduplicated_sorted (s : state) (keys : list keyData) :
  let o := getPublicKeyFprs keys s in
  match res o with
  | inr l =>
      (forall x,
         In x l <->
         In x (recipient_fprs s keys)
         \/ (auto_add_primary (world s) = true
             /\ keyring_getDefaultKeyFpr (world s) (keyringId (ctrl s)) = inr (Some x)
             /\ x <> ""))
      /\ NoDup l
      /\ StronglySorted fpr_lt l
      /\ res (getPublicKeyFprs keys (st o)) = inr l
  | inl e =>
      auto_add_primary (world s) = true
      /\ keyring_getDefaultKeyFpr (world s) (keyringId (ctrl s)) = inl e
  end.
Proof.
  intros o.
  destruct (auto_add_primary (world s)) eqn:Ea.
  - destruct (keyring_getDefaultKeyFpr (world s) (keyringId (ctrl s))) as [e | d] eqn:Ed.
    + subst o. unfold getPublicKeyFprs. unfold_monad. cbn. rewrite Ea, Ed. cbn. auto.
    + pose (pushed := match d with
                      | Some f => if truthy d then [f] else []
                      | None => []
                      end).
      destruct (getPublicKeyFprs_pushed s keys pushed) as (Hr & Hw & Hk & Hb).
      { rewrite Ea. exists d. auto. }
      fold o in Hr, Hw, Hk, Hb. rewrite Hr.
      split; [| split; [apply SortFacts.sortAndDeDup_NoDup |
                split; [apply SortFacts.sortAndDeDup_StronglySorted |]]].
      * intros x. rewrite SortFacts.sortAndDeDup_In, in_app_iff.
        apply or_iff_compat_l. subst pushed.
        destruct d as [f |]; cbn.
        -- destruct (String.eqb_spec f "") as [-> | Hf]; cbn.
           ++ split; [contradiction | intros (_ & [= <-] & H); now apply H].
           ++ split.
              ** intros [<- | []]. auto.
              ** intros (_ & [= ->] & _). now left.
        -- split; [contradiction | intros (_ & [=] & _)].
      * destruct (getPublicKeyFprs_pushed (st o) keys pushed) as (Hr' & _).
        { rewrite Hw, Hk, Ea. exists d. rewrite Ed. auto. }
        rewrite Hr'. f_equal. apply SortFacts.sortAndDeDup_ext. intros x.
        unfold recipient_fprs. rewrite Hb.
        destruct (keyFprBuffer (ctrl s)); cbn; rewrite !in_app_iff; [tauto |].
        reflexivity.
  - destruct (getPublicKeyFprs_pushed s keys []) as (Hr & Hw & Hk & Hb).
    { now rewrite Ea. }
    fold o in Hr, Hw, Hk, Hb. rewrite Hr.
    split; [| split; [apply SortFacts.sortAndDeDup_NoDup |
              split; [apply SortFacts.sortAndDeDup_StronglySorted |]]].
    + intros x. rewrite SortFacts.sortAndDeDup_In, in_app_iff. cbn.
      split; [tauto | intros [H | (H & _)]; [now left | discriminate H]].
    + destruct (getPublicKeyFprs_pushed (st o) keys []) as (Hr' & _).
      { now rewrite Hw, Ea. }
      rewrite Hr'. f_equal. apply SortFacts.sortAndDeDup_ext. intros x.
      unfold recipient_fprs. rewrite Hb.
      destruct (keyFprBuffer (ctrl s)); cbn; rewrite !in_app_iff; [tauto |].
      reflexivity.
Qed.

End Fingerprints.

Section Frame.
Context {C : Collaborators}.

Lemma quiet_ret {A} P (a : A) : quiet P (ret a).
Proof. intros s. split; reflexivity. Qed.

Lemma quiet_throw {A} P (e : jsError) : quiet P (@throw state event A e).
Proof. intros s. split; reflexivity. Qed.

Lemma quiet_log P (e : event) : P e = true -> quiet P (log e).
Proof. intros H s. cbn. now rewrite H. Qed.

Lemma quiet_set_world P (w : World) : quiet P (set_world w).
Proof. intros s. split; reflexivity. Qed.

Lemma quiet_bind {A B} P (m : M state event A) (k : A -> M state event B) :
  quiet P m -> (forall a, quiet P (k a)) -> quiet P (bind m k).
Proof.
  intros Hm Hk s. unfold bind.
  destruct (Hm s) as (Hc & He). destruct (m s) as [s1 evs1 [e | a]]; cbn in *.
  - auto.
  - destruct (Hk a s1) as (Hc' & He'). destruct (k a s1) as [s2 evs2 r]; cbn in *.
    rewrite forallb_app, He, He'. split; [congruence | reflexivity].
Qed.

Lemma quiet_try_catch {A} P (m : M state event A) (h : jsError -> M state event A) :
  quiet P m -> (forall e, quiet P (h e)) -> quiet P (try_catch m h).
Proof.
  intros Hm Hh s. unfold try_catch.
  destruct (Hm s) as (Hc & He). destruct (m s) as [s1 evs1 [e | a]]; cbn in *.
  - destruct (Hh e s1) as (Hc' & He'). destruct (h e s1) as [s2 evs2 r]; cbn in *.
    rewrite forallb_app, He, He'. split; [congruence | reflexivity].
  - auto.
Qed.

Lemma quiet_when P (b : bool) (m : M state event unit) :
  quiet P m -> quiet P (when b m).
Proof. destruct b; [auto | intros _; apply quiet_ret]. Qed.

Lemma quiet_get {A} P (k : state -> M state event A) :
  (forall s, quiet P (k s)) -> quiet P (bind get k).
Proof. intros H. apply quiet_bind; [intros s; split; reflexivity | exact H]. Qed.

Lemma quiet_unlockKey P (o : unlockOptions Key) :
  (forall e, unlock_event e = true -> P e = true) -> quiet P (unlockKey o).
Proof.
  intros HP. unfold unlockKey. apply quiet_get. intros s.
  destruct (pwd_unlockKey (world s) _) as [answer w].
  apply quiet_bind; [apply quiet_set_world | intros _].
  apply quiet_bind.
  - destruct (asked answer); [| apply quiet_ret].
    apply quiet_when, quiet_log, HP. reflexivity.
  - intros _. destruct (unlocked answer) as [e | [k password]]; [apply quiet_throw |].
    apply quiet_bind; [apply quiet_log, HP; reflexivity | intros _].
    apply quiet_bind; [| intros _; apply quiet_ret].
    apply quiet_when, quiet_log, HP. reflexivity.
Qed.

Lemma quiet_decrypt_unlockKey P (o : unlockOptions Key) :
  (forall e, unlock_event e = true -> P e = true) -> quiet P (decrypt_unlockKey o).
Proof.
  intros HP. unfold decrypt_unlockKey.
  apply quiet_bind; [now apply quiet_unlockKey | intros k].
  apply quiet_get. intros s.
  apply quiet_bind; [| intros _; apply quiet_ret].
  apply quiet_when, quiet_log, HP. reflexivity.
Qed.

Lemma quiet_sign_unlockKey P (noCache' : option bool) (o : unlockOptions Key) :
  (forall e, unlock_event e = true -> P e = true) -> quiet P (sign_unlockKey noCache' o).
Proof.
  intros HP. unfold sign_unlockKey. apply quiet_get. intros s.
  now apply quiet_unlockKey.
Qed.

Lemma quiet_run_engine {R} P (callback : option (unlockOptions Key -> M state event Key))
    (e : engine Key R) :
  (forall f o, callback = Some f -> quiet P (f o)) ->
  quiet P (run_engine callback e).
Proof.
  intros Hcb. induction e as [[err | r] | o k IH]; cbn.
  - apply quiet_throw.
  - apply quiet_ret.
  - destruct callback as [f |]; [| apply IH].
    intros s. destruct (Hcb f o eq_refl s) as (Hc & He).
    destruct (f o s) as [s1 evs1 r1]; cbn in *.
    destruct (IH r1 s1) as (Hc' & He').
    destruct (run_engine (Some f) (k r1) s1) as [s2 evs2 r2]; cbn in *.
    rewrite forallb_app, He, He'. split; [congruence | reflexivity].
Qed.

End Frame.

Section DraftRestore.
Context {C : Collaborators}.

Lemma unlock_event_not_shown (e : event) : unlock_event e = true -> not_shown e = true.
Proof.
  destruct e as [to n p | | | | | | | | |]; cbn; try discriminate; [| reflexivity].
  destruct to; try discriminate. unfold not_shown. cbn.
  destruct (String.eqb_spec n "show-pwd-dialog") as [-> | _]; [reflexivity |].
  destruct (String.eqb_spec n "encrypt-in-progress") as [-> | _]; [reflexivity |].
  destruct (String.eqb_spec n "hide-pwd-dialog") as [-> | _]; [reflexivity |].
  discriminate.
Qed.

Lemma decrypt_content_quiet (armored : string) :
  quiet not_shown (decrypt_content armored).
Proof.
  unfold decrypt_content. apply quiet_get. intros s.
  destruct (test "BEGIN PGP MESSAGE" armored).
  - apply quiet_bind; [now apply quiet_log | intros _].
    apply quiet_run_engine. intros f o [= <-].
    apply quiet_decrypt_unlockKey, unlock_event_not_shown.
  - destruct (test "BEGIN PGP SIGNED MESSAGE" armored); [| apply quiet_ret].
    apply quiet_bind; [now apply quiet_log | intros _].
    destruct (verifyMessage_model _ _ _) as [e | [data' signatures]];
      [apply quiet_throw |].
    destruct (decodeUtf8 data'); [apply quiet_throw | apply quiet_ret].
Qed.

Lemma one_valid_signature_count (signatures : option (list signature)) :
  one_valid_signature signatures = true -> count_valid signatures = 1.
Proof.
  destruct signatures as [[| sg [| sg' l]] |]; cbn; try discriminate.
  now intros ->.
Qed.

Lemma forallb_not_shown (l : list event) :
  forallb not_shown l = true ->
  existsb (is_emit "set-text") l = false /\ existsb (is_emit "decrypt-end") l = false.
Proof.
  induction l as [| e l IH]; cbn; [auto |].
  unfold not_shown at 1. intros H.
  apply andb_prop in H. destruct H as (He & Hl).
  apply andb_prop in He. destruct He as (H1 & H2).
  apply negb_true_iff in H1, H2. destruct (IH Hl) as (-> & ->).
  now rewrite H1, H2.
Qed.

(** C5.  With the [armoredDraft] option, unless the decryption yields
    a content with exactly one valid signature, [decryptArmored] ends in
    'decrypt-failed' and emits neither 'set-text' nor 'decrypt-end': the
    failure is the one of the decryption, or the one about the invalid
    signature. *)
Theorem draft_without_valid_signature_not_shown (s : state) (armored : string) :
  truthy (armoredDraft (options (ctrl s))) = true ->
  (forall data' signatures,
     res (decrypt_content armored s) = inr (data', signatures) ->
     count_valid signatures <> 1) ->
  let d := decrypt_content armored s in
  let o := decryptArmored armored s in
  res o = inr tt
  /\ existsb (is_emit "set-text") (evs o) = false
  /\ existsb (is_emit "decrypt-end") (evs o) = false
  /\ evs o = evs d ++
       [Emit Editor "decrypt-failed"
          (ErrorData (mapError
             match res d with
             | inl e => e
             | inr _ =>
                 mkError "Restoring of the draft failed due to invalid signature." None
             end))].
Proof.
  intros Hdraft Hsig d o. subst d o. unfold decryptArmored, try_catch, bind.
  destruct (decrypt_content_quiet armored s) as (Hc & He).
  destruct (decrypt_content armored s) as [s1 evs1 [e | [data' signatures]]];
    cbn in Hc, He, Hsig |- *.
  - destruct (forallb_not_shown _ He) as (H1 & H2).
    rewrite !existsb_app, H1, H2. repeat split; reflexivity.
  - unfold get, throw, ret. cbn. rewrite Hc, Hdraft.
    destruct (one_valid_signature signatures) eqn:Eone.
    + destruct (Hsig data' signatures eq_refl).
      now apply one_valid_signature_count.
    + cbn. rewrite app_nil_r. destruct (forallb_not_shown _ He) as (H1 & H2).
      rewrite !existsb_app, H1, H2. repeat split; reflexivity.
Qed.

End DraftRestore.

Section Cancellation.
Context {C : Collaborators}.

Lemma quiet_keeps {A} P (m : M state event A) : quiet P m -> keeps m.
Proof. intros H s. destruct (H s) as (-> & _). auto. Qed.

Lemma keeps_ret {A} (a : A) : keeps (ret a).
Proof. intros s. split; reflexivity. Qed.

Lemma keeps_throw {A} (e : jsError) : keeps (@throw state event A e).
Proof. intros s. split; reflexivity. Qed.

Lemma keeps_log (e : event) : keeps (log e).
Proof. intros s. split; reflexivity. Qed.

Lemma keeps_bind {A B} (m : M state event A) (k : A -> M state event B) :
  keeps m -> (forall a, keeps (k a)) -> keeps (bind m k).
Proof.
  intros Hm Hk s. unfold bind.
  destruct (Hm s) as (Hp & Hc). destruct (m s) as [s1 evs1 [e | a]]; cbn in *.
  - auto.
  - destruct (Hk a s1) as (Hp' & Hc'). destruct (k a s1) as [s2 evs2 r]; cbn in *.
    split; congruence.
Qed.

Lemma keeps_try_catch {A} (m : M state event A) (h : jsError -> M state event A) :
  keeps m -> (forall e, keeps (h e)) -> keeps (try_catch m h).
Proof.
  intros Hm Hh s. unfold try_catch.
  destruct (Hm s) as (Hp & Hc). destruct (m s) as [s1 evs1 [e | a]]; cbn in *.
  - destruct (Hh e s1) as (Hp' & Hc'). destruct (h e s1) as [s2 evs2 r]; cbn in *.
    split; congruence.
  - auto.
Qed.

Lemma keeps_when (b : bool) (m : M state event unit) : keeps m -> keeps (when b m).
Proof. destruct b; [auto | intros _; apply keeps_ret]. Qed.

Lemma keeps_get {A} (k : state -> M state event A) :
  (forall s, keeps (k s)) -> keeps (bind get k).
Proof. intros H. apply keeps_bind; [intros s; split; reflexivity | exact H]. Qed.

Lemma keeps_bind_val {A B} (Q : A -> Prop) (m : M state event A)
    (k : A -> M state event B) :
  keeps m -> (forall s a, res (m s) = inr a -> Q a) ->
  (forall a, Q a -> keeps (k a)) -> keeps (bind m k).
Proof.
  intros Hm HQ Hk s. unfold bind.
  destruct (Hm s) as (Hp & Hc). specialize (HQ s).
  destruct (m s) as [s1 evs1 [e | a]]; cbn in *.
  - auto.
  - destruct (Hk a (HQ a eq_refl) s1) as (Hp' & Hc').
    destruct (k a s1) as [s2 evs2 r]; cbn in *.
    split; congruence.
Qed.

Lemma keeps_run_engine {R} (noCache' : option bool) callback (e : engine Key R) :
  signing_callback noCache' callback -> keeps (run_engine callback e).
Proof.
  intros Hcb. apply (quiet_keeps (fun _ => true)), quiet_run_engine.
  intros f o Hf. destruct Hcb as [-> | ->]; [discriminate Hf |].
  injection Hf as <-. now apply quiet_sign_unlockKey.
Qed.

Lemma keeps_getPublicKeyFprs (keys : list keyData) : keeps (getPublicKeyFprs keys).
Proof.
  unfold getPublicKeyFprs. apply keeps_get. intros s.
  apply keeps_bind.
  - destruct (auto_add_primary (world s)); [| apply keeps_ret].
    destruct (keyring_getDefaultKeyFpr _ _); [apply keeps_throw | apply keeps_ret].
  - intros pushed. destruct (keyFprBuffer (ctrl s)); [| apply keeps_ret].
    apply keeps_bind; [| intros _; apply keeps_ret].
    intros s'. split; reflexivity.
Qed.

Lemma keeps_all_files (ops : list (M state event encFile)) :
  Forall keeps ops -> keeps (all_files ops).
Proof.
  induction 1 as [| op ops Hop _ IH]; cbn; [apply keeps_ret |].
  apply keeps_bind.
  - apply keeps_try_catch; [| intros e; apply keeps_ret].
    apply keeps_bind; [exact Hop | intros x; apply keeps_ret].
  - intros r. apply keeps_bind; [exact IH | intros rs; apply keeps_ret].
Qed.

Lemma keeps_encryptMessage (noCache' : option bool) data' keyFprs signKeyFpr' callback :
  signing_callback noCache' callback ->
  keeps (encryptMessage data' keyFprs signKeyFpr' callback noCache').
Proof.
  intros Hcb. unfold encryptMessage.
  apply keeps_bind; [apply keeps_log | intros _].
  apply keeps_get. intros s.
  apply keeps_bind; [apply keeps_log | intros _].
  now apply keeps_run_engine with (noCache' := noCache').
Qed.

Lemma keeps_encryptFiles (noCache' : option bool) files keyFprs signKeyFpr' callback :
  signing_callback noCache' callback ->
  keeps (encryptFiles files keyFprs signKeyFpr' callback noCache').
Proof.
  intros Hcb. unfold encryptFiles.
  apply keeps_bind; [apply keeps_log | intros _].
  apply keeps_bind.
  - apply keeps_all_files, Forall_map, Forall_forall. intros f _.
    unfold encryptFile. apply keeps_get. intros s.
    apply keeps_bind; [apply keeps_log | intros _].
    apply keeps_bind; [| intros x; apply keeps_ret].
    now apply keeps_run_engine with (noCache' := noCache').
  - intros rs. destruct (first_error rs); [apply keeps_throw | apply keeps_ret].
Qed.

Lemma keeps_signMessage (data' : string) (signKeyFpr' : option string) :
  keeps (signMessage data' signKeyFpr').
Proof.
  unfold signMessage. apply keeps_get. intros s.
  apply keeps_bind; [apply keeps_log | intros _].
  apply (quiet_keeps (fun _ => true)), quiet_run_engine.
  intros f o [= <-]. now apply quiet_unlockKey.
Qed.

Lemma keeps_signAndEncrypt (o : plaintext) : keeps (signAndEncrypt o).
Proof.
  unfold signAndEncrypt.
  destruct (action o =? "encrypt").
  - apply keeps_bind; [apply keeps_getPublicKeyFprs | intros keyFprs].
    apply keeps_bind_val with (Q := fun p => signing_callback (noCache o) (snd p)).
    + destruct (signMsg o); [| apply keeps_ret].
      apply keeps_get. intros s.
      destruct (negb _); [apply keeps_throw | apply keeps_ret].
    + intros s [f callback]. unfold bind, get, throw, ret.
      destruct (signMsg o); cbn.
      * destruct (negb _); cbn; [discriminate |].
        intros [= <- <-]. now right.
      * intros [= <- <-]. now left.
    + intros [signKeyFpr' callback] Hcb. cbn in Hcb.
      apply keeps_get. intros s.
      apply keeps_bind.
      * destruct (buildMail _ _ _) as [error | [mail |]]; try apply keeps_ret.
        apply keeps_bind; [apply keeps_when, keeps_log | intros _; apply keeps_ret].
      * intros [| | mail]; [| apply keeps_throw |];
          (apply keeps_bind; [now apply keeps_encryptMessage | intros armored];
           apply keeps_get; intros s0;
           destruct (pgpMIME (ctrl s0)); [apply keeps_ret |];
           destruct (if integration (ctrl s) && negb (pgpMIME (ctrl s))
                     then attachments o else Some []) as [[| f files'] |];
           try apply keeps_ret; try apply keeps_throw;
           apply keeps_bind; [now apply keeps_encryptFiles | intros x; apply keeps_ret]).
  - destruct (action o =? "sign"); [| apply keeps_ret].
    apply keeps_get. intros s.
    apply keeps_bind; [apply keeps_signMessage | intros armored; apply keeps_ret].
Qed.

(** C6, as the code has it.  When [signAndEncrypt] fails with the code
    PWD_DIALOG_CANCEL, what [onEditorPlaintext] does depends on the
    editor popup.  With a popup it emits 'hide-pwd-dialog' and nothing
    else; without one it reports the cancellation like any other
    failure: 'error-message' to the editor, and to the container when
    there is one, then 'encrypt-failed'. *)
Theorem cancel_silent_in_popup_only (s : state) (o : plaintext) (e : jsError) :
  res (signAndEncrypt o s) = inl e ->
  code e = Some "PWD_DIALOG_CANCEL" ->
  let r := signAndEncrypt o s in
  let o' := onEditorPlaintext o s in
  res o' = inr tt
  /\ st o' = st r
  /\ evs o' = evs r ++
       (if has_popup (ctrl s) then [Emit Self "hide-pwd-dialog" NoData]
        else [ConsoleLog e; Emit Editor "error-message" (ErrorData (mapError e))]
             ++ (if editorCont (ctrl s)
                 then [Emit EditorCont "error-message" (ErrorData (mapError e))]
                 else [])
             ++ [Emit Editor "encrypt-failed" NoData]).
Proof.
  intros Hres Hcode r o'. subst r o'. unfold onEditorPlaintext, try_catch, bind.
  destruct (keeps_signAndEncrypt o s) as (Hp & Hc).
  destruct (signAndEncrypt o s) as [s1 evs1 r1]. cbn in Hres, Hp, Hc |- *. subst r1.
  unfold get, log, when, ret. cbn. unfold has_popup. rewrite Hp, Hcode, Hc. cbn.
  destruct (popup (ctrl s)); cbn.
  - repeat split; reflexivity.
  - destruct (editorCont (ctrl s)); cbn; repeat split; reflexivity.
Qed.

End Cancellation.

Section PayloadAssembly.
Context {C : Collaborators}.

(** When [buildMail] returns [null], [signAndEncrypt] throws before it
    calls the engine. *)
Lemma null_mail_aborts (s : state) (o : plaintext) :
  action o = "encrypt" ->
  signMsg o = false ->
  auto_add_primary (world s) = false ->
  (forall mime files, buildMail o mime files = inr None) ->
  let r := signAndEncrypt o s in
  res r = inl (MvError "MIME building failed." None) /\ evs r = [].
Proof.
  intros Ha Hs Hp Hb r. subst r. unfold signAndEncrypt, getPublicKeyFprs.
  rewrite Ha, Hs. unfold_monad.
  destruct s as [c w]. destruct c as [ep ki po mi op ig kb sk ec]. cbn in Hp |- *.
  rewrite Hp. cbn. destruct kb; cbn; rewrite Hb; cbn; split; reflexivity.
Qed.

Lemma In_bind_l {A B} (m : M state event A) (k : A -> M state event B)
    (e : event) (s : state) :
  In e (evs (m s)) -> In e (evs (bind m k s)).
Proof.
  unfold bind. destruct (m s) as [s1 evs1 [err | a]]; cbn; [auto |].
  destruct (k a s1) as [s2 evs2 r]; cbn. intros H. apply in_or_app. now left.
Qed.

Lemma In_bind_r {A B} (m : M state event A) (k : A -> M state event B)
    (e : event) (s : state) (a : A) :
  res (m s) = inr a -> In e (evs (k a (st (m s)))) -> In e (evs (bind m k s)).
Proof.
  unfold bind. destruct (m s) as [s1 evs1 r1]; cbn. intros ->.
  destruct (k a s1) as [s2 evs2 r]; cbn. intros H. apply in_or_app. now right.
Qed.

(** When [buildMail] throws, [data] stays [undefined], which is not
    [null]: [signAndEncrypt] goes on and hands it to the engine. *)
Lemma build_exception_reaches_engine (s : state) (o : plaintext) (error : jsError) :
  action o = "encrypt" ->
  signMsg o = false ->
  auto_add_primary (world s) = false ->
  (forall mime files, buildMail o mime files = inl error) ->
  exists r, In (EncryptMessage Undefined r) (evs (signAndEncrypt o s)).
Proof.
  intros Ha Hs Hp Hb. unfold signAndEncrypt. rewrite Ha, Hs, String.eqb_refl.
  destruct (getPublicKeyFprs_pushed s (keysTo o ++ keysCc o ++ keysEx o) [])
    as (Hr & _); [now rewrite Hp |].
  eexists. eapply In_bind_r; [exact Hr |].
  eapply In_bind_r; [reflexivity |]. cbv beta iota.
  eapply In_bind_r; [reflexivity |]. cbv beta zeta. rewrite Hb.
  eapply In_bind_r with (a := Undefined).
  { unfold get, ret, when, log, bind. cbn. now destruct (editorCont _). }
  cbv beta iota. apply In_bind_l. unfold encryptMessage.
  eapply In_bind_r; [reflexivity |].
  eapply In_bind_r; [reflexivity |]. cbv beta zeta.
  apply In_bind_l. left. reflexivity.
Qed.

End PayloadAssembly.

Section OnTheScenario.
Import EditorScenario.

(** b@x.com has no key and is not found. *)
Lemma unresolved_recipient_witness :
  editorCont (ctrl (embedded office)) = true
  /\ res (lookupMissingKeys
            (getKeyByAddress (world (embedded office)) (Some "main") ["a@x.com"; "b@x.com"])
            (container_request "main" (embedded office)))
     = inr (Some [("a@x.com", Some ["AAAA"]); ("b@x.com", None)])
  /\ obj_get [("a@x.com", Some ["AAAA"]); ("b@x.com", @None (list string))] "b@x.com"
     = Some None
  /\ existsb (is_emit "get-plaintext")
       (evs (onEditorContainerEncrypt "main" ["a@x.com"; "b@x.com"] (embedded office)))
     = false.
Proof.
  split; [reflexivity | split; [reflexivity | split; [reflexivity |]]].
  apply (unresolved_recipient_blocks_encryption (embedded office) "main"
           ["a@x.com"; "b@x.com"] [("a@x.com", Some ["AAAA"]); ("b@x.com", None)]
           "b@x.com" eq_refl eq_refl eq_refl).
Defined.

(** The fingerprints for a letter to a@x.com, with the sender's key. *)
Example getPublicKeyFprs_example :
  res (getPublicKeyFprs (keysTo (letter "hi")) (in_popup office)) = inr ["AAAA"; "FFFF"].
Proof. reflexivity. Qed.

(** A draft that decrypts without a signature. *)
Lemma unsigned_draft_witness :
  truthy (armoredDraft
            (options (ctrl (restoring "-----BEGIN PGP MESSAGE----- draft text")))) = true
  /\ count_valid (@Some (list signature) []) <> 1
  /\ existsb (is_emit "set-text")
       (evs (decryptArmored "-----BEGIN PGP MESSAGE----- draft text"
               (restoring "-----BEGIN PGP MESSAGE----- draft text"))) = false.
Proof.
  split; [reflexivity | split; [discriminate |]].
  apply (draft_without_valid_signature_not_shown
           (restoring "-----BEGIN PGP MESSAGE----- draft text")
           "-----BEGIN PGP MESSAGE----- draft text" eq_refl).
  intros data' signatures [= _ <-]. discriminate.
Defined.

(** C6, as the claim has it, fails: in an embedded editor, which has no
    popup, the dismissed password dialog is reported as an error. *)
Lemma cancel_reported_without_popup :
  ~ cancel_is_silent (letter "hi") (embedded office_dismissing).
Proof.
  intros H.
  specialize (H (mkError "Password dialog canceled." (Some "PWD_DIALOG_CANCEL"))
                eq_refl eq_refl).
  discriminate H.
Qed.

(** The dismissed password dialog in the editor popup. *)
Lemma cancel_in_popup_witness :
  res (signAndEncrypt (letter "hi") (in_popup office_dismissing))
  = inl (mkError "Password dialog canceled." (Some "PWD_DIALOG_CANCEL"))
  /\ res (onEditorPlaintext (letter "hi") (in_popup office_dismissing)) = inr tt.
Proof.
  split; [reflexivity |].
  apply (cancel_silent_in_popup_only (in_popup office_dismissing) (letter "hi")
           (mkError "Password dialog canceled." (Some "PWD_DIALOG_CANCEL"))
           eq_refl eq_refl).
Defined.


(** C8 fails on a mail over the quota, for which [buildMail] throws: the
    container is told about the error, but the engine is called all the
    same, with [undefined] for the data, and what it returns is handed
    to the container as the encrypted message; no 'encrypt-failed'
    follows. *)
Theorem mime_exception_still_encrypts :
  let o := onEditorPlaintext (letter "too large") (embedded office) in
  buildMail (letter "too large") true None
  = inl (mkError "Mail content exceeds quota limit." (Some "ENCRYPT_QUOTA_SIZE"))
  /\ evs o =
     [Emit EditorCont "error-message"
        (ErrorData (mkError "Mail content exceeds quota limit."
                      (Some "ENCRYPT_QUOTA_SIZE")));
      Emit Editor "encrypt-in-progress" NoData;
      EncryptMessage Undefined
        {| ekeyringId := Some "main"; encryptionKeyFprs := ["AAAA"; "FFFF"];
           signingKeyFpr := Some "FFFF"; withUnlockKey := true; enoCache := None |};
      Emit Editor "encrypt-in-progress" NoData;
      Emit Editor "encrypt-end" NoData;
      Emit EditorCont "encrypted-message"
        (EncryptedMessage "-----BEGIN PGP MESSAGE----- undefined")]
  /\ existsb is_engine_encrypt (evs o) = true
  /\ existsb (is_emit "encrypt-failed") (evs o) = false.
Proof. repeat split; reflexivity. Qed.

End OnTheScenario.

End EditorProperties.

(** * Further properties of the import controller *)

Module ImportExtras.
Import ImportController.

Section ImportFlow.
Context {C : Collaborators}.

(** [importKey] for a public key that passes the checks and that the
    keyring does not know. *)
Lemma importKey_unknown_key (s : state) (keyringId' armored' : string)
    (rotation' : option bool) (kr : Keyring) (k : Key)
    (ty : string) (inf : KeyInfo) rest :
  getKeyringById (world s) keyringId' = inr kr ->
  readArmored_err armored' = None ->
  sanitizeKey (hd_error (readArmored_keys armored')) = Some k ->
  verifyPrimaryKey k <> invalid ->
  mapKeys (readArmored_keys armored') = (ty, inf) :: rest ->
  ty <> "private" ->
  getKeysForId (world s) kr (getFingerprint k) = None ->
  let o := importKey keyringId' armored' rotation' s in
  res o = inr AwaitPopup
  /\ popupPromise (ctrl (st o)) = Some Pending
  /\ world (st o) = world s
  /\ existsb is_import_keys (evs o) = false
  /\ existsb is_open_popup (evs o) = true
  /\ keyring (ctrl (st o)) = Some kr
  /\ armored (ctrl (st o)) = armor k.
Proof.
  intros Hg He Hs Hv Hm Hty Hk o. subst o.
  destruct s as [c w]. cbn in Hg, Hk. unfold importKey, importKey_try.
  generalize (1 <? length (readArmored_keys armored'))%nat as several.
  intros several.
  unfold openPopup, try_catch, bind, upd, modify, get, when, log, ret, throw. cbn.
  rewrite Hg, He. cbn. destruct several; cbn; rewrite Hs; cbn;
    (destruct (ImportProperties.keyStatus_eqb_spec (verifyPrimaryKey k) invalid)
       as [E | _]; [contradiction |]); cbn; rewrite Hm; cbn;
    (destruct (String.eqb_spec ty "private") as [E | _]; [contradiction |]); cbn;
    rewrite Hk; cbn; repeat split; reflexivity.
Qed.

(** X1.  A key the keyring does not know is not stored by [importKey]:
    for a public key that passes the checks, [importKey] opens the
    dialog and waits; the keyrings are the ones from before, and the
    controller holds the armored text of the sanitized key for the
    import that follows a confirmation. *)
Theorem unknown_key_asks_first (s : state) (keyringId' armored' : string)
    (rotation' : option bool) (kr : Keyring) (k : Key)
    (ty : string) (inf : KeyInfo) rest :
  getKeyringById (world s) keyringId' = inr kr ->
  readArmored_err armored' = None ->
  sanitizeKey (hd_error (readArmored_keys armored')) = Some k ->
  verifyPrimaryKey k <> invalid ->
  mapKeys (readArmored_keys armored') = (ty, inf) :: rest ->
  ty <> "private" ->
  getKeysForId (world s) kr (getFingerprint k) = None ->
  let o := importKey keyringId' armored' rotation' s in
  res o = inr AwaitPopup
  /\ popupPromise (ctrl (st o)) = Some Pending
  /\ world (st o) = world s
  /\ existsb is_import_keys (evs o) = false
  /\ existsb is_open_popup (evs o) = true
  /\ keyring (ctrl (st o)) = Some kr
  /\ armored (ctrl (st o)) = armor k.
Proof. exact (importKey_unknown_key s keyringId' armored' rotation' kr k ty inf rest). Qed.

(** X2.  A confirmation that the keyring accepts: [onImportOk] hands the
    armored text the controller holds to [importKeys], once, closes the
    popup and resolves the pending promise with 'IMPORTED'; the keyrings
    are the ones [importKeys] returns. *)
Theorem accepted_import_resolves (s : state) (kr : Keyring) :
  keyring (ctrl s) = Some kr ->
  popupPromise (ctrl s) = Some Pending ->
  rtype (fst (importKeys (world s) kr (armored (ctrl s)))) <> "error" ->
  let o := onImportOk s in
  res o = inr tt
  /\ evs o = ImportKeys kr (armored (ctrl s))
             :: match importPopup (ctrl s) with
                | Some p => [PopupClose p]
                | None => []
                end
  /\ world (st o) = snd (importKeys (world s) kr (armored (ctrl s)))
  /\ popupPromise (ctrl (st o)) = Some (Resolved "IMPORTED")
  /\ importPopup (ctrl (st o)) = None
  /\ importError (ctrl (st o)) = importError (ctrl s).
Proof.
  intros Hk Hp Hok o. subst o.
  destruct s as [c w]. destruct c as [i a pp ip ki k ks ky d ie inv rot].
  cbn in Hk, Hp, Hok |- *. subst k pp.
  unfold onImportOk. unfold_methods. cbn.
  destruct (importKeys w kr a) as [r w'] eqn:Ei. cbn in Hok |- *.
  destruct (String.eqb_spec (rtype r) "error") as [E | _]; [contradiction |].
  destruct ip; cbn; repeat split; reflexivity.
Qed.

(** X3.  Declining a confirmation that is neither flagged as invalidated
    nor marked by a failed import: the pending promise is resolved with
    'REJECTED', the popup is gone, and [importKeys] has not been called.
    Closing the window does not make the controller close it again. *)
Theorem declined_import_rejected (s : state) (decline : dialogEvent) :
  declines decline = true ->
  popupPromise (ctrl s) = Some Pending ->
  invalidated (ctrl s) = false ->
  importError (ctrl s) = false ->
  let o := handle decline s in
  res o = inr tt
  /\ popupPromise (ctrl (st o)) = Some (Resolved "REJECTED")
  /\ importPopup (ctrl (st o)) = None
  /\ world (st o) = world s
  /\ existsb is_import_keys (evs o) = false
  /\ (decline = PopupRemoved -> evs o = []).
Proof.
  intros Hd Hp Hi He o. subst o.
  destruct s as [c w]. destruct c as [i a pp ip ki k ks ky d ie inv rot].
  cbn in Hp, Hi, He |- *. subst pp inv ie.
  destruct decline; try discriminate Hd; unfold handle; unfold_methods; cbn;
    destruct ip; cbn; repeat split; try reflexivity; discriminate.
Qed.

Lemma handle_keeps_settled (e : dialogEvent) (s : state) (p : promise string) :
  popupPromise (ctrl s) = Some p ->
  settled p = true ->
  popupPromise (ctrl (st (try_catch (handle e) (fun _ => ret tt) s))) = Some p.
Proof.
  intros Hp Hs.
  destruct s as [c w]. destruct c as [i a pp ip ki k ks ky d ie inv rot].
  cbn in Hp. subst pp.
  destruct p as [| v | err]; [discriminate Hs | |];
    destruct e; unfold handle, onImportOk; unfold_methods; cbn;
    try reflexivity;
    try (destruct k as [kr |]; cbn; [| reflexivity];
         destruct (importKeys w kr a) as [r w']; cbn;
         destruct (rtype r =? "error"); cbn; [reflexivity |];
         destruct ip; reflexivity);
    destruct ip; cbn; destruct inv; cbn; try reflexivity; destruct ie; reflexivity.
Qed.

(** X4.  The promise of the dialog is settled once: when it has been
    resolved or rejected, no dialog event that follows, whether a
    confirmation, a cancellation or the closing of the window, changes
    what it was settled with. *)
Theorem settled_promise_stays (script : list dialogEvent) (s : state)
    (p : promise string) :
  popupPromise (ctrl s) = Some p ->
  settled p = true ->
  popupPromise (ctrl (st (dispatch script s))) = Some p.
Proof.
  revert s. induction script as [| e rest IH]; intros s Hp Hs; cbn; [exact Hp |].
  unfold bind.
  pose proof (handle_keeps_settled e s p Hp Hs) as H.
  destruct (try_catch (handle e) (fun _ => ret tt) s) as [s1 evs1 [err | []]] eqn:E.
  - exfalso. revert E. unfold try_catch, ret.
    destruct (handle e s) as [s0 evs0 [err0 | []]]; discriminate.
  - cbn in H. specialize (IH s1 H Hs).
    destruct (dispatch rest s1) as [s2 evs2 r2]. exact IH.
Qed.

(** X5.  What [importKey] stores by itself.  It calls [importKeys] only
    for a key the keyring already has, when the update leaves the status
    of the primary key as it is and changes the date of the last
    modification; in every other case the keyrings are the ones from
    before when it returns. *)
Theorem importKey_stores_silent_updates_only (s : state) (keyringId' armored' : string)
    (rotation' : option bool) :
  let o := importKey keyringId' armored' rotation' s in
  (exists kr k stockKey more,
     getKeyringById (world s) keyringId' = inr kr
     /\ sanitizeKey (hd_error (readArmored_keys armored')) = Some k
     /\ getKeysForId (world s) kr (getFingerprint k) = Some (stockKey :: more)
     /\ validity_before stockKey = validity_after stockKey k
     /\ modified_before stockKey <> modified_after stockKey k)
  \/ (existsb is_import_keys (evs o) = false /\ world (st o) = world s).
Proof.
  intros o. subst o.
  destruct (getKeyringById (world s) keyringId') as [e | kr] eqn:Hg.
  { right. destruct s as [c w]. cbn in Hg. unfold importKey, importKey_try.
    unfold_methods. cbn. rewrite Hg. cbn. split; reflexivity. }
  destruct (readArmored_err armored') as [errs |] eqn:He.
  { right. destruct s as [c w]. cbn in Hg. unfold importKey, importKey_try.
    unfold_methods. cbn. rewrite Hg, He. destruct errs; cbn; split; reflexivity. }
  destruct (sanitizeKey (hd_error (readArmored_keys armored'))) as [k |] eqn:Hs.
  2: { right. destruct s as [c w]. cbn in Hg. unfold importKey, importKey_try.
       generalize (1 <? length (readArmored_keys armored'))%nat as several.
       intros several. unfold_methods. cbn. rewrite Hg, He. cbn.
       destruct several; cbn; rewrite Hs; cbn; split; reflexivity. }
  destruct (ImportProperties.keyStatus_eqb_spec (verifyPrimaryKey k) invalid) as [Hv | Hv].
  { right. destruct s as [c w]. cbn in Hg. unfold importKey, importKey_try.
    generalize (1 <? length (readArmored_keys armored'))%nat as several.
    intros several. unfold_methods. cbn. rewrite Hg, He. cbn.
    destruct several; cbn; rewrite Hs; cbn; rewrite Hv; cbn; split; reflexivity. }
  destruct (mapKeys (readArmored_keys armored')) as [| [ty inf] rest] eqn:Hm.
  { right. destruct s as [c w]. cbn in Hg. unfold importKey, importKey_try.
    generalize (1 <? length (readArmored_keys armored'))%nat as several.
    intros several. unfold_methods. cbn. rewrite Hg, He. cbn.
    destruct several; cbn; rewrite Hs; cbn;
      (destruct (ImportProperties.keyStatus_eqb_spec (verifyPrimaryKey k) invalid);
       [contradiction |]); cbn; rewrite Hm; cbn; split; reflexivity. }
  destruct (String.eqb_spec ty "private") as [Hty | Hty].
  { right. subst ty. destruct s as [c w]. cbn in Hg. unfold importKey, importKey_try.
    generalize (1 <? length (readArmored_keys armored'))%nat as several.
    intros several. unfold_methods. cbn. rewrite Hg, He. cbn.
    destruct several; cbn; rewrite Hs; cbn;
      (destruct (ImportProperties.keyStatus_eqb_spec (verifyPrimaryKey k) invalid);
       [contradiction |]); cbn; rewrite Hm; cbn; split; reflexivity. }
  destruct (getKeysForId (world s) kr (getFingerprint k)) as [[| stockKey more] |] eqn:Hk.
  - right. destruct s as [c w]. cbn in Hg, Hk. unfold importKey, importKey_try.
    generalize (1 <? length (readArmored_keys armored'))%nat as several.
    intros several. unfold_methods. cbn. rewrite Hg, He. cbn.
    destruct several; cbn; rewrite Hs; cbn;
      (destruct (ImportProperties.keyStatus_eqb_spec (verifyPrimaryKey k) invalid);
       [contradiction |]); cbn; rewrite Hm; cbn;
      (destruct (String.eqb_spec ty "private"); [contradiction |]); cbn;
      rewrite Hk; cbn; split; reflexivity.
  - destruct (ImportProperties.importKey_reaches_updateKey s keyringId' armored'
                rotation' kr k stockKey ty inf rest more Hg He Hs Hv Hm Hty Hk)
      as (s1 & evs1 & Hkr & _ & _ & Hw1 & Hi1 & _ & Hst & _ & Hev).
    destruct (ImportProperties.keyStatus_eqb_spec (validity_before stockKey)
                (validity_after stockKey k)) as [Hval | Hval].
    + destruct (Z.eq_dec (modified_before stockKey) (modified_after stockKey k))
        as [Hmod | Hmod].
      * right.
        destruct (ImportProperties.updateKey_untouched s1 (getFingerprint k) stockKey k
                    Hval Hmod) as (_ & Hu & Hsu).
        rewrite Hev, Hst, existsb_app, Hi1, Hu, Hsu. split; [reflexivity | exact Hw1].
      * left. exists kr, k, stockKey, more. auto.
    + right.
      destruct (ImportProperties.updateKey_confirm s1 (getFingerprint k) stockKey k Hval)
        as (_ & Hu & Hwu & _).
      rewrite Hev, Hst, existsb_app, Hi1, Hu, Hwu. split; [reflexivity | exact Hw1].
  - right.
    destruct (importKey_unknown_key s keyringId' armored' rotation' kr k ty inf rest
                Hg He Hs Hv Hm Hty Hk) as (_ & _ & Hw & Hi & _).
    split; assumption.
Qed.

(** X6.  An armored text openpgp cannot read: [importKey] throws an error
    with the code IMPORT_ERROR and the message of the first error of the
    parser, before anything is asked or stored. *)
Theorem unreadable_key_rejected (s : state) (keyringId' armored' : string)
    (rotation' : option bool) (kr : Keyring) (e : jsError) (errs : list jsError) :
  getKeyringById (world s) keyringId' = inr kr ->
  readArmored_err armored' = Some (e :: errs) ->
  let o := importKey keyringId' armored' rotation' s in
  res o = inl (MvError (message e) (Some "IMPORT_ERROR"))
  /\ evs o = []
  /\ world (st o) = world s
  /\ popupPromise (ctrl (st o)) = popupPromise (ctrl s).
Proof.
  intros Hg He o. subst o. destruct s as [c w]. cbn in Hg.
  unfold importKey, importKey_try. unfold_methods. cbn. rewrite Hg, He. cbn.
  repeat split; reflexivity.
Qed.

(** X7.  A key that does not survive [sanitizeKey], or whose primary key
    is invalid: [importKey] throws 'Key is invalid.' with the code
    IMPORT_ERROR; it neither opens the dialog nor calls [importKeys]. *)
Theorem invalid_key_rejected (s : state) (keyringId' armored' : string)
    (rotation' : option bool) (kr : Keyring) :
  getKeyringById (world s) keyringId' = inr kr ->
  readArmored_err armored' = None ->
  match sanitizeKey (hd_error (readArmored_keys armored')) with
  | Some k => verifyPrimaryKey k = invalid
  | None => True
  end ->
  let o := importKey keyringId' armored' rotation' s in
  res o = inl (MvError "Key is invalid." (Some "IMPORT_ERROR"))
  /\ existsb is_import_keys (evs o) = false
  /\ existsb is_open_popup (evs o) = false
  /\ world (st o) = world s
  /\ popupPromise (ctrl (st o)) = popupPromise (ctrl s).
Proof.
  intros Hg He Hk o. subst o. destruct s as [c w]. cbn in Hg.
  unfold importKey, importKey_try.
  generalize (1 <? length (readArmored_keys armored'))%nat as several.
  intros several. unfold_methods. cbn. rewrite Hg, He. cbn.
  destruct (sanitizeKey (hd_error (readArmored_keys armored'))) as [k |];
    destruct several; cbn; rewrite ?Hk; cbn; repeat split; reflexivity.
Qed.

(** X8.  An update that needs no confirmation and that the keyring then
    refuses: the error [updateKey] throws is not the one of the [catch]
    of [importKey], whose promise is returned without [await]; it
    carries the message of the import result and no code. *)
Theorem silent_update_failure_not_wrapped (s : state) (keyringId' armored' : string)
    (rotation' : option bool) (kr : Keyring) (k stockKey : Key)
    (ty : string) (inf : KeyInfo) rest more :
  getKeyringById (world s) keyringId' = inr kr ->
  readArmored_err armored' = None ->
  sanitizeKey (hd_error (readArmored_keys armored')) = Some k ->
  verifyPrimaryKey k <> invalid ->
  mapKeys (readArmored_keys armored') = (ty, inf) :: rest ->
  ty <> "private" ->
  getKeysForId (world s) kr (getFingerprint k) = Some (stockKey :: more) ->
  validity_before stockKey = validity_after stockKey k ->
  modified_before stockKey <> modified_after stockKey k ->
  rtype (fst (importKeys (world s) kr (armor k))) = "error" ->
  let o := importKey keyringId' armored' rotation' s in
  res o = inl (Error (rmessage (fst (importKeys (world s) kr (armor k)))))
  /\ existsb is_open_popup (evs o) = false.
Proof.
  intros Hg He Hs Hv Hm Hty Hk Hval Hmod Herr o. subst o.
  destruct (ImportProperties.importKey_reaches_updateKey s keyringId' armored'
              rotation' kr k stockKey ty inf rest more Hg He Hs Hv Hm Hty Hk)
    as (s1 & evs1 & Hkr & Ha & _ & Hw1 & _ & Hp1 & _ & Hres & Hev).
  destruct (ImportProperties.updateKey_silent s1 (getFingerprint k) stockKey k kr
              Hkr Hval Hmod) as (Hu & _ & _ & Hr).
  rewrite Hres, Hr, Hev, Hu, existsb_app, Hp1, Ha, Hw1, Herr. split; reflexivity.
Qed.

(** X9.  [lookupKey] never throws.  When the registry has nothing for
    the address, nothing happens; when the import of what it found
    fails, the error goes to the console and nowhere else. *)
Theorem lookupKey_swallows_failures (keyringId' email : string)
    (rotation' : option bool) (i : string) (script : list dialogEvent) (w : World) :
  let o := lookupKey keyringId' email rotation' i script w in
  (exists b, res o = inr b)
  /\ (keyRegistry_lookup w email keyringId' = None ->
      res o = inr true /\ evs o = [] /\ world (st o) = w)
  /\ (forall armored' e,
        keyRegistry_lookup w email keyringId' = Some armored' ->
        res (importKey keyringId' armored' rotation' (mkState (new i) w)) = inl e ->
        res o = inr true
        /\ evs o = evs (importKey keyringId' armored' rotation' (mkState (new i) w))
                   ++ [ConsoleLog ("Key import after auto locate failed " ++ message e)]).
Proof.
  intros o. subst o. unfold lookupKey.
  destruct (keyRegistry_lookup w email keyringId') as [found |].
  - remember (importKey keyringId' found rotation') as import eqn:Himport.
    remember (await_popup script) as await eqn:Hawait.
    unfold try_catch, bind, log, ret.
    destruct (import (mkState (new i) w)) as [s1 evs1 [err | [v |]]] eqn:Ei; cbn.
    + split; [eauto | split; [discriminate |]].
      intros armored' e' [= <-]. rewrite <- Himport, Ei. cbn. intros [= <-].
      split; reflexivity.
    + split; [eauto | split; [discriminate |]].
      intros armored' e' [= <-]. rewrite <- Himport, Ei. discriminate.
    + destruct (await s1) as [s2 evs2 [err | v]]; cbn;
        (split; [eauto | split; [discriminate |]]);
        intros armored' e' [= <-]; rewrite <- Himport, Ei; discriminate.
  - cbn. split; [eauto | split; [auto | discriminate]].
Qed.

(** X10.  When the user closes the window of the dialog, the controller
    does not close it again, and the promise is settled as the cancel
    button settles it. *)
Theorem closed_window_settles_like_cancel (s : state) :
  let o := popupRemoved s in
  existsb is_popup_close (evs o) = false
  /\ importPopup (ctrl (st o)) = None
  /\ res o = res (handleCancel s)
  /\ popupPromise (ctrl (st o)) = popupPromise (ctrl (st (handleCancel s)))
  /\ world (st o) = world s.
Proof.
  intros o. subst o.
  destruct s as [c w]. destruct c as [i a pp ip ki k ks ky d ie inv rot].
  unfold_methods. cbn.
  destruct ip; cbn; destruct inv; cbn; destruct pp; cbn;
    try (destruct ie; cbn); repeat split; reflexivity.
Qed.

(** The ids of the users [importKey] collects, from a position on. *)
Lemma collectUsers_ids (k : Key) (us : list (option userIdPacket)) :
  (forall u, uid (parseUserId u) = uid u) ->
  forall index, user_ids (collectUsers k index us) = userId_positions index us.
Proof.
  intros Hp. induction us as [| [u |] us IH]; intros index; cbn;
    [reflexivity | | apply IH].
  rewrite Hp. cbn. f_equal. apply IH.
Qed.

(** The positions listed are the ones of the user ID packets. *)
Lemma userId_positions_In (us : list (option userIdPacket)) :
  forall index n,
    In n (userId_positions index us) <->
    index <= n /\ exists p, nth_error us (n - index) = Some (Some p).
Proof.
  induction us as [| [u |] us IH]; intros index n; cbn.
  - split; [contradiction |]. intros (_ & p & H).
    destruct (n - index); discriminate H.
  - rewrite IH. split.
    + intros [<- | (Hle & p & Hn)].
      * split; [lia |]. exists u. now rewrite Nat.sub_diag.
      * split; [lia |]. exists p.
        replace (n - index) with (S (n - S index)) by lia. exact Hn.
    + intros (Hle & p & Hn). destruct (Nat.eq_dec index n) as [-> | Hne]; [now left |].
      right. split; [lia |]. exists p.
      replace (n - index) with (S (n - S index)) in Hn by lia. exact Hn.
  - rewrite IH. split.
    + intros (Hle & p & Hn). split; [lia |]. exists p.
      replace (n - index) with (S (n - S index)) by lia. exact Hn.
    + intros (Hle & p & Hn). destruct (Nat.eq_dec index n) as [-> | Hne].
      * rewrite Nat.sub_diag in Hn. discriminate Hn.
      * split; [lia |]. exists p.
        replace (n - index) with (S (n - S index)) in Hn by lia. exact Hn.
Qed.

(** X11.  The [id] of a listed user is its position in [key.users]: the
    users [importKey] lists are the ones with a user ID packet, and a
    user attribute before them is counted.  It is assumed of
    [parseUserId] that it leaves the [id] alone. *)
Theorem listed_users_keep_positions (k : Key) (n : nat) :
  (forall u, uid (parseUserId u) = uid u) ->
  In n (user_ids (collectUsers k 0 (users k))) <->
  exists p, nth_error (users k) n = Some (Some p).
Proof.
  intros Hp. rewrite (collectUsers_ids k (users k) Hp 0), userId_positions_In.
  rewrite Nat.sub_0_r. split; [intros (_ & H); exact H | intros H; split; [lia | exact H]].
Qed.

End ImportFlow.

Section ExtrasOnTheScenario.
Import Scenario.

(** Bob's key is new to the keyring. *)
Lemma unknown_key_witness :
  getKeysForId (world idle) tt (getFingerprint bob) = None
  /\ res (importKey "main" "bob" None idle) = inr AwaitPopup.
Proof.
  split; [reflexivity |].
  apply (unknown_key_asks_first idle "main" "bob" None tt bob "public" tt []);
    reflexivity || discriminate.
Defined.

(** The user confirms the import of Bob's key. *)
Lemma accepted_import_witness :
  rtype (fst (importKeys (world confirming_bob) tt (armored (ctrl confirming_bob))))
  <> "error"
  /\ world (st (onImportOk confirming_bob)) = [bob; alice].
Proof.
  split; [discriminate |].
  apply (accepted_import_resolves confirming_bob tt eq_refl eq_refl).
  discriminate.
Defined.

(** The user closes the window instead. *)
Lemma declined_import_witness :
  popupPromise (ctrl confirming_bob) = Some Pending
  /\ popupPromise (ctrl (st (handle PopupRemoved confirming_bob)))
     = Some (Resolved "REJECTED").
Proof.
  split; [reflexivity |].
  apply (declined_import_rejected confirming_bob PopupRemoved
           eq_refl eq_refl eq_refl eq_refl).
Defined.

(** After the import of Bob's key, a cancellation and a second
    confirmation come too late. *)
Lemma settled_promise_witness :
  popupPromise (ctrl imported_bob) = Some (Resolved "IMPORTED")
  /\ popupPromise (ctrl (st (dispatch [DialogCancel; DialogOk; PopupRemoved] imported_bob)))
     = Some (Resolved "IMPORTED").
Proof.
  split; [reflexivity |].
  apply (settled_promise_stays [DialogCancel; DialogOk; PopupRemoved] imported_bob
           (Resolved "IMPORTED") eq_refl eq_refl).
Defined.

(** A text that is no key. *)
Lemma unreadable_key_witness :
  readArmored_err "hello" = Some [Error "Misformed armored text"]
  /\ res (importKey "main" "hello" None idle)
     = inl (MvError "Misformed armored text" (Some "IMPORT_ERROR")).
Proof.
  split; [reflexivity |].
  apply (unreadable_key_rejected idle "main" "hello" None tt
           (Error "Misformed armored text") [] eq_refl eq_refl).
Defined.

(** Carol's key where its primary key does not verify. *)
Lemma invalid_key_witness :
  @verifyPrimaryKey collaborators_with_photo carol = invalid
  /\ res (@importKey collaborators_with_photo "main" "carol" None
            (@mkState collaborators_with_photo (@new collaborators_with_photo "c1") [alice]))
     = inl (MvError "Key is invalid." (Some "IMPORT_ERROR")).
Proof.
  split; [reflexivity |].
  apply (@invalid_key_rejected collaborators_with_photo
           (@mkState collaborators_with_photo (@new collaborators_with_photo "c1") [alice])
           "main" "carol" None tt eq_refl eq_refl eq_refl).
Defined.

(** The update of Alice's key that the keyring cannot store. *)
Lemma silent_update_failure_witness :
  validity_before alice = validity_after alice alice_damaged
  /\ modified_before alice <> modified_after alice alice_damaged
  /\ rtype (fst (importKeys (world idle) tt (armor alice_damaged))) = "error"
  /\ res (importKey "main" "alice-damaged" None idle)
     = inl (Error "Key could not be stored").
Proof.
  split; [reflexivity | split; [discriminate | split; [reflexivity |]]].
  apply (silent_update_failure_not_wrapped idle "main" "alice-damaged" None tt
           alice_damaged alice "public" tt [] []);
    reflexivity || discriminate.
Defined.

(** The photo at position 0 is not listed; the two user IDs keep the
    positions 1 and 2. *)
Lemma listed_users_witness :
  (forall u, uid (@parseUserId collaborators_with_photo u) = uid u)
  /\ In 2 (user_ids (@collectUsers collaborators_with_photo alice 0
                       (@users collaborators_with_photo alice))).
Proof.
  split; [reflexivity |].
  apply (@listed_users_keep_positions collaborators_with_photo alice 2);
    [reflexivity | eexists; reflexivity].
Defined.

End ExtrasOnTheScenario.

End ImportExtras.

(** * Further properties of the editor controller *)

Module EditorExtras.
Import EditorController.

Section Preservation.
Context {C : Collaborators}.
Variable I : state -> state -> Prop.
Variable P : event -> bool.
Hypothesis I_refl : forall s, I s s.
Hypothesis I_trans : forall s1 s2 s3, I s1 s2 -> I s2 s3 -> I s1 s3.

Lemma preserves_ret {A} (a : A) : preserves I P (ret a).
Proof using I_refl I_trans. intros s. split; [apply I_refl | reflexivity]. Qed.

Lemma preserves_throw {A} (e : jsError) : preserves I P (@throw state event A e).
Proof using I_refl I_trans. intros s. split; [apply I_refl | reflexivity]. Qed.

Lemma preserves_log (e : event) : P e = true -> preserves I P (log e).
Proof using I_refl I_trans. intros H s. cbn. rewrite H. split; [apply I_refl | reflexivity]. Qed.

Lemma preserves_bind {A B} (m : M state event A) (k : A -> M state event B) :
  preserves I P m -> (forall a, preserves I P (k a)) -> preserves I P (bind m k).
Proof using I_refl I_trans.
  intros Hm Hk s. unfold bind.
  destruct (Hm s) as (Hi & He). destruct (m s) as [s1 evs1 [e | a]]; cbn in *.
  - auto.
  - destruct (Hk a s1) as (Hi' & He'). destruct (k a s1) as [s2 evs2 r]; cbn in *.
    rewrite forallb_app, He, He'. split; [eapply I_trans; eassumption | reflexivity].
Qed.

Lemma preserves_bind_val {A B} (Q : A -> Prop) (m : M state event A)
    (k : A -> M state event B) :
  preserves I P m -> (forall s a, res (m s) = inr a -> Q a) ->
  (forall a, Q a -> preserves I P (k a)) -> preserves I P (bind m k).
Proof using I_refl I_trans.
  intros Hm HQ Hk s. unfold bind.
  destruct (Hm s) as (Hi & He). specialize (HQ s).
  destruct (m s) as [s1 evs1 [e | a]]; cbn in *.
  - auto.
  - destruct (Hk a (HQ a eq_refl) s1) as (Hi' & He').
    destruct (k a s1) as [s2 evs2 r]; cbn in *.
    rewrite forallb_app, He, He'. split; [eapply I_trans; eassumption | reflexivity].
Qed.

Lemma preserves_try_catch {A} (m : M state event A) (h : jsError -> M state event A) :
  preserves I P m -> (forall e, preserves I P (h e)) -> preserves I P (try_catch m h).
Proof using I_refl I_trans.
  intros Hm Hh s. unfold try_catch.
  destruct (Hm s) as (Hi & He). destruct (m s) as [s1 evs1 [e | a]]; cbn in *.
  - destruct (Hh e s1) as (Hi' & He'). destruct (h e s1) as [s2 evs2 r]; cbn in *.
    rewrite forallb_app, He, He'. split; [eapply I_trans; eassumption | reflexivity].
  - auto.
Qed.

Lemma preserves_when (b : bool) (m : M state event unit) :
  preserves I P m -> preserves I P (when b m).
Proof using I_refl I_trans. destruct b; [auto | intros _; apply preserves_ret]. Qed.

Lemma preserves_get {A} (k : state -> M state event A) :
  (forall s, preserves I P (k s)) -> preserves I P (bind get k).
Proof using I_refl I_trans.
  intros H. apply preserves_bind; [| exact H].
  intros s. split; [apply I_refl | reflexivity].
Qed.

Lemma preserves_run_engine {R}
    (callback : option (unlockOptions Key -> M state event Key)) (e : engine Key R) :
  (forall f o, callback = Some f -> preserves I P (f o)) ->
  preserves I P (run_engine callback e).
Proof using I_refl I_trans.
  intros Hcb. induction e as [[err | r] | o k IH]; cbn.
  - apply preserves_throw.
  - apply preserves_ret.
  - destruct callback as [f |]; [| apply IH].
    intros s. destruct (Hcb f o eq_refl s) as (Hi & He).
    destruct (f o s) as [s1 evs1 r1]; cbn in *.
    destruct (IH r1 s1) as (Hi' & He').
    destruct (run_engine (Some f) (k r1) s1) as [s2 evs2 r2]; cbn in *.
    rewrite forallb_app, He, He'. split; [eapply I_trans; eassumption | reflexivity].
Qed.

Lemma preserves_all_files (ops : list (M state event encFile)) :
  Forall (preserves I P) ops -> preserves I P (all_files ops).
Proof using I_refl I_trans.
  induction 1 as [| op ops Hop _ IH]; cbn; [apply preserves_ret |].
  apply preserves_bind.
  - apply preserves_try_catch; [| intros e; apply preserves_ret].
    apply preserves_bind; [exact Hop | intros x; apply preserves_ret].
  - intros r. apply preserves_bind; [exact IH | intros rs; apply preserves_ret].
Qed.

End Preservation.

Section Recipients.
Context {C : Collaborators}.

Lemma obj_get_In {V} (o : list (string * V)) (k : string) (v : V) :
  obj_get o k = Some v -> In (k, v) o.
Proof.
  induction o as [| [k' v'] o IH]; cbn; [discriminate |].
  destruct (String.eqb_spec k' k) as [-> | _].
  - intros [= ->]. now left.
  - intros H. right. now apply IH.
Qed.

Lemma In_obj_get {V} (o : list (string * V)) (k : string) (v : V) :
  NoDup (map fst o) -> In (k, v) o -> obj_get o k = Some v.
Proof.
  induction o as [| [k' v'] o IH]; cbn; [contradiction |].
  intros Hnd [[= -> ->] | Hin].
  - now rewrite String.eqb_refl.
  - inversion Hnd as [| ? ? Hk' Hnd']; subst.
    destruct (String.eqb_spec k' k) as [-> | _]; [| now apply IH].
    destruct Hk'. apply (in_map fst) in Hin. exact Hin.
Qed.

Lemma obj_set_keys {V} (o : list (string * V)) (k : string) (v : V) :
  In k (map fst o) -> map fst (obj_set o k v) = map fst o.
Proof.
  induction o as [| [k' v'] o IH]; cbn; [contradiction |].
  destruct (String.eqb_spec k' k) as [-> | Hne]; [reflexivity |].
  intros [H | H]; [contradiction |]. cbn. f_equal. now apply IH.
Qed.

(** What [lookupMissingKeys] leaves alone: the addresses of the object
    and their order, and the keys of an address no entry of which is
    [false]. *)
Lemma lookupMissingKeys_entries_keeps entries :
  forall keyMap keyMap' s,
    (forall e, In e entries -> In (fst e) (map fst keyMap)) ->
    res (lookupMissingKeys_entries entries keyMap s) = inr (Some keyMap') ->
    map fst keyMap' = map fst keyMap
    /\ forall address ks,
         ~ In (address, None) entries ->
         obj_get keyMap address = Some ks -> obj_get keyMap' address = Some ks.
Proof.
  induction entries as [| [email' keys] rest IH]; intros keyMap keyMap' s Hin; cbn.
  - unfold ret; cbn. intros [= <-]. auto.
  - destruct keys as [l |].
    + intros Hres. destruct (IH keyMap keyMap' s) as (Hk & Hg); [auto with datatypes | exact Hres |].
      split; [exact Hk |]. intros address ks Hno. apply Hg. intros H. apply Hno. now right.
    + unfold_monad. cbn.
      destruct (lookupKey (world s) (keyringId (ctrl s)) email') as [w |]; cbn;
        [| discriminate].
      rewrite String.eqb_refl.
      match goal with
      | |- context [lookupMissingKeys_entries rest ?m ?s'] =>
          specialize (IH m keyMap' s');
          destruct (lookupMissingKeys_entries rest m s') as [s2 evs2 r2]
      end.
      cbn in *. intros Hres.
      assert (Hemail : In email' (map fst keyMap)) by (apply (Hin (email', None)); now left).
      destruct IH as (Hk & Hg); [| exact Hres |].
      { intros e He. rewrite obj_set_keys by exact Hemail. apply Hin. now right. }
      rewrite obj_set_keys in Hk by exact Hemail.
      split; [exact Hk |]. intros address ks Hno Hget. apply Hg.
      * intros H. apply Hno. now right.
      * rewrite EditorProperties.obj_get_set_other; [exact Hget |].
        intros ->. apply Hno. now left.
Qed.

(** X12.  [lookupMissingKeys] looks up the addresses without key only:
    the object keeps its addresses in their order, an address that had
    keys has the same keys afterwards, and when no address is without
    key nothing is looked up and nothing changes. *)
Theorem lookupMissingKeys_keeps_known_keys (s : state)
    (keyMap keyMap' : list (string * option (list PublicKey))) :
  NoDup (map fst keyMap) ->
  res (lookupMissingKeys keyMap s) = inr (Some keyMap') ->
  map fst keyMap' = map fst keyMap
  /\ (forall address ks,
        obj_get keyMap address = Some (Some ks) ->
        obj_get keyMap' address = Some (Some ks))
  /\ ((forall address, obj_get keyMap address <> Some None) ->
      keyMap' = keyMap /\ st (lookupMissingKeys keyMap s) = s).
Proof.
  intros Hnd Hres. unfold lookupMissingKeys in *.
  destruct (lookupMissingKeys_entries_keeps keyMap keyMap keyMap' s) as (Hk & Hg);
    [intros e He; now apply in_map | exact Hres |].
  split; [exact Hk |]. split.
  - intros address ks Hget. apply Hg; [| exact Hget].
    intros Hin. apply (In_obj_get _ _ _ Hnd) in Hin. congruence.
  - intros Hall.
    assert (Hno : forall e, In e keyMap -> snd e <> None).
    { intros [a [ks |]] Hin; cbn; [discriminate |].
      destruct (Hall a). now apply In_obj_get. }
    clear Hk Hg Hnd Hall. revert Hres Hno.
    generalize keyMap at 1 3 5 as entries.
    induction entries as [| [email' keys] rest IH]; cbn.
    + unfold ret; cbn. intros [= <-] _. auto.
    + intros Hres Hno. destruct keys as [l |].
      * apply IH; [exact Hres | auto with datatypes].
      * destruct (Hno (email', None)); [now left | reflexivity].
Qed.


Lemma obj_get_mapAddressKeyMapToFpr (keyMap : list (string * option (list PublicKey)))
    (address : string) :
  obj_get (mapAddressKeyMapToFpr keyMap) address
  = option_map (option_map (map keyFingerprint)) (obj_get keyMap address).
Proof.
  unfold mapAddressKeyMapToFpr.
  induction keyMap as [| [k v] keyMap IH]; cbn; [reflexivity |].
  destruct (k =? address); [reflexivity | exact IH].
Qed.

(** The fingerprints [onEditorContainerEncrypt] collects are the ones the
    map has for the recipients. *)
Lemma concatFprs_In (keyFprMap : list (string * option (list string)))
    (recipients : list string) (f : string) :
  In f (concatFprs keyFprMap recipients) <->
  exists r fprs, In r recipients /\ obj_get keyFprMap r = Some (Some fprs) /\ In f fprs.
Proof.
  unfold concatFprs.
  assert (H : forall acc,
             In f (fold_left
                     (fun keyFprs recipient =>
                        match obj_get keyFprMap recipient with
                        | Some (Some fprs) => keyFprs ++ fprs
                        | _ => keyFprs
                        end) recipients acc) <->
             In f acc
             \/ exists r fprs,
                  In r recipients /\ obj_get keyFprMap r = Some (Some fprs) /\ In f fprs).
  { induction recipients as [| r recipients IH]; intros acc; cbn.
    - split; [now left | intros [H | (r & fprs & [] & _)]; exact H].
    - rewrite IH. split.
      + intros [Hacc | (r' & fprs & Hin & Hget & Hf)].
        * destruct (obj_get keyFprMap r) as [[fprs |] |] eqn:Er; try now left.
          apply in_app_or in Hacc. destruct Hacc as [Hacc | Hf]; [now left |].
          right. exists r, fprs. auto.
        * right. exists r', fprs. auto.
      + intros [Hacc | (r' & fprs & [<- | Hin] & Hget & Hf)].
        * left. destruct (obj_get keyFprMap r) as [[fprs |] |]; try assumption.
          apply in_or_app. now left.
        * left. rewrite Hget. apply in_or_app. now right.
        * right. exists r', fprs. auto. }
  rewrite H. cbn. split; [intros [[] | H']; exact H' | now right].
Qed.

(** X13.  When every recipient has a key after the lookup of the missing
    keys, [onEditorContainerEncrypt] stores in the buffer the
    fingerprints of exactly the keys of the recipients, without
    duplicates, has these keys synchronised, and then asks the editor
    for the plaintext; nothing is reported to the container. *)
Theorem resolved_recipients_fill_buffer (s : state) (keyringId' : string)
    (recipients : list string)
    (keyMap : list (string * option (list PublicKey))) :
  res (lookupMissingKeys (getKeyByAddress (world s) (Some keyringId') recipients)
         (container_request keyringId' s)) = inr (Some keyMap) ->
  some_false (mapAddressKeyMapToFpr keyMap) = false ->
  let o := onEditorContainerEncrypt keyringId' recipients s in
  exists buffer,
    res o = inr true
    /\ keyFprBuffer (ctrl (st o)) = Some buffer
    /\ evs o = [SyncPublicKeys (Some keyringId') buffer;
                Emit Editor "get-plaintext" (GetPlaintext "encrypt" false)]
    /\ NoDup buffer
    /\ forall f,
         In f buffer <->
         exists r ks,
           In r recipients /\ obj_get keyMap r = Some (Some ks)
           /\ In f (map keyFingerprint ks).
Proof.
  intros Hlook Hfalse o. subst o.
  exists (sortAndDeDup (concatFprs (mapAddressKeyMapToFpr keyMap) recipients)).
  unfold onEditorContainerEncrypt, lookupMissingKeys, container_request in *.
  unfold_monad. cbn.
  match type of Hlook with
  | res (lookupMissingKeys_entries ?e ?m ?s') = _ =>
      destruct (EditorProperties.lookupMissingKeys_entries_frame e m s') as (He & Hc & _);
      destruct (lookupMissingKeys_entries e m s') as [s2 evs2 r2]
  end.
  cbn in Hlook, He, Hc |- *. subst r2 evs2.
  rewrite Hfalse. cbn.
  split; [reflexivity |]. split; [reflexivity |]. split; [reflexivity |].
  split; [apply SortFacts.sortAndDeDup_NoDup |].
  intros f. rewrite SortFacts.sortAndDeDup_In, concatFprs_In. split.
  - intros (r & fprs & Hin & Hget & Hf).
    rewrite obj_get_mapAddressKeyMapToFpr in Hget.
    destruct (obj_get keyMap r) as [[ks |] |] eqn:Er; try discriminate.
    cbn in Hget. injection Hget as Hget. subst fprs. exists r, ks. auto.
  - intros (r & ks & Hin & Hget & Hf).
    exists r, (map keyFingerprint ks). rewrite obj_get_mapAddressKeyMapToFpr, Hget. auto.
Qed.

End Recipients.


Section Drafts.
Context {C : Collaborators}.

Lemma sortAndDeDup_one (d : string) : sortAndDeDup [d] = [d].
Proof. reflexivity. Qed.

Lemma sortAndDeDup_twice (d : string) : sortAndDeDup [d; d] = [d].
Proof.
  unfold sortAndDeDup. cbn. unfold String.leb.
  rewrite SortFacts.compare_refl. cbn. now rewrite String.eqb_refl.
Qed.

(** X14.  A draft is encrypted to the user's own key only.  With a
    default key in the keyring, [onEditorContainerCreateDraft] asks the
    editor for the plaintext of a draft, and the fingerprints
    [getPublicKeyFprs] then returns are the one of that key, whatever
    the recipients of the message are and whether the sender's key is
    added automatically or not. *)
Theorem draft_encrypted_to_own_key_only (s : state) (keyringId' d : string) :
  keyring_getDefaultKeyFpr (world s) (Some keyringId') = inr (Some d) ->
  d <> "" ->
  let o := onEditorContainerCreateDraft keyringId' s in
  res o = inr tt
  /\ evs o = [Emit Editor "get-plaintext" (GetPlaintext "encrypt" true)]
  /\ reason (options (ctrl (st o))) = Some "PWD_DIALOG_REASON_CREATE_DRAFT"
  /\ forall keys, res (getPublicKeyFprs keys (st o)) = inr [d].
Proof.
  intros Hd Hne o. subst o.
  destruct s as [c w]. destruct c as [ep ki po mi op ig kb sk ec]. cbn in Hd.
  unfold onEditorContainerCreateDraft, getPublicKeyFprs. unfold_monad. cbn.
  rewrite Hd. cbn.
  destruct (String.eqb_spec d "") as [-> | _]; [now destruct Hne |]. cbn.
  repeat split. intros keys. rewrite Hd.
  destruct (auto_add_primary w); cbn.
  - destruct (String.eqb_spec d "") as [-> | _]; [now destruct Hne |]. cbn.
    exact (f_equal inr (sortAndDeDup_twice d)).
  - reflexivity.
Qed.

(** X15.  Without a default key in the keyring no draft is made:
    [onEditorContainerCreateDraft] reports NO_KEY_FOR_ENCRYPTION to the
    container, does not ask the editor for the plaintext, and leaves the
    buffer of fingerprints as it was. *)
Theorem draft_without_default_key (s : state) (keyringId' : string) (d : option string) :
  editorCont (ctrl s) = true ->
  keyring_getDefaultKeyFpr (world s) (Some keyringId') = inr d ->
  truthy d = false ->
  let o := onEditorContainerCreateDraft keyringId' s in
  res o = inr tt
  /\ evs o = [Emit EditorCont "error-message"
                (ErrorData (mkError "No private key found for creating draft."
                              (Some "NO_KEY_FOR_ENCRYPTION")))]
  /\ existsb (is_emit "get-plaintext") (evs o) = false
  /\ keyFprBuffer (ctrl (st o)) = keyFprBuffer (ctrl s).
Proof.
  intros Hcont Hd Hfalse o. subst o.
  destruct s as [c w]. destruct c as [ep ki po mi op ig kb sk ec]. cbn in Hd, Hcont.
  unfold onEditorContainerCreateDraft. unfold_monad. cbn.
  rewrite Hd, Hfalse. cbn. rewrite Hcont. cbn. repeat split.
Qed.

(** X16.  With a buffer of fingerprints, [getPublicKeyFprs] pushes the
    fingerprint of the sender's key onto the buffer itself: after [n]
    calls the buffer has it [n] times more, although every call returns
    a list without duplicates.  The buffer is the array that is handed
    to [sortAndDeDup], so only its elements are stated here, not their
    order. *)
Theorem buffer_grows_with_every_call (keys : list keyData) (d : string) (n : nat) :
  forall (s : state) (b : list string),
    keyFprBuffer (ctrl s) = Some b ->
    auto_add_primary (world s) = true ->
    keyring_getDefaultKeyFpr (world s) (keyringId (ctrl s)) = inr (Some d) ->
    d <> "" ->
    let o := getPublicKeyFprs_times n keys s in
    res o = inr tt
    /\ exists buffer,
         keyFprBuffer (ctrl (st o)) = Some buffer
         /\ Permutation buffer (b ++ repeat d n)
         /\ count_occ string_dec buffer d = count_occ string_dec b d + n.
Proof.
  assert (Hcount : forall buffer b m,
             Permutation buffer (b ++ repeat d m) ->
             count_occ string_dec buffer d = count_occ string_dec b d + m).
  { assert (Hrep : forall m, count_occ string_dec (repeat d m) d = m).
    { induction m as [| m IHm]; cbn; [reflexivity |].
      destruct (string_dec d d) as [_ | Hne]; [now rewrite IHm | now destruct Hne]. }
    intros buffer b m Hp.
    rewrite (proj1 (Permutation_count_occ string_dec _ _) Hp d), count_occ_app.
    now rewrite Hrep. }
  induction n as [| n IH]; intros s b Hb Ha Hd Hne o; subst o.
  - cbn. split; [reflexivity |]. exists b. rewrite app_nil_r.
    split; [exact Hb |]. split; [apply Permutation_refl |]. now rewrite Nat.add_0_r.
  - destruct (EditorProperties.getPublicKeyFprs_pushed s keys [d]) as (Hr & Hw & Hk & Hbuf).
    { rewrite Ha. exists (Some d). split; [exact Hd |]. cbn.
      destruct (String.eqb_spec d "") as [-> | _]; [now destruct Hne | reflexivity]. }
    rewrite Hb in Hbuf. change (option_map _ (Some b)) with (Some (b ++ [d])) in Hbuf.
    change (getPublicKeyFprs_times (S n) keys s)
      with (bind (getPublicKeyFprs keys) (fun _ => getPublicKeyFprs_times n keys) s).
    unfold bind.
    destruct (getPublicKeyFprs keys s) as [s1 evs1 r1].
    cbn [res st evs] in Hr, Hw, Hk, Hbuf. subst r1.
    destruct (IH s1 (b ++ [d]) Hbuf) as (Hres & buffer & Hfin & Hperm & _).
    + now rewrite Hw.
    + now rewrite Hw, Hk.
    + exact Hne.
    + destruct (getPublicKeyFprs_times n keys s1) as [s2 evs2 r2].
      cbn [res st evs] in *.
      split; [exact Hres |]. exists buffer. split; [exact Hfin |].
      assert (Hp : Permutation buffer (b ++ repeat d (S n))).
      { rewrite <- app_assoc in Hperm. exact Hperm. }
      split; [exact Hp | now apply Hcount].
Qed.

End Drafts.


Section Relations.
Context {C : Collaborators}.

Lemma same_but_buffer_refl (s : state) : same_but_buffer s s.
Proof. unfold same_but_buffer. destruct s as [c w]. destruct c. reflexivity. Qed.

Lemma same_but_buffer_trans (s1 s2 s3 : state) :
  same_but_buffer s1 s2 -> same_but_buffer s2 s3 -> same_but_buffer s1 s3.
Proof.
  unfold same_but_buffer. intros H1 H2. rewrite H2, H1.
  destruct (ctrl s1). reflexivity.
Qed.

Lemma same_but_buffer_set (s : state) (b : option (list string)) :
  same_but_buffer s (mkState (set_keyFprBuffer b (ctrl s)) (world s)).
Proof. unfold same_but_buffer. destruct s as [c w]. destruct c. reflexivity. Qed.

Lemma same_but_buffer_ctrl (s s' : state) : ctrl s' = ctrl s -> same_but_buffer s s'.
Proof. unfold same_but_buffer. intros ->. destruct (ctrl s). reflexivity. Qed.

Lemma same_world_refl (s : state) : same_world s s.
Proof. reflexivity. Qed.

Lemma same_world_trans (s1 s2 s3 : state) :
  same_world s1 s2 -> same_world s2 s3 -> same_world s1 s3.
Proof. unfold same_world. congruence. Qed.

Lemma forallb_existsb {A} (P Q : A -> bool) (l : list A) :
  (forall e, P e = true -> Q e = false) -> forallb P l = true -> existsb Q l = false.
Proof.
  intros H. induction l as [| e l IH]; cbn; [reflexivity |].
  intros Hl. apply andb_prop in Hl. destruct Hl as (He & Hl).
  now rewrite (H e He), (IH Hl).
Qed.

Lemma forallb_weaken {A} (P Q : A -> bool) (l : list A) :
  (forall e, P e = true -> Q e = true) -> forallb P l = true -> forallb Q l = true.
Proof.
  intros H. induction l as [| e l IH]; cbn; [reflexivity |].
  intros Hl. apply andb_prop in Hl. destruct Hl as (He & Hl).
  now rewrite (H e He), (IH Hl).
Qed.

Lemma quiet_same_but_buffer {A} P (m : M state event A) :
  quiet P m -> preserves same_but_buffer P m.
Proof.
  intros H s. destruct (H s) as (Hc & He). split; [| exact He].
  now apply same_but_buffer_ctrl.
Qed.

Lemma unlock_event_engine_event (e : event) :
  unlock_event e = true -> engine_event e = true.
Proof.
  destruct e as [to n p | | | | | | | | |]; cbn; try discriminate; try reflexivity.
  destruct to; try discriminate. auto.
Qed.

End Relations.

Ltac pres_rel :=
  first [ exact same_but_buffer_refl | exact same_but_buffer_trans
        | exact same_world_refl | exact same_world_trans ].
Ltac pres_ret := apply preserves_ret; pres_rel.
Ltac pres_throw := apply preserves_throw; pres_rel.
Ltac pres_log := apply preserves_log; [pres_rel | pres_rel | try reflexivity].
Ltac pres_bind := apply preserves_bind; [pres_rel | pres_rel | |].
Ltac pres_get := apply preserves_get; [pres_rel | pres_rel |].
Ltac pres_when := apply preserves_when; [pres_rel | pres_rel |].
Ltac pres_try := apply preserves_try_catch; [pres_rel | pres_rel | |].

Section Paths.
Context {C : Collaborators}.

Lemma getPublicKeyFprs_same_but_buffer P (keys : list keyData) :
  preserves same_but_buffer P (getPublicKeyFprs keys).
Proof.
  unfold getPublicKeyFprs. pres_get. intros s. pres_bind.
  - destruct (auto_add_primary (world s)); [| pres_ret].
    destruct (keyring_getDefaultKeyFpr _ _); [pres_throw | pres_ret].
  - intros pushed. destruct (keyFprBuffer (ctrl s)); [| pres_ret].
    pres_bind; [| intros _; pres_ret].
    intros s'. split; [apply same_but_buffer_set | reflexivity].
Qed.

Lemma engine_same_but_buffer {R} (noCache' : option bool) callback (e : engine Key R) :
  signing_callback noCache' callback ->
  preserves same_but_buffer engine_event (run_engine callback e).
Proof.
  intros Hcb. apply quiet_same_but_buffer, EditorProperties.quiet_run_engine.
  intros f o Hf. destruct Hcb as [-> | ->]; [discriminate Hf |].
  injection Hf as <-.
  apply EditorProperties.quiet_sign_unlockKey, unlock_event_engine_event.
Qed.

Lemma encryptMessage_same_but_buffer (noCache' : option bool) data' keyFprs signKeyFpr'
    callback :
  signing_callback noCache' callback ->
  preserves same_but_buffer engine_event
    (encryptMessage data' keyFprs signKeyFpr' callback noCache').
Proof.
  intros Hcb. unfold encryptMessage.
  pres_bind; [pres_log | intros _].
  pres_get. intros s.
  pres_bind; [pres_log | intros _].
  now apply engine_same_but_buffer with (noCache' := noCache').
Qed.

Lemma encryptFiles_same_but_buffer (noCache' : option bool) files keyFprs signKeyFpr'
    callback :
  signing_callback noCache' callback ->
  preserves same_but_buffer engine_event
    (encryptFiles files keyFprs signKeyFpr' callback noCache').
Proof.
  intros Hcb. unfold encryptFiles.
  pres_bind; [pres_log | intros _].
  pres_bind.
  - apply preserves_all_files; [pres_rel | pres_rel |].
    apply Forall_map, Forall_forall. intros f _.
    unfold encryptFile. pres_get. intros s.
    pres_bind; [pres_log | intros _].
    pres_bind; [| intros x; pres_ret].
    now apply engine_same_but_buffer with (noCache' := noCache').
  - intros rs. destruct (first_error rs); [pres_throw | pres_ret].
Qed.

Lemma signMessage_quiet P (data' : string) (signKeyFpr' : option string) :
  (forall e, unlock_event e = true -> P e = true) ->
  (forall k, P (SignMessage data' k signKeyFpr') = true) ->
  quiet P (signMessage data' signKeyFpr').
Proof.
  intros Hu Hs. unfold signMessage. apply EditorProperties.quiet_get. intros s.
  apply EditorProperties.quiet_bind; [apply EditorProperties.quiet_log, Hs | intros _].
  apply EditorProperties.quiet_run_engine. intros f o [= <-].
  apply EditorProperties.quiet_unlockKey, Hu.
Qed.

(** [signAndEncrypt] changes no field of the controller but the buffer
    of fingerprints, and emits the events of the engine only. *)
Lemma signAndEncrypt_same_but_buffer (o : plaintext) :
  preserves same_but_buffer engine_event (signAndEncrypt o).
Proof.
  unfold signAndEncrypt.
  destruct (action o =? "encrypt").
  - pres_bind; [apply getPublicKeyFprs_same_but_buffer | intros keyFprs].
    apply preserves_bind_val
      with (Q := fun p => signing_callback (noCache o) (snd p)); [pres_rel | pres_rel | | |].
    + destruct (signMsg o); [| pres_ret].
      pres_get. intros s.
      destruct (negb _); [pres_throw | pres_ret].
    + intros s [f callback]. unfold bind, get, throw, ret.
      destruct (signMsg o); cbn.
      * destruct (negb _); cbn; [discriminate |].
        intros [= <- <-]. now right.
      * intros [= <- <-]. now left.
    + intros [signKeyFpr' callback] Hcb. cbn in Hcb.
      pres_get. intros s.
      pres_bind.
      * destruct (buildMail _ _ _) as [error | [mail |]]; try pres_ret.
        pres_bind; [pres_when; pres_log | intros _; pres_ret].
      * intros [| | mail]; [| pres_throw |];
          (pres_bind; [now apply encryptMessage_same_but_buffer | intros armored];
           pres_get; intros s0;
           destruct (pgpMIME (ctrl s0)); [pres_ret |];
           destruct (if integration (ctrl s) && negb (pgpMIME (ctrl s))
                     then attachments o else Some []) as [[| f files'] |];
           try pres_ret; try pres_throw;
           pres_bind; [now apply encryptFiles_same_but_buffer | intros x; pres_ret]).
  - destruct (action o =? "sign"); [| pres_ret].
    pres_get. intros s.
    pres_bind; [| intros armored; pres_ret].
    apply quiet_same_but_buffer, signMessage_quiet;
      [apply unlock_event_engine_event | reflexivity].
Qed.


(** X17.  A message that is to be signed while neither the options nor
    the keyring name a signing key is not encrypted: [signAndEncrypt]
    fails with NO_DEFAULT_KEY_FOUND (or with the error of the keyring
    when the sender's key cannot be asked for) before the mail is built,
    without a call of the engine and without any event. *)
Theorem missing_signing_key_stops_encryption (s : state) (o : plaintext) :
  action o = "encrypt" ->
  signMsg o = true ->
  truthy (signing_key o s) = false ->
  let r := signAndEncrypt o s in
  evs r = []
  /\ match res (getPublicKeyFprs (keysTo o ++ keysCc o ++ keysEx o) s) with
     | inl e => res r = inl e
     | inr _ =>
         res r = inl (MvError "No private key found to sign this message."
                        (Some "NO_DEFAULT_KEY_FOUND"))
     end.
Proof.
  intros Ha Hs Hkey r. subst r. unfold signAndEncrypt, getPublicKeyFprs, signing_key in *.
  rewrite Ha, Hs. unfold_monad.
  destruct s as [c w]. destruct c as [ep ki po mi op ig kb sk ec]. cbn in Hkey |- *.
  destruct (auto_add_primary w); cbn.
  - destruct (keyring_getDefaultKeyFpr w ki) as [e | d]; cbn; [auto |].
    destruct kb; cbn; rewrite Hkey; cbn; auto.
  - destruct kb; cbn; rewrite Hkey; cbn; auto.
Qed.


Lemma upd_same_world P (f : controller -> controller) : preserves same_world P (upd f).
Proof. intros s. split; reflexivity. Qed.

Lemma getPublicKeyFprs_same_world P (keys : list keyData) :
  preserves same_world P (getPublicKeyFprs keys).
Proof.
  unfold getPublicKeyFprs. pres_get. intros s. pres_bind.
  - destruct (auto_add_primary (world s)); [| pres_ret].
    destruct (keyring_getDefaultKeyFpr _ _); [pres_throw | pres_ret].
  - intros pushed. destruct (keyFprBuffer (ctrl s)); [| pres_ret].
    pres_bind; [apply upd_same_world | intros _; pres_ret].
Qed.

Lemma onEditorClose_same_world P (cancel : bool) :
  (forall p, P (PopupClose p) = true) -> preserves same_world P (onEditorClose cancel).
Proof.
  intros HP. unfold onEditorClose. pres_get. intros s.
  destruct (popup (ctrl s)) as [p |]; [| pres_ret].
  pres_bind; [pres_log; apply HP | intros _].
  pres_bind; [apply upd_same_world | intros _].
  destruct cancel; [| pres_ret].
  destruct (encryptPromise (ctrl s)); [apply upd_same_world | pres_throw].
Qed.

Lemma transferEncrypted_same_world P (e : encrypted) (subject' : string)
    (to cc : list keyData) :
  (forall a, P (Emit EditorCont "encrypted-message" (EncryptedMessage a)) = true) ->
  preserves same_world P (transferEncrypted e subject' to cc).
Proof.
  intros HP. unfold transferEncrypted. pres_get. intros s.
  destruct (editorCont (ctrl s)); [pres_log; apply HP |].
  destruct (encryptPromise (ctrl s)); [apply upd_same_world | pres_throw].
Qed.

(** Without signature the whole of [onEditorPlaintext] leaves the world
    alone. *)
Lemma unsigned_plaintext_same_world (o : plaintext) :
  action o = "encrypt" ->
  signMsg o = false ->
  preserves same_world unsigned_event (onEditorPlaintext o).
Proof.
  intros Ha Hs. unfold onEditorPlaintext. pres_try.
  - pres_bind.
    + unfold signAndEncrypt. rewrite Ha, Hs, String.eqb_refl.
      pres_bind; [apply getPublicKeyFprs_same_world | intros keyFprs].
      apply preserves_bind_val
        with (Q := fun p : option string * option (unlockOptions Key -> M state event Key) =>
                     p = (None, None));
        [pres_rel | pres_rel | pres_ret | |].
      * intros s p. unfold ret. cbn. now intros [= <-].
      * intros p ->. pres_get. intros s.
        pres_bind.
        -- destruct (buildMail _ _ _) as [error | [mail |]]; try pres_ret.
           pres_bind; [pres_when; pres_log | intros _; pres_ret].
        -- intros data'.
           assert (Hm : preserves same_world unsigned_event
                          (encryptMessage data' keyFprs None None (noCache o))).
           { unfold encryptMessage. pres_bind; [pres_log | intros _].
             pres_get. intros s0. pres_bind; [pres_log | intros _].
             apply preserves_run_engine; [pres_rel | pres_rel | discriminate]. }
           assert (Hf : forall files,
                      preserves same_world unsigned_event
                        (encryptFiles files keyFprs None None (noCache o))).
           { intros files. unfold encryptFiles. pres_bind; [pres_log | intros _].
             pres_bind.
             - apply preserves_all_files; [pres_rel | pres_rel |].
               apply Forall_map, Forall_forall. intros f _.
               unfold encryptFile. pres_get. intros s0.
               pres_bind; [pres_log | intros _].
               pres_bind; [| intros x; pres_ret].
               apply preserves_run_engine; [pres_rel | pres_rel | discriminate].
             - intros rs. destruct (first_error rs); [pres_throw | pres_ret]. }
           destruct data' as [| | mail]; [| pres_throw |];
             (pres_bind; [exact Hm | intros armored];
              pres_get; intros s0;
              destruct (pgpMIME (ctrl s0)); [pres_ret |];
              destruct (if integration (ctrl s) && negb (pgpMIME (ctrl s))
                        then attachments o else Some []) as [[| f files'] |];
              try pres_ret; try pres_throw;
              pres_bind; [apply Hf | intros x; pres_ret]).
    + intros [e |]; [| pres_throw].
      pres_bind; [pres_log | intros _].
      pres_get. intros s.
      pres_bind; [pres_when; now apply onEditorClose_same_world | intros _].
      now apply transferEncrypted_same_world.
  - intros err. pres_get. intros s.
    destruct (has_popup (ctrl s) && _); [pres_log |].
    pres_bind; [pres_log | intros _].
    pres_bind; [pres_log | intros _].
    pres_bind; [pres_when; pres_log | intros _].
    pres_log.
Qed.

(** X18.  An encryption without signature never involves the password
    dialog: whatever the engine does, [onEditorPlaintext] emits no
    'show-pwd-dialog' and synchronises no unlocked key, the requests it
    makes to the engine have neither signing key nor [unlockKey]
    callback, and the world of the password dialog is left as it was. *)
Theorem unsigned_encryption_asks_no_password (s : state) (o : plaintext) :
  action o = "encrypt" ->
  signMsg o = false ->
  let r := onEditorPlaintext o s in
  world (st r) = world s
  /\ existsb is_password_event (evs r) = false
  /\ forallb unsigned_request (evs r) = true.
Proof.
  intros Ha Hs r. subst r.
  destruct (unsigned_plaintext_same_world o Ha Hs s) as (Hw & He).
  split; [exact Hw |]. split.
  - apply (forallb_existsb unsigned_event); [| exact He].
    intros e H. apply andb_prop in H. destruct H as (H & _).
    now apply negb_true_iff in H.
  - apply (forallb_weaken unsigned_event); [| exact He].
    intros e H. apply andb_prop in H. now destruct H.
Qed.


Lemma unlock_event_no_encrypt (e : event) :
  unlock_event e = true -> negb (is_engine_encrypt e) = true.
Proof. destruct e; cbn; try discriminate; reflexivity. Qed.

(** X19.  Signing only.  After [onSignOnly] has stored the signing key
    and asked for the plaintext, [signAndEncrypt] for the action 'sign'
    hands the message and that key to [signMessage] of the engine first,
    never calls the encrypting operations of the engine, changes no
    field of the controller, and has no encrypted files in its result. *)
Theorem sign_only_never_encrypts (s : state) (o : plaintext) (k : option string) :
  action o = "sign" ->
  let s1 := st (onSignOnly k s) in
  let r := signAndEncrypt o s1 in
  evs (onSignOnly k s) = [Emit Self "get-plaintext" (GetPlaintext "sign" false)]
  /\ (exists rest, evs r = SignMessage (pmessage o) (keyringId (ctrl s)) k :: rest)
  /\ existsb is_engine_encrypt (evs r) = false
  /\ ctrl (st r) = ctrl s1
  /\ forall e, res r = inr (Some e) -> encFiles e = None.
Proof.
  intros Ha s1 r. subst r s1. split; [reflexivity |].
  unfold signAndEncrypt. rewrite Ha. cbn [String.eqb Ascii.eqb Bool.eqb].
  assert (Hk : keyringId (ctrl (st (onSignOnly k s))) = keyringId (ctrl s)
               /\ signKeyFpr (ctrl (st (onSignOnly k s))) = k).
  { destruct s as [c w]. destruct c. split; reflexivity. }
  destruct Hk as (Hk & Hf). revert Hk Hf.
  generalize (st (onSignOnly k s)) as s1. intros s1 Hk Hf.
  destruct (signMessage_quiet (fun e => negb (is_engine_encrypt e)) (pmessage o) k
              unlock_event_no_encrypt (fun _ => eq_refl) s1) as (Hc & He).
  assert (Hfirst : exists rest,
             evs (signMessage (pmessage o) k s1)
             = SignMessage (pmessage o) (keyringId (ctrl s)) k :: rest).
  { unfold signMessage, bind, get, log. cbn. rewrite Hk.
    destruct (run_engine _ _ s1) as [s2 evs2 r2]. cbn. eauto. }
  match goal with
  | |- context [evs (?m s1)] => remember (m s1) as r eqn:Er
  end.
  unfold bind, get, ret in Er. cbn [st evs res] in Er. rewrite Hf in Er.
  destruct (signMessage (pmessage o) k s1) as [s2 evs2 [e | armored]];
    cbn [st evs res] in Hc, He, Hfirst, Er; subst r; cbn [st evs res].
  - split; [exact Hfirst |]. split; [| split; [exact Hc | discriminate]].
    apply (forallb_existsb (fun e => negb (is_engine_encrypt e))); [| exact He].
    intros e' H. now apply negb_true_iff in H.
  - rewrite app_nil_r.
    split; [exact Hfirst |]. split; [| split; [exact Hc |]].
    + apply (forallb_existsb (fun e => negb (is_engine_encrypt e))); [| exact He].
      intros e' H. now apply negb_true_iff in H.
    + intros e [= <-]. reflexivity.
Qed.


(** X20.  An action that is neither 'encrypt' nor 'sign': [signAndEncrypt]
    returns nothing, taking the result apart is a type error, and
    [onEditorPlaintext] reports it like any failure: it is logged,
    'error-message' goes to the editor, and to the container when there
    is one, then 'encrypt-failed'; the engine is not called and the
    controller stays as it was. *)
Theorem unknown_action_reported (s : state) (o : plaintext) :
  (action o =? "encrypt") = false ->
  (action o =? "sign") = false ->
  let r := onEditorPlaintext o s in
  res r = inr tt
  /\ st r = s
  /\ evs r = [ConsoleLog typeError;
              Emit Editor "error-message" (ErrorData (mapError typeError))]
             ++ (if editorCont (ctrl s)
                 then [Emit EditorCont "error-message" (ErrorData (mapError typeError))]
                 else [])
             ++ [Emit Editor "encrypt-failed" NoData].
Proof.
  intros He Hs r. subst r. unfold onEditorPlaintext, signAndEncrypt.
  rewrite He, Hs. unfold_monad. cbn. rewrite andb_false_r.
  destruct (editorCont (ctrl s)); cbn; repeat split; reflexivity.
Qed.

Lemma same_but_buffer_fields (s s' : state) :
  same_but_buffer s s' ->
  encryptPromise (ctrl s') = encryptPromise (ctrl s)
  /\ popup (ctrl s') = popup (ctrl s)
  /\ pgpMIME (ctrl s') = pgpMIME (ctrl s)
  /\ integration (ctrl s') = integration (ctrl s)
  /\ editorCont (ctrl s') = editorCont (ctrl s).
Proof.
  unfold same_but_buffer. intros ->. destruct (ctrl s). cbn. repeat split; reflexivity.
Qed.

(** X22.  An encryption that succeeds in the editor popup of a webmail
    page (no container, no integration): [onEditorPlaintext] announces
    'encrypt-end', closes the popup and resolves the promise of
    [encrypt] with the armored message, the encrypted files, the subject
    and the names and addresses of the recipients; closing the editor
    later does nothing more. *)
Theorem encrypted_in_popup_closes_and_resolves (s : state) (o : plaintext) (p : Popup)
    (e : encrypted) :
  popup (ctrl s) = Some p ->
  integration (ctrl s) = false ->
  editorCont (ctrl s) = false ->
  encryptPromise (ctrl s) = Some Pending ->
  res (signAndEncrypt o s) = inr (Some e) ->
  let r := onEditorPlaintext o s in
  res r = inr tt
  /\ evs r = evs (signAndEncrypt o s) ++ [Emit Editor "encrypt-end" NoData; PopupClose p]
  /\ popup (ctrl (st r)) = None
  /\ encryptPromise (ctrl (st r))
     = Some (Resolved {| rarmored := earmored e; rencFiles := encFiles e;
                         rsubject := subject o;
                         rto := map (fun k => (name k, email k)) (keysTo o);
                         rcc := map (fun k => (name k, email k)) (keysCc o) |})
  /\ forall cancel, onEditorClose cancel (st r) = ret tt (st r).
Proof.
  intros Hp Hi Hc Hpr Hres r. subst r. unfold onEditorPlaintext, try_catch, bind.
  destruct (signAndEncrypt_same_but_buffer o s) as (Hsame & _).
  apply same_but_buffer_fields in Hsame.
  destruct (signAndEncrypt o s) as [s1 evs1 r1]. cbn [st evs res] in Hres, Hsame |- *.
  subst r1. destruct Hsame as (Hpr1 & Hp1 & _ & Hi1 & Hc1).
  rewrite Hpr in Hpr1. rewrite Hp in Hp1. rewrite Hi in Hi1. rewrite Hc in Hc1.
  destruct s1 as [c1 w1]. destruct c1 as [ep ki po mi op ig kb sk ec].
  cbn in Hpr1, Hp1, Hi1, Hc1. subst ep po ig ec.
  unfold onEditorClose, transferEncrypted. unfold_monad. cbn.
  repeat split; reflexivity.
Qed.

(** X23.  Closing the editor popup with [cancel] closes the window and
    rejects the pending promise of [encrypt] with EDITOR_DIALOG_CANCEL.
    The result of an encryption that arrives afterwards does not change
    that: the promise stays rejected, and closing again does nothing. *)
Theorem cancelled_editor_rejects_once (s : state) (p : Popup) :
  popup (ctrl s) = Some p ->
  encryptPromise (ctrl s) = Some Pending ->
  editorCont (ctrl s) = false ->
  let r := onEditorClose true s in
  res r = inr tt
  /\ evs r = [PopupClose p]
  /\ popup (ctrl (st r)) = None
  /\ encryptPromise (ctrl (st r)) = Some (Rejected EDITOR_DIALOG_CANCEL)
  /\ (forall e subject' to cc,
        let r' := (onEditorClose false ;; transferEncrypted e subject' to cc) (st r) in
        res r' = inr tt /\ evs r' = [] /\ st r' = st r).
Proof.
  intros Hp Hpr Hc r. subst r.
  destruct s as [c w]. destruct c as [ep ki po mi op ig kb sk ec].
  cbn in Hp, Hpr, Hc. subst ep po ec.
  unfold onEditorClose, transferEncrypted. unfold_monad. cbn.
  repeat split; reflexivity.
Qed.

(** X24.  A failure of [signAndEncrypt], other than a dismissed password
    dialog in the popup, leaves the editor open: [onEditorPlaintext] logs
    the error, sends 'error-message' to the editor, and to the container
    when there is one, then 'encrypt-failed'; no popup is closed, and the
    popup and the promise of [encrypt] are as before, so that the user can
    try again. *)
Theorem failure_reported_and_editor_stays_open (s : state) (o : plaintext) (e : jsError) :
  res (signAndEncrypt o s) = inl e ->
  has_popup (ctrl s) && match code e with
                        | Some c => c =? "PWD_DIALOG_CANCEL"
                        | None => false
                        end = false ->
  let r := onEditorPlaintext o s in
  res r = inr tt
  /\ evs r = evs (signAndEncrypt o s)
             ++ [ConsoleLog e; Emit Editor "error-message" (ErrorData (mapError e))]
             ++ (if editorCont (ctrl s)
                 then [Emit EditorCont "error-message" (ErrorData (mapError e))]
                 else [])
             ++ [Emit Editor "encrypt-failed" NoData]
  /\ existsb is_popup_close (evs r) = false
  /\ popup (ctrl (st r)) = popup (ctrl s)
  /\ encryptPromise (ctrl (st r)) = encryptPromise (ctrl s).
Proof.
  intros Hres Hcancel r. subst r. unfold onEditorPlaintext, try_catch, bind.
  destruct (signAndEncrypt_same_but_buffer o s) as (Hsame & Hev).
  apply same_but_buffer_fields in Hsame.
  destruct (signAndEncrypt o s) as [s1 evs1 r1]. cbn [st evs res] in Hres, Hsame, Hev |- *.
  subst r1. destruct Hsame as (Hpr1 & Hp1 & _ & _ & Hc1).
  unfold get, log, when, ret. cbn [st evs res]. unfold has_popup in *.
  rewrite Hp1, Hcancel, Hc1.
  assert (Hno : existsb is_popup_close evs1 = false).
  { apply (forallb_existsb engine_event); [| exact Hev].
    intros e' H. destruct e'; try reflexivity. discriminate H. }
  destruct (editorCont (ctrl s)); cbn [st evs res app];
    rewrite existsb_app, Hno; repeat split; assumption || reflexivity.
Qed.


Lemma no_file_bind_val {A} (Q : A -> Prop) (m : M state event A)
    (k : A -> M state event (option encrypted)) :
  preserves same_but_buffer (fun e => negb (is_encrypt_file e)) m ->
  (forall s a, res (m s) = inr a -> Q a) ->
  (forall a s, Q a -> pgpMIME (ctrl s) = true -> no_file_result (k a s)) ->
  forall s, pgpMIME (ctrl s) = true -> no_file_result (bind m k s).
Proof.
  intros Hm HQ Hk s Hs. unfold bind, no_file_result.
  destruct (Hm s) as (Hsame & He). specialize (HQ s).
  apply same_but_buffer_fields in Hsame. destruct Hsame as (_ & _ & Hmime & _).
  assert (Hno : existsb is_encrypt_file (evs (m s)) = false).
  { apply (forallb_existsb (fun e => negb (is_encrypt_file e))); [| exact He].
    intros e H. now apply negb_true_iff in H. }
  destruct (m s) as [s1 evs1 [e | a]]; cbn [st evs res] in *.
  - split; [exact Hno | discriminate].
  - destruct (Hk a s1 (HQ a eq_refl)) as (Hno' & Hres); [congruence |].
    destruct (k a s1) as [s2 evs2 r2]; cbn [st evs res] in *.
    split; [now rewrite existsb_app, Hno, Hno' | exact Hres].
Qed.

Lemma no_file_bind {A} (m : M state event A) (k : A -> M state event (option encrypted)) :
  preserves same_but_buffer (fun e => negb (is_encrypt_file e)) m ->
  (forall a s, pgpMIME (ctrl s) = true -> no_file_result (k a s)) ->
  forall s, pgpMIME (ctrl s) = true -> no_file_result (bind m k s).
Proof.
  intros Hm Hk. apply no_file_bind_val with (Q := fun _ => True); auto.
Qed.

Lemma no_file_get (k : state -> M state event (option encrypted)) :
  (forall s, pgpMIME (ctrl s) = true -> no_file_result (k s s)) ->
  forall s, pgpMIME (ctrl s) = true -> no_file_result (bind get k s).
Proof.
  intros Hk s Hs. specialize (Hk s Hs). unfold bind, get.
  destruct (k s s) as [s2 evs2 r2]. exact Hk.
Qed.

Lemma unlock_event_no_file (e : event) :
  unlock_event e = true -> negb (is_encrypt_file e) = true.
Proof. destruct e; cbn; try discriminate; reflexivity. Qed.

(** X21.  With PGP/MIME the attachments are part of the mail:
    [signAndEncrypt] never has a file encrypted on its own, and the list
    of encrypted files of its result is empty. *)
Theorem pgp_mime_encrypts_no_file (s : state) (o : plaintext) :
  pgpMIME (ctrl s) = true ->
  action o = "encrypt" ->
  let r := signAndEncrypt o s in
  existsb is_encrypt_file (evs r) = false
  /\ forall e, res r = inr (Some e) -> encFiles e = Some [].
Proof.
  intros Hmime Ha r. subst r. revert s Hmime.
  change (forall s, pgpMIME (ctrl s) = true -> no_file_result (signAndEncrypt o s)).
  unfold signAndEncrypt. rewrite Ha, String.eqb_refl.
  apply no_file_bind; [apply getPublicKeyFprs_same_but_buffer | intros keyFprs].
  apply no_file_bind_val with (Q := fun p => signing_callback (noCache o) (snd p)).
  - destruct (signMsg o); [| pres_ret].
    pres_get. intros s.
    destruct (negb _); [pres_throw | pres_ret].
  - intros s [f callback]. unfold bind, get, throw, ret.
    destruct (signMsg o); cbn.
    + destruct (negb _); cbn; [discriminate |].
      intros [= <- <-]. now right.
    + intros [= <- <-]. now left.
  - intros [signKeyFpr' callback] s1 Hcb. cbn in Hcb. cbv beta iota. revert s1.
    apply no_file_get. intros s Hs.
    apply no_file_bind; [| | exact Hs].
    + destruct (buildMail _ _ _) as [error | [mail |]]; try pres_ret.
      pres_bind; [pres_when; pres_log | intros _; pres_ret].
    + assert (Hm : forall data',
                 preserves same_but_buffer (fun e => negb (is_encrypt_file e))
                   (encryptMessage data' keyFprs signKeyFpr' callback (noCache o))).
      { intros data'. unfold encryptMessage.
        pres_bind; [pres_log | intros _].
        pres_get. intros s0.
        pres_bind; [pres_log | intros _].
        apply quiet_same_but_buffer, EditorProperties.quiet_run_engine.
        intros f o' Hf. destruct Hcb as [-> | ->]; [discriminate Hf |].
        injection Hf as <-.
        apply EditorProperties.quiet_sign_unlockKey, unlock_event_no_file. }
      intros [| | mail]; [| intros s0 _; split; [reflexivity | discriminate] |];
        (apply no_file_bind; [apply Hm | intros armored];
         apply no_file_get; intros s0 Hs0; rewrite Hs0;
         split; [reflexivity | intros e [= <-]; reflexivity]).
Qed.

End Paths.


Section Files.
Context {C : Collaborators}.




End Files.


Section Decryption.
Context {C : Collaborators}.

Lemma unlock_event_not_terminal (e : event) :
  unlock_event e = true -> negb (is_terminal e) = true.
Proof.
  destruct e as [to n p | | | | | | | | |]; cbn; try discriminate; [| reflexivity].
  destruct to; try discriminate. unfold is_terminal. cbn.
  destruct (String.eqb_spec n "show-pwd-dialog") as [-> | _]; [reflexivity |].
  destruct (String.eqb_spec n "encrypt-in-progress") as [-> | _]; [reflexivity |].
  destruct (String.eqb_spec n "hide-pwd-dialog") as [-> | _]; [reflexivity |].
  discriminate.
Qed.

(** Getting at the content changes no field of the controller and ends
    nothing. *)
Lemma decrypt_content_not_terminal (armored : string) :
  quiet (fun e => negb (is_terminal e)) (decrypt_content armored).
Proof.
  unfold decrypt_content. apply EditorProperties.quiet_get. intros s.
  destruct (test "BEGIN PGP MESSAGE" armored).
  - apply EditorProperties.quiet_bind; [apply EditorProperties.quiet_log; reflexivity | intros _].
    apply EditorProperties.quiet_run_engine. intros f o [= <-].
    apply EditorProperties.quiet_decrypt_unlockKey, unlock_event_not_terminal.
  - destruct (test "BEGIN PGP SIGNED MESSAGE" armored); [| apply EditorProperties.quiet_ret].
    apply EditorProperties.quiet_bind; [apply EditorProperties.quiet_log; reflexivity | intros _].
    destruct (verifyMessage_model _ _ _) as [e | [data' signatures]];
      [apply EditorProperties.quiet_throw |].
    destruct (decodeUtf8 data');
      [apply EditorProperties.quiet_throw | apply EditorProperties.quiet_ret].
Qed.

(** The handlers emit the events of the parts, and nothing else happens. *)
Lemma call_handlers_shown (o : editorOptions) (parts : list (string + Part)) (s : state) :
  call_handlers o parts s = mkOut s (shown_parts o parts) (inr tt).
Proof.
  revert s. induction parts as [| [msg | p] parts IH]; intros s; cbn; [reflexivity | |];
    unfold bind, log, when, ret; cbn.
  - now rewrite IH.
  - destruct (keepAttachments o) eqn:E; cbn; rewrite IH; unfold shown_parts; now rewrite E.
Qed.

Lemma shown_parts_not_terminal (o : editorOptions) (parts : list (string + Part)) :
  existsb is_terminal (shown_parts o parts) = false.
Proof.
  unfold shown_parts.
  induction parts as [| [msg | p] parts IH]; cbn; [reflexivity | exact IH |].
  rewrite existsb_app, IH. now destruct (keepAttachments o).
Qed.

(** What [decryptArmored] emits once it has the content. *)
Lemma decryptArmored_events (s : state) (armored : string) :
  let d := decrypt_content armored s in
  let o := decryptArmored armored s in
  res o = inr tt
  /\ st o = st d
  /\ evs o = evs d ++
       match res d with
       | inl e => [Emit Editor "decrypt-failed" (ErrorData (mapError e))]
       | inr (data', signatures) =>
           if truthy (armoredDraft (options (ctrl s)))
              && negb (one_valid_signature signatures)
           then [Emit Editor "decrypt-failed"
                   (ErrorData (mapError
                      (mkError "Restoring of the draft failed due to invalid signature."
                         None)))]
           else shown_parts (options (ctrl s)) (fst (parseMessage data'))
                ++ [match snd (parseMessage data') with
                    | None => Emit Editor "decrypt-end" NoData
                    | Some e => Emit Editor "decrypt-failed" (ErrorData (mapError e))
                    end]
       end.
Proof.
  intros d o. subst d o. unfold decryptArmored, try_catch, bind.
  destruct (decrypt_content_not_terminal armored s) as (Hc & _).
  destruct (decrypt_content armored s) as [s1 evs1 [e | [data' signatures]]];
    cbn [st evs res] in Hc |- *.
  - unfold log. cbn. auto.
  - unfold get. cbn [st evs res]. rewrite Hc.
    destruct (truthy (armoredDraft (options (ctrl s)))
              && negb (one_valid_signature signatures)).
    + unfold throw, log. cbn. rewrite app_nil_r. auto.
    + unfold ret, throw, log. cbn [st evs res]. rewrite call_handlers_shown.
      destruct (snd (parseMessage data')) as [e |]; cbn [st evs res app];
        rewrite ?app_nil_r, <- ?app_assoc; auto.
Qed.

(** X26.  [decryptArmored] never throws and ends exactly once: the last
    event it emits is 'decrypt-end' or 'decrypt-failed', none of the
    events before is one of the two, and no field of the controller is
    changed. *)
Theorem decryptArmored_ends_once (s : state) (armored : string) :
  let o := decryptArmored armored s in
  res o = inr tt
  /\ ctrl (st o) = ctrl s
  /\ exists l e,
       evs o = l ++ [e] /\ is_terminal e = true /\ existsb is_terminal l = false.
Proof.
  intros o. subst o.
  destruct (decryptArmored_events s armored) as (Hr & Hs & He).
  destruct (decrypt_content_not_terminal armored s) as (Hc & Hq).
  assert (Hno : existsb is_terminal (evs (decrypt_content armored s)) = false).
  { apply (forallb_existsb (fun e => negb (is_terminal e))); [| exact Hq].
    intros e H. now apply negb_true_iff in H. }
  split; [exact Hr |]. split; [now rewrite Hs |].
  rewrite He. clear Hr Hs He Hc Hq.
  destruct (res (decrypt_content armored s)) as [e | [data' signatures]].
  - eexists _, _. split; [reflexivity |]. split; [reflexivity | exact Hno].
  - destruct (truthy _ && _).
    + eexists _, _. split; [reflexivity |]. split; [reflexivity | exact Hno].
    + rewrite app_assoc. eexists _, _. split; [reflexivity |]. split.
      * now destruct (snd (parseMessage data')).
      * now rewrite existsb_app, Hno, shown_parts_not_terminal.
Qed.

(** X27.  A content that is no draft, or a draft with its one valid
    signature, is shown part by part in the order of the parser: a text
    with the quoting and the predefined text of the options, an
    attachment only when the attachments are kept.  The end is
    'decrypt-end', or 'decrypt-failed' when the parser gives up, and then
    the parts it had found are shown all the same. *)
Theorem decrypted_parts_shown_in_order (s : state) (armored data' : string)
    (signatures : option (list signature)) :
  res (decrypt_content armored s) = inr (data', signatures) ->
  truthy (armoredDraft (options (ctrl s))) && negb (one_valid_signature signatures) = false ->
  let d := decrypt_content armored s in
  let o := decryptArmored armored s in
  evs o = evs d
          ++ shown_parts (options (ctrl s)) (fst (parseMessage data'))
          ++ [match snd (parseMessage data') with
              | None => Emit Editor "decrypt-end" NoData
              | Some e => Emit Editor "decrypt-failed" (ErrorData (mapError e))
              end].
Proof.
  intros Hres Hok d o. subst d o.
  destruct (decryptArmored_events s armored) as (_ & _ & He).
  rewrite He, Hres, Hok. reflexivity.
Qed.

End Decryption.


Section ExtrasOnTheScenario.
Import EditorScenario.

(** The key of b@x.com is found in the registry; the one of a@x.com is
    left alone. *)
Lemma known_keys_witness :
  NoDup (map fst [("a@x.com", Some ["AAAA"]); ("b@x.com", @None (list string))])
  /\ res (lookupMissingKeys [("a@x.com", Some ["AAAA"]); ("b@x.com", None)]
            (embedded office_with_registry))
     = inr (Some [("a@x.com", Some ["AAAA"]); ("b@x.com", Some ["BBBB"])])
  /\ map fst [("a@x.com", Some ["AAAA"]); ("b@x.com", Some ["BBBB"])]
     = map fst [("a@x.com", Some ["AAAA"]); ("b@x.com", @None (list string))].
Proof.
  assert (Hnd : NoDup (map fst [("a@x.com", Some ["AAAA"]);
                                ("b@x.com", @None (list string))])).
  { constructor; [intros [H | []]; discriminate H |].
    constructor; [intros [] | constructor]. }
  split; [exact Hnd |]. split; [reflexivity |].
  exact (proj1 (lookupMissingKeys_keeps_known_keys (embedded office_with_registry)
                  [("a@x.com", Some ["AAAA"]); ("b@x.com", None)]
                  [("a@x.com", Some ["AAAA"]); ("b@x.com", Some ["BBBB"])]
                  Hnd eq_refl)).
Defined.

(** A message to a@x.com from the container. *)
Lemma resolved_recipients_witness :
  res (lookupMissingKeys
         (getKeyByAddress (world (embedded office)) (Some "main") ["a@x.com"])
         (container_request "main" (embedded office)))
  = inr (Some [("a@x.com", Some ["AAAA"])])
  /\ some_false (mapAddressKeyMapToFpr [("a@x.com", Some ["AAAA"])]) = false
  /\ exists buffer,
       keyFprBuffer (ctrl (st (onEditorContainerEncrypt "main" ["a@x.com"]
                                 (embedded office)))) = Some buffer
       /\ NoDup buffer.
Proof.
  split; [reflexivity | split; [reflexivity |]].
  destruct (resolved_recipients_fill_buffer (embedded office) "main" ["a@x.com"]
              [("a@x.com", Some ["AAAA"])] eq_refl eq_refl)
    as (buffer & _ & Hb & _ & Hn & _).
  exists buffer. split; assumption.
Defined.

(** A draft in the office: the default key is FFFF. *)
Lemma draft_own_key_witness :
  keyring_getDefaultKeyFpr (world (embedded office)) (Some "main") = inr (Some "FFFF")
  /\ "FFFF" <> ""
  /\ res (getPublicKeyFprs (keysTo (letter "hi"))
            (st (onEditorContainerCreateDraft "main" (embedded office))))
     = inr ["FFFF"].
Proof.
  assert (Hne : "FFFF" <> "") by discriminate.
  split; [reflexivity | split; [exact Hne |]].
  destruct (draft_encrypted_to_own_key_only (embedded office) "main" "FFFF" eq_refl Hne)
    as (_ & _ & _ & H).
  apply H.
Defined.

(** A draft without default key. *)
Lemma draft_without_key_witness :
  editorCont (ctrl (embedded no_default_key)) = true
  /\ keyring_getDefaultKeyFpr (world (embedded no_default_key)) (Some "main") = inr None
  /\ truthy None = false
  /\ existsb (is_emit "get-plaintext")
       (evs (onEditorContainerCreateDraft "main" (embedded no_default_key))) = false.
Proof.
  split; [reflexivity | split; [reflexivity | split; [reflexivity |]]].
  destruct (draft_without_default_key (embedded no_default_key) "main" None
              eq_refl eq_refl eq_refl) as (_ & _ & H & _).
  exact H.
Defined.

(** Three calls in the embedded editor, whose buffer has AAAA. *)
Lemma buffer_grows_witness :
  keyFprBuffer (ctrl (embedded office)) = Some ["AAAA"]
  /\ auto_add_primary (world (embedded office)) = true
  /\ keyring_getDefaultKeyFpr (world (embedded office))
       (keyringId (ctrl (embedded office))) = inr (Some "FFFF")
  /\ "FFFF" <> ""
  /\ exists buffer,
       keyFprBuffer (ctrl (st (getPublicKeyFprs_times 3 [] (embedded office))))
       = Some buffer
       /\ count_occ string_dec buffer "FFFF" = 3.
Proof.
  assert (Hne : "FFFF" <> "") by discriminate.
  split; [reflexivity | split; [reflexivity | split; [reflexivity | split; [exact Hne |]]]].
  destruct (buffer_grows_with_every_call [] "FFFF" 3 (embedded office) ["AAAA"]
              eq_refl eq_refl eq_refl Hne) as (_ & buffer & Hb & _ & Hc).
  exists buffer. split; [exact Hb | exact Hc].
Defined.

(** A letter to be signed where the keyring has no default key. *)
Lemma missing_signing_key_witness :
  action (letter "hi") = "encrypt"
  /\ signMsg (letter "hi") = true
  /\ truthy (signing_key (letter "hi") (embedded no_default_key)) = false
  /\ evs (signAndEncrypt (letter "hi") (embedded no_default_key)) = [].
Proof.
  split; [reflexivity | split; [reflexivity | split; [reflexivity |]]].
  exact (proj1 (missing_signing_key_stops_encryption (embedded no_default_key)
                  (letter "hi") eq_refl eq_refl eq_refl)).
Defined.

(** An unsigned note, with a user who would dismiss the password dialog. *)
Lemma unsigned_encryption_witness :
  action (note "hi") = "encrypt"
  /\ signMsg (note "hi") = false
  /\ existsb is_password_event
       (evs (onEditorPlaintext (note "hi") (in_popup office_dismissing))) = false.
Proof.
  split; [reflexivity | split; [reflexivity |]].
  destruct (unsigned_encryption_asks_no_password (in_popup office_dismissing) (note "hi")
              eq_refl eq_refl) as (_ & H & _).
  exact H.
Defined.

(** A statement signed with the key FFFF. *)
Lemma sign_only_witness :
  action (statement "I agree") = "sign"
  /\ existsb is_engine_encrypt
       (evs (signAndEncrypt (statement "I agree")
               (st (onSignOnly (Some "FFFF") (in_popup office))))) = false.
Proof.
  split; [reflexivity |].
  destruct (sign_only_never_encrypts (in_popup office) (statement "I agree") (Some "FFFF")
              eq_refl) as (_ & _ & H & _).
  exact H.
Defined.

Lemma unknown_action_witness :
  (action unknown_request =? "encrypt") = false
  /\ (action unknown_request =? "sign") = false
  /\ st (onEditorPlaintext unknown_request (embedded office)) = embedded office.
Proof.
  split; [reflexivity | split; [reflexivity |]].
  destruct (unknown_action_reported (embedded office) unknown_request eq_refl eq_refl)
    as (_ & H & _).
  exact H.
Defined.

(** The embedded editor uses PGP/MIME. *)
Lemma pgp_mime_witness :
  pgpMIME (ctrl (embedded office)) = true
  /\ action (letter "hi") = "encrypt"
  /\ existsb is_encrypt_file (evs (signAndEncrypt (letter "hi") (embedded office))) = false.
Proof.
  split; [reflexivity | split; [reflexivity |]].
  exact (proj1 (pgp_mime_encrypts_no_file (embedded office) (letter "hi")
                  eq_refl eq_refl)).
Defined.

(** A signed letter from the editor popup. *)
Lemma encrypted_in_popup_witness :
  popup (ctrl (in_popup office)) = Some 5
  /\ integration (ctrl (in_popup office)) = false
  /\ editorCont (ctrl (in_popup office)) = false
  /\ encryptPromise (ctrl (in_popup office)) = Some Pending
  /\ res (signAndEncrypt (letter "hi") (in_popup office))
     = inr (Some {| earmored := "-----BEGIN PGP MESSAGE----- Content-Type: text/plain hi";
                    encFiles := Some [] |})
  /\ popup (ctrl (st (onEditorPlaintext (letter "hi") (in_popup office)))) = None.
Proof.
  split; [reflexivity | split; [reflexivity | split; [reflexivity |
    split; [reflexivity | split; [reflexivity |]]]]].
  destruct (encrypted_in_popup_closes_and_resolves (in_popup office) (letter "hi") 5
              {| earmored := "-----BEGIN PGP MESSAGE----- Content-Type: text/plain hi";
                 encFiles := Some [] |}
              eq_refl eq_refl eq_refl eq_refl eq_refl) as (_ & _ & H & _).
  exact H.
Defined.

Lemma cancelled_editor_witness :
  popup (ctrl (in_popup office)) = Some 5
  /\ encryptPromise (ctrl (in_popup office)) = Some Pending
  /\ editorCont (ctrl (in_popup office)) = false
  /\ encryptPromise (ctrl (st (onEditorClose true (in_popup office))))
     = Some (Rejected EDITOR_DIALOG_CANCEL).
Proof.
  split; [reflexivity | split; [reflexivity | split; [reflexivity |]]].
  destruct (cancelled_editor_rejects_once (in_popup office) 5 eq_refl eq_refl eq_refl)
    as (_ & _ & _ & H & _).
  exact H.
Defined.

(** An empty message cannot be built. *)
Lemma failure_reported_witness :
  res (signAndEncrypt (letter "") (in_popup office))
  = inl (MvError "MIME building failed." None)
  /\ has_popup (ctrl (in_popup office))
     && match code (MvError "MIME building failed." None) with
        | Some c => c =? "PWD_DIALOG_CANCEL"
        | None => false
        end = false
  /\ popup (ctrl (st (onEditorPlaintext (letter "") (in_popup office)))) = Some 5.
Proof.
  split; [reflexivity | split; [reflexivity |]].
  destruct (failure_reported_and_editor_stays_open (in_popup office) (letter "")
              (MvError "MIME building failed." None) eq_refl eq_refl)
    as (_ & _ & _ & H & _).
  exact H.
Defined.


(** A quoted mail in clear text. *)
Lemma decrypted_parts_witness :
  res (decrypt_content "Dear B" quoting) = inr ("Dear B", Some [])
  /\ truthy (armoredDraft (options (ctrl quoting)))
     && negb (one_valid_signature (Some [])) = false
  /\ evs (decryptArmored "Dear B" quoting)
     = evs (decrypt_content "Dear B" quoting)
       ++ shown_parts (options (ctrl quoting)) (fst (parseMessage "Dear B"))
       ++ [match snd (parseMessage "Dear B") with
           | None => Emit Editor "decrypt-end" NoData
           | Some e => Emit Editor "decrypt-failed" (ErrorData (mapError e))
           end].
Proof.
  split; [reflexivity | split; [reflexivity |]].
  exact (decrypted_parts_shown_in_order quoting "Dear B" "Dear B" (Some [])
           eq_refl eq_refl).
Defined.

End ExtrasOnTheScenario.

End EditorExtras.

(** * Properties of [setAttachments] *)

Module AttachmentExtras.
Import EditorAttachments.

Section Attachments.
Variable dataURL2str : string -> string.

Lemma setAttachments_loop_filter (l : list attachment) :
  forall encrypted,
    setAttachments_loop dataURL2str l encrypted
    = (map (fun a => SetAttachment (dataURL2str (data a)) a)
         (filter (fun a => negb (is_encrypted dataURL2str a)) l),
       encrypted ++ filter (is_encrypted dataURL2str) l).
Proof.
  induction l as [| a l IH]; intros encrypted; cbn.
  - now rewrite app_nil_r.
  - destruct (is_encrypted dataURL2str a); cbn.
    + rewrite IH, <- app_assoc. reflexivity.
    + now rewrite IH.
Qed.

Lemma shown_set (l : list attachment) :
  shown (map (fun a => SetAttachment (dataURL2str (data a)) a) l) = l.
Proof. induction l as [| a l IH]; cbn; [reflexivity | f_equal; exact IH]. Qed.

Lemma to_decrypt_set (l : list attachment) :
  to_decrypt (map (fun a => SetAttachment (dataURL2str (data a)) a) l) = [].
Proof. induction l as [| a l IH]; cbn; [reflexivity | exact IH]. Qed.

Lemma shown_app (evs1 evs2 : list event) : shown (evs1 ++ evs2) = shown evs1 ++ shown evs2.
Proof. apply flat_map_app. Qed.

Lemma to_decrypt_app (evs1 evs2 : list event) :
  to_decrypt (evs1 ++ evs2) = to_decrypt evs1 ++ to_decrypt evs2.
Proof. apply flat_map_app. Qed.

(** X28.  [setAttachments] deals with every attachment once: the ones
    that are no encrypted files are shown in the editor in their order,
    with their decoded content; the encrypted ones are handed to
    [decryptFiles] together, in their order, after all the others; and
    'decrypt-in-progress' is announced exactly when there is one to
    decrypt. *)
Theorem attachments_shown_or_decrypted (l : list attachment) :
  let evs := setAttachments dataURL2str l in
  evs = map (fun a => SetAttachment (dataURL2str (data a)) a)
          (filter (fun a => negb (is_encrypted dataURL2str a)) l)
        ++ match filter (is_encrypted dataURL2str) l with
           | [] => []
           | _ :: _ =>
               [DecryptInProgress; DecryptFiles (filter (is_encrypted dataURL2str) l)]
           end
  /\ shown evs = filter (fun a => negb (is_encrypted dataURL2str a)) l
  /\ to_decrypt evs = filter (is_encrypted dataURL2str) l
  /\ (In DecryptInProgress evs <-> exists a, In a l /\ is_encrypted dataURL2str a = true).
Proof.
  intros evs. subst evs. unfold setAttachments.
  rewrite setAttachments_loop_filter. cbn [app].
  assert (Henc : forall a,
             In a (filter (is_encrypted dataURL2str) l) <->
             In a l /\ is_encrypted dataURL2str a = true)
    by (intros a; apply filter_In).
  rewrite shown_app, to_decrypt_app, shown_set, to_decrypt_set.
  revert Henc. generalize (filter (is_encrypted dataURL2str) l) as enc.
  generalize (filter (fun a => negb (is_encrypted dataURL2str a)) l) as plain.
  intros plain enc Henc.
  destruct enc as [| a0 enc']; cbn; rewrite !app_nil_r.
  - repeat split; try reflexivity.
    + intros Hin. apply in_map_iff in Hin. destruct Hin as (a & Ha & _). discriminate Ha.
    + intros (a & Ha). apply Henc in Ha. destruct Ha.
  - repeat split; try reflexivity.
    + intros _. exists a0. apply Henc. now left.
    + intros _. apply in_or_app. right. now left.
Qed.

Lemma test_here (pattern s : string) :
  matches_here pattern s = true -> test pattern s = true.
Proof. intros H. destruct s; cbn; now rewrite H. Qed.

Lemma test_found (pattern pre post : string) :
  (forall rest, matches_here pattern (pattern ++ rest) = true) ->
  test pattern (pre ++ pattern ++ post) = true.
Proof.
  intros H. induction pre as [| c pre IH]; cbn.
  - apply test_here, H.
  - rewrite IH. apply orb_true_r.
Qed.

Lemma test_inv (pattern s : string) :
  (forall s', matches_here pattern s' = true -> exists rest, s' = (pattern ++ rest)%string) ->
  test pattern s = true ->
  exists pre post, s = (pre ++ pattern ++ post)%string.
Proof.
  intros H. induction s as [| c s IH]; cbn.
  - rewrite orb_false_r. intros Hm. apply H in Hm. destruct Hm as (rest & Hr).
    exists EmptyString, rest. exact Hr.
  - intros Ht. apply orb_prop in Ht. destruct Ht as [Hm | Ht].
    + apply H in Hm. destruct Hm as (rest & Hr). exists EmptyString, rest. exact Hr.
    + destruct (IH Ht) as (pre & post & ->). exists (String c pre), post. reflexivity.
Qed.

Lemma matches_here_extension (a b c : ascii) (s : string) :
  Ascii.eqb "." " " = false ->
  Ascii.eqb a " " = false -> Ascii.eqb b " " = false -> Ascii.eqb c " " = false ->
  matches_here (String "." (String a (String b (String c EmptyString)))) s = true ->
  exists rest, s = (String "." (String a (String b (String c EmptyString))) ++ rest)%string.
Proof.
  intros Hd Ha Hb Hc.
  destruct s as [| x1 [| x2 [| x3 [| x4 rest]]]]; cbn [matches_here];
    rewrite ?Hd, ?Ha, ?Hb, ?Hc, ?andb_false_r; try discriminate.
  intros H.
  apply andb_prop in H. destruct H as (H1 & H).
  apply andb_prop in H. destruct H as (H2 & H).
  apply andb_prop in H. destruct H as (H3 & H).
  apply andb_prop in H. destruct H as (H4 & _).
  apply Ascii.eqb_eq in H1, H2, H3, H4. subst. exists rest. reflexivity.
Qed.

(** X29.  The extension of an encrypted file is looked for anywhere in
    the name, not at its end: a name counts exactly when '.gpg', '.pgp'
    or '.asc' occurs in it, so that a name like 'notes.ascii.txt' counts
    as well. *)
Theorem extension_found_anywhere (name : string) :
  encrypted_extension name = true <->
  exists pre ext post,
    In ext [".gpg"; ".pgp"; ".asc"] /\ name = (pre ++ ext ++ post)%string.
Proof.
  unfold encrypted_extension. split.
  - intros H. apply orb_prop in H. destruct H as [H | H];
      [apply orb_prop in H; destruct H as [H | H] |];
      (apply test_inv in H;
       [destruct H as (pre & post & ->); exists pre; eexists; exists post;
        split; [| reflexivity]; cbn; auto
       | intros s'; now apply matches_here_extension]).
  - intros (pre & ext & post & Hin & ->).
    destruct Hin as [<- | [<- | [<- | []]]];
      rewrite test_found by (intros rest; reflexivity);
      rewrite ?orb_true_r; reflexivity.
Qed.

End Attachments.

(** A public key and a text are shown, an encrypted file is decrypted. *)
Example setAttachments_example :
  setAttachments (fun d => d)
    [{| filename := "key.asc"; data := "-----BEGIN PGP PUBLIC KEY BLOCK-----";
        mimeType := "application/pgp-keys" |};
     {| filename := "report.pdf.gpg"; data := "binary"; mimeType := "" |};
     {| filename := "hello.txt"; data := "hello"; mimeType := "text/plain" |}]
  = [SetAttachment "-----BEGIN PGP PUBLIC KEY BLOCK-----"
       {| filename := "key.asc"; data := "-----BEGIN PGP PUBLIC KEY BLOCK-----";
          mimeType := "application/pgp-keys" |};
     SetAttachment "hello"
       {| filename := "hello.txt"; data := "hello"; mimeType := "text/plain" |};
     DecryptInProgress;
     DecryptFiles [{| filename := "report.pdf.gpg"; data := "binary"; mimeType := "" |}]].
Proof. reflexivity. Qed.

End AttachmentExtras.

(** * The quoting of a mail ([onMessage]) *)

Module QuotingExtras.

(** What follows a line does not complete a separator with the end of
    the line: it is empty or begins with none of the later bytes of a
    separator. *)
Lemma separator_here_app (l rest : string) :
  l <> EmptyString ->
  match rest with
  | EmptyString => True
  | String c _ =>
      (nat_of_ascii c =? 128)%nat = false /\ (nat_of_ascii c =? 168)%nat = false
      /\ (nat_of_ascii c =? 169)%nat = false
  end ->
  separator_here (l ++ rest) = separator_here l.
Proof.
  intros Hl Hrest.
  destruct l as [| a [| b [| c l]]]; [now destruct Hl | | | reflexivity].
  - destruct rest as [| x rest]; cbn; [reflexivity |].
    destruct Hrest as (H & _). rewrite H. reflexivity.
  - destruct rest as [| x rest]; cbn; [reflexivity |].
    destruct Hrest as (_ & H1 & H2). rewrite H1, H2. reflexivity.
Qed.

Lemma indent_inside (l rest : string) :
  is_line l = true ->
  match rest with
  | EmptyString => True
  | String c _ =>
      (nat_of_ascii c =? 128)%nat = false /\ (nat_of_ascii c =? 168)%nat = false
      /\ (nat_of_ascii c =? 169)%nat = false
  end ->
  indent_from false 0 (l ++ rest) = (l ++ indent_from false 0 rest)%string.
Proof.
  intros Hl Hrest. induction l as [| c l IH]; [reflexivity |].
  cbn [is_line] in Hl. apply andb_prop in Hl. destruct Hl as (H & Hl).
  apply andb_prop in H. destruct H as (H & Hsep).
  apply andb_prop in H. destruct H as (Hlf & Hcr).
  apply negb_true_iff in Hlf, Hcr, Hsep.
  change (String c l ++ rest)%string with (String c (l ++ rest)).
  cbn [indent_from].
  change (String c (l ++ rest)) with (String c l ++ rest)%string.
  rewrite separator_here_app by (discriminate || assumption).
  rewrite Hsep, Hlf, Hcr. cbn [andb orb negb]. now rewrite IH.
Qed.

Lemma indent_line (l rest : string) :
  is_line l = true -> l <> EmptyString ->
  match rest with
  | EmptyString => True
  | String c _ =>
      (nat_of_ascii c =? 128)%nat = false /\ (nat_of_ascii c =? 168)%nat = false
      /\ (nat_of_ascii c =? 169)%nat = false
  end ->
  indent_from true 0 (l ++ rest) = ("> " ++ l ++ indent_from false 0 rest)%string.
Proof.
  intros Hl Hne Hrest. destruct l as [| c l]; [now destruct Hne |].
  cbn [is_line] in Hl. apply andb_prop in Hl. destruct Hl as (H & Hl).
  apply andb_prop in H. destruct H as (H & Hsep).
  apply andb_prop in H. destruct H as (Hlf & Hcr).
  apply negb_true_iff in Hlf, Hcr, Hsep.
  change (String c l ++ rest)%string with (String c (l ++ rest)).
  cbn [indent_from].
  change (String c (l ++ rest)) with (String c l ++ rest)%string.
  rewrite separator_here_app by (discriminate || assumption).
  rewrite Hsep, Hlf, Hcr. cbn [andb orb negb]. now rewrite indent_inside.
Qed.

(** After a terminator a line begins. *)
Lemma indent_terminator (t rest : string) :
  is_terminator t = true ->
  indent_from false 0 (t ++ rest) = (t ++ indent_from true 0 rest)%string.
Proof.
  unfold is_terminator. intros H.
  apply orb_prop in H. destruct H as [H | H];
    [apply orb_prop in H; destruct H as [H | H];
     [apply orb_prop in H; destruct H as [H | H] |] |];
    apply String.eqb_eq in H; subst t; reflexivity.
Qed.

(** An empty line: only the line feed is matched at its start. *)
Lemma indent_empty_line (t rest : string) :
  is_terminator t = true ->
  indent_from true 0 (t ++ rest)
  = ((if t =? LF then "> " else "") ++ t ++ indent_from true 0 rest)%string.
Proof.
  unfold is_terminator. intros H.
  apply orb_prop in H. destruct H as [H | H];
    [apply orb_prop in H; destruct H as [H | H];
     [apply orb_prop in H; destruct H as [H | H] |] |];
    apply String.eqb_eq in H; subst t; reflexivity.
Qed.

Lemma terminator_first (t rest : string) :
  is_terminator t = true ->
  match (t ++ rest)%string with
  | EmptyString => True
  | String c _ =>
      (nat_of_ascii c =? 128)%nat = false /\ (nat_of_ascii c =? 168)%nat = false
      /\ (nat_of_ascii c =? 169)%nat = false
  end.
Proof.
  unfold is_terminator. intros H.
  apply orb_prop in H. destruct H as [H | H];
    [apply orb_prop in H; destruct H as [H | H];
     [apply orb_prop in H; destruct H as [H | H] |] |];
    apply String.eqb_eq in H; subst t; cbn; repeat split; reflexivity.
Qed.

Lemma append_empty (s : string) : (s ++ "")%string = s.
Proof. induction s as [| c s IH]; cbn; [reflexivity | now rewrite IH]. Qed.

Lemma append_assoc (a b c : string) : ((a ++ b) ++ c)%string = (a ++ b ++ c)%string.
Proof. induction a as [| x a IH]; cbn; [reflexivity | now rewrite IH]. Qed.

(** X30.  The quoting of [onMessage] puts '> ' before every line of the
    mail, whichever of the four line terminators of Javascript ends it,
    but for an empty line that is not ended by a line feed: before a
    carriage return, a separator U+2028 or U+2029, or the end of the
    text, an empty line gets no prefix. *)
Theorem indent_quotes_every_line (lines : list (string * string)) (last : string) :
  forallb (fun p => is_line (fst p) && is_terminator (snd p)) lines = true ->
  is_line last = true ->
  indent true (text_of lines last) = text_of (map quote_line lines) (quote_last last).
Proof.
  intros Hlines Hlast. unfold indent.
  induction lines as [| [l t] rest IH].
  - cbn [text_of map]. unfold quote_last.
    destruct (String.eqb_spec last "") as [-> | Hne]; [reflexivity |].
    rewrite <- (append_empty last) at 1.
    rewrite indent_line by (assumption || exact I).
    cbn [indent_from]. now rewrite append_empty.
  - cbn [forallb fst snd] in Hlines.
    apply andb_prop in Hlines. destruct Hlines as (H & Hrest).
    apply andb_prop in H. destruct H as (Hl & Ht).
    specialize (IH Hrest).
    cbn [text_of map quote_line].
    destruct (String.eqb_spec l "") as [-> | Hne].
    + cbn [append andb]. rewrite indent_empty_line by assumption. rewrite IH.
      now destruct (t =? LF).
    + cbn [andb]. rewrite indent_line by (assumption || now apply terminator_first).
      rewrite indent_terminator by assumption. rewrite IH.
      now rewrite !append_assoc.
Qed.

(** A mail in which every terminator occurs, with an empty line before a
    line feed and one before a carriage return, that ends with a line
    feed. *)
Lemma indent_quotes_witness :
  forallb (fun p => is_line (fst p) && is_terminator (snd p))
    [("Dear B,", LF); ("", LF); ("see you", LS); ("soon", PS); ("A", CR); ("", CR);
     ("bye", LF)] = true
  /\ is_line "" = true
  /\ indent true
       (text_of [("Dear B,", LF); ("", LF); ("see you", LS); ("soon", PS); ("A", CR);
                 ("", CR); ("bye", LF)] "")
     = text_of [("> Dear B,", LF); ("> ", LF); ("> see you", LS); ("> soon", PS);
                ("> A", CR); ("", CR); ("> bye", LF)] "".
Proof.
  split; [reflexivity | split; [reflexivity |]].
  exact (indent_quotes_every_line
           [("Dear B,", LF); ("", LF); ("see you", LS); ("soon", PS); ("A", CR);
            ("", CR); ("bye", LF)] "" eq_refl eq_refl).
Defined.

(** A separator starts a line as a line feed does. *)
Example indent_after_separator :
  indent true ("a" ++ LS ++ "b") = ("> a" ++ LS ++ "> b")%string.
Proof. reflexivity. Qed.

(** A carriage return and a line feed make two line ends, with an empty
    line between them. *)
Example indent_carriage_return_line_feed :
  indent true ("a" ++ CR ++ LF ++ "b") = ("> a" ++ CR ++ "> " ++ LF ++ "> b")%string.
Proof. reflexivity. Qed.

End QuotingExtras.
